(** * Keikaku: a shallow embedding of the tree-walking interpreter

    The development follows [src/compiler/interpreter.c] and
    [src/compiler/main.c]:

    - [Double]: the IEEE-754 binary64 arithmetic the evaluator routes every
      numeric operator through (built on the Standard Library's [SpecFloat]);
    - the abstract syntax tree of [ast.h];
    - the value model, the environment chain and the generator frames of
      [interpreter.h];
    - the evaluator itself ([eval_expr], [eval_stmt], [exec_block],
      [interpreter_call], [interpreter_gen_next]) as one fuel-indexed
      recursive definition over an explicit interpreter state;
    - the properties of the specification, stated on these definitions.

    Conventions.  A C pointer to a heap object whose identity matters is a
    natural-number address drawn from the allocation counter of the state;
    deallocation is not modelled, so an address is never reused.  A result
    [None] means that the fuel ran out or that the C program has no defined
    behaviour at that point (each such place says which).  Diagnostic text
    written by the [voice_print_*] functions is not part of the model; what
    [declare] writes is. *)

From Stdlib Require Import ZArith Lia Bool List String Ascii.
From Stdlib Require Import Floats.SpecFloat.
From stdpp Require Import base option list gmap strings pretty.

#[local] Set Warnings "-register-all".

Import ListNotations.
Local Open Scope string_scope.
Local Open Scope list_scope.
Local Open Scope Z_scope.

(** Sequencing of partial computations.  The bound computation is matched
    on, so the names of the pattern get their types from it. *)
Notation "'do' p <- c ; k" :=
  (match c with Some p => k | None => None end)
  (at level 10, p pattern, c at level 100, k at level 200, only parsing).

(** ** 64-bit integers and doubles *)

Definition INT64_MIN : Z := - 2 ^ 63.
Definition INT64_MAX : Z := 2 ^ 63 - 1.

Definition in_int64 (z : Z) : bool := (INT64_MIN <=? z) && (z <=? INT64_MAX).

(** Two's-complement wrap-around of a mathematical integer to [int64_t]. *)
Definition wrap64 (z : Z) : Z := (z + 2 ^ 63) mod 2 ^ 64 - 2 ^ 63.

Module Double.

Definition prec : Z := 53.
Definition emax : Z := 1024.

Definition t := spec_float.

(** [(double)z] for an [int64_t] [z]: round to nearest, ties to even. *)
Definition of_int64 (z : Z) : t := binary_normalize prec emax z 0 false.

Definition add : t -> t -> t := SFadd prec emax.
Definition sub : t -> t -> t := SFsub prec emax.
Definition mul : t -> t -> t := SFmul prec emax.
Definition div : t -> t -> t := SFdiv prec emax.
Definition opp : t -> t := SFopp.

Definition eqb : t -> t -> bool := SFeqb.
Definition ltb : t -> t -> bool := SFltb.
Definition leb : t -> t -> bool := SFleb.

Definition zero : t := S754_zero false.

(** The real value of a finite double, truncated toward zero. *)
Definition trunc (f : t) : option Z :=
  match f with
  | S754_zero _ => Some 0
  | S754_finite s m e =>
      let mag := Z.shiftl (Z.pos m) e in
      Some (if s then - mag else mag)
  | S754_infinity _ | S754_nan => None
  end.

(** [(int64_t)f].  The conversion is undefined in C when the truncated
    value does not fit (and for infinities and NaN): [None]. *)
Definition to_int64 (f : t) : option Z :=
  match trunc f with
  | Some z => if in_int64 z then Some z else None
  | None => None
  end.

End Double.

(** ** Abstract syntax ([ast.h]) *)

Inductive BinaryOp :=
| OP_ADD | OP_SUB | OP_MUL | OP_DIV | OP_INT_DIV | OP_MOD | OP_POW
| OP_EQ | OP_NE | OP_LT | OP_LE | OP_GT | OP_GE | OP_AND | OP_OR.

Inductive UnaryOp := OP_NEG | OP_NOT.

Global Instance BinaryOp_eq_dec : EqDecision BinaryOp.
Proof. solve_decision. Defined.

Global Instance UnaryOp_eq_dec : EqDecision UnaryOp.
Proof. solve_decision. Defined.

(** One node type for expressions and statements, as in the source.  The
    [addr] components stand for the address of the node (loops, delegate) or
    of the statement array (blocks): the generator engine compares them with
    the addresses recorded in resume frames.  A tree produced by the parser
    has pairwise distinct addresses. *)
Inductive ASTNode :=
| AST_INTEGER (int_value : Z)
| AST_FLOAT (float_value : Double.t)
| AST_STRING (string_value : string)
| AST_BOOL (bool_value : bool)
| AST_LIST (elements : list ASTNode)
| AST_DICT (pairs : list (ASTNode * ASTNode))
| AST_IDENTIFIER (name : string)
| AST_BINARY_OP (op : BinaryOp) (left right : ASTNode)
| AST_UNARY_OP (op : UnaryOp) (operand : ASTNode)
| AST_CALL (name : string) (args : list ASTNode)
| AST_INDEX (object index : ASTNode)
| AST_MEMBER (object : ASTNode) (member : string)
| AST_DESIGNATE (target value : ASTNode)
| AST_ASSIGN (target value : ASTNode)
| AST_EXPR_STMT (expr : ASTNode)
| AST_BLOCK (statements : ASTNodeArray)
| AST_FORESEE (condition : ASTNode) (body : ASTNodeArray)
              (alternates : list (ASTNode * ASTNodeArray))
              (otherwise : ASTNodeArray)
| AST_CYCLE_WHILE (addr : nat) (condition : ASTNode) (body : ASTNodeArray)
| AST_CYCLE_THROUGH (addr : nat) (iterable var_pattern : ASTNode)
                    (body : ASTNodeArray)
| AST_CYCLE_FROM_TO (addr : nat) (start end_ var_pattern : ASTNode)
                    (body : ASTNodeArray)
| AST_PROTOCOL (name : string) (params : list ASTParam) (body : ASTNodeArray)
               (is_sequence is_async : bool)
| AST_YIELD (value : option ASTNode)
| AST_DELEGATE (addr : nat) (iterable : ASTNode)
| AST_BREAK
| AST_CONTINUE
| AST_SCHEME (body : ASTNodeArray)
| AST_PREVIEW (expr : ASTNode)
| AST_OVERRIDE (name : string) (value : ASTNode)
| AST_ABSOLUTE (condition : ASTNode)
| AST_ANOMALY (body : ASTNodeArray)
| AST_ENTITY (name : string) (parent : option string) (members : list ASTNode)
| AST_MANIFEST (class_name : string) (args : list ASTNode)
| AST_SELF
| AST_METHOD_CALL (object : ASTNode) (method_name : string)
                  (args : list ASTNode)
| AST_ASCEND (name : string) (args : list ASTNode)
| AST_INCORPORATE (path : string)
| AST_ATTEMPT (try_body : list ASTNode) (error_var : option string)
              (recover_body : list ASTNode)
| AST_LAMBDA (params : list ASTParam) (body : ASTNode)
| AST_TERNARY (condition true_value false_value : ASTNode)
| AST_LIST_COMP (expr iterable : ASTNode) (var_name : string)
                (condition : option ASTNode)
| AST_SLICE (object : ASTNode) (start end_ step : option ASTNode)
| AST_SITUATION (value : ASTNode) (alignments : list ASTNode)
| AST_ALIGNMENT (is_otherwise : bool) (values : list ASTNode)
                (body : ASTNodeArray)
| AST_SPREAD (expr : ASTNode)
| AST_GEN_EXPR (expr iterable : ASTNode) (var_name : string)
               (condition : option ASTNode)
| AST_AWAIT (expr : ASTNode)
| AST_PROGRAM (statements : list ASTNode)
with ASTNodeArray :=
| NodeArray (addr : nat) (nodes : list ASTNode)
with ASTParam :=
| Param (pattern : ASTNode) (default_value : option ASTNode) (is_rest : bool).

Definition array_addr (a : ASTNodeArray) : nat :=
  match a with NodeArray addr _ => addr end.

Definition array_nodes (a : ASTNodeArray) : list ASTNode :=
  match a with NodeArray _ nodes => nodes end.

(** ** Values ([interpreter.h]) *)

Inductive ValueType :=
| VAL_NULL | VAL_BOOL | VAL_INT | VAL_FLOAT | VAL_STRING | VAL_LIST | VAL_DICT
| VAL_FUNCTION | VAL_BUILTIN | VAL_INSTANCE | VAL_CLASS | VAL_GENERATOR
| VAL_PROMISE.

Global Instance ValueType_eq_dec : EqDecision ValueType.
Proof. solve_decision. Defined.

(** The host functions registered by [interpreter_create].  Those whose
    effect lies outside the model (console input, files, clock, random
    numbers, libm, callbacks) are kept by name only. *)
Inductive BuiltinFn :=
| builtin_declare | builtin_measure | builtin_boolean | builtin_classify
| builtin_push | builtin_reverse
| builtin_proceed | builtin_transmit | builtin_receive | builtin_disrupt
| builtin_external (name : string).

Global Instance BuiltinFn_eq_dec : EqDecision BuiltinFn.
Proof. solve_decision. Defined.

(** An [Environment *].  The parent link is fixed by [env_create], so the
    pointer is modelled together with the chain it heads; the entries, which
    are mutable and shared, live in the heap under [env_addr].  [None] as a
    parent is the NULL pointer. *)
Inductive Environment :=
| Env (env_addr : nat) (parent : option Environment).

Definition env_addr (e : Environment) : nat :=
  match e with Env a _ => a end.

Definition env_parent (e : Environment) : option Environment :=
  match e with Env _ p => p end.

(** [env->global]: [parent ? parent->global : env]. *)
Fixpoint env_global (e : Environment) : Environment :=
  match e with
  | Env _ (Some p) => env_global p
  | Env _ None => e
  end.

Record Function := mkFunction {
  fn_addr : nat;                 (* address of the struct *)
  fn_name : option string;       (* NULL for a lambda *)
  fn_node : ASTNode;
  fn_closure : Environment;
  fn_is_lambda : bool;
  fn_is_sequence : bool
}.

Inductive KeikakuClass :=
| mkClass (class_addr : nat) (class_name : string)
          (class_parent : option KeikakuClass) (class_methods : Environment)
          (class_definition : ASTNode).

Definition class_addr (c : KeikakuClass) : nat :=
  match c with mkClass a _ _ _ _ => a end.
Definition class_name (c : KeikakuClass) : string :=
  match c with mkClass _ n _ _ _ => n end.
Definition class_parent (c : KeikakuClass) : option KeikakuClass :=
  match c with mkClass _ _ p _ _ => p end.
Definition class_methods (c : KeikakuClass) : Environment :=
  match c with mkClass _ _ _ m _ => m end.

Record KeikakuInstance := mkInstance {
  inst_addr : nat;
  inst_class_def : KeikakuClass;
  inst_fields : Environment
}.

Inductive GenStatus := GEN_STOPPED | GEN_RUNNING | GEN_SUSPENDED | GEN_DONE.

Global Instance GenStatus_eq_dec : EqDecision GenStatus.
Proof. solve_decision. Defined.

Inductive GenFrameType :=
| GEN_FRAME_BLOCK | GEN_FRAME_CYCLE_THROUGH | GEN_FRAME_CYCLE_FROM_TO
| GEN_FRAME_CYCLE_WHILE | GEN_FRAME_DELEGATE.

Global Instance GenFrameType_eq_dec : EqDecision GenFrameType.
Proof. solve_decision. Defined.

(** Lists, strings and generators are owned by the value that holds them
    (every duplication goes through [value_copy]), so they are stored
    inline.  Instances, classes, dictionaries and promises are shared by
    pointer and compared by address. *)
Inductive Value :=
| VNull
| VBool (bool_val : bool)
| VInt (int_val : Z)
| VFloat (float_val : Double.t)
| VString (string_val : string)
| VList (items : list Value)
| VDict (dict_addr : nat)
| VFunction (func_val : Function)
| VBuiltin (builtin_val : BuiltinFn)
| VInstance (instance_val : KeikakuInstance)
| VClass (class_val : KeikakuClass)
| VGenerator (gen_val : Generator)
| VPromise (promise_addr : nat)
with Generator :=
| mkGenerator (gen_func : Function) (gen_env : Environment) (gen_self : Value)
              (gen_status : GenStatus) (gen_stack : list GenFrame)
              (gen_sent_value : Value) (gen_has_sent : bool)
              (gen_thrown_value : Value) (gen_has_thrown : bool)
with GenFrame :=
| mkGenFrame (frame_type : GenFrameType) (frame_index : nat)
             (frame_iterable : Value) (frame_current frame_end : Z)
             (frame_node : nat).

Definition value_null : Value := VNull.
Definition value_bool (b : bool) : Value := VBool b.
Definition value_int (z : Z) : Value := VInt z.
Definition value_float (f : Double.t) : Value := VFloat f.
Definition value_string (s : string) : Value := VString s.
Definition value_list_new : Value := VList [].
Definition value_builtin (fn : BuiltinFn) : Value := VBuiltin fn.

Definition value_type (v : Value) : ValueType :=
  match v with
  | VNull => VAL_NULL
  | VBool _ => VAL_BOOL
  | VInt _ => VAL_INT
  | VFloat _ => VAL_FLOAT
  | VString _ => VAL_STRING
  | VList _ => VAL_LIST
  | VDict _ => VAL_DICT
  | VFunction _ => VAL_FUNCTION
  | VBuiltin _ => VAL_BUILTIN
  | VInstance _ => VAL_INSTANCE
  | VClass _ => VAL_CLASS
  | VGenerator _ => VAL_GENERATOR
  | VPromise _ => VAL_PROMISE
  end.

Definition gen_func (g : Generator) : Function :=
  match g with mkGenerator f _ _ _ _ _ _ _ _ => f end.
Definition gen_env (g : Generator) : Environment :=
  match g with mkGenerator _ e _ _ _ _ _ _ _ => e end.
Definition gen_self (g : Generator) : Value :=
  match g with mkGenerator _ _ s _ _ _ _ _ _ => s end.
Definition gen_status (g : Generator) : GenStatus :=
  match g with mkGenerator _ _ _ st _ _ _ _ _ => st end.
Definition gen_stack (g : Generator) : list GenFrame :=
  match g with mkGenerator _ _ _ _ stack _ _ _ _ => stack end.
Definition gen_sent_value (g : Generator) : Value :=
  match g with mkGenerator _ _ _ _ _ v _ _ _ => v end.
Definition gen_has_sent (g : Generator) : bool :=
  match g with mkGenerator _ _ _ _ _ _ b _ _ => b end.

Definition gen_set_status (st : GenStatus) (g : Generator) : Generator :=
  match g with
  | mkGenerator f e s _ k sv hs tv ht => mkGenerator f e s st k sv hs tv ht
  end.
Definition gen_set_stack (k : list GenFrame) (g : Generator) : Generator :=
  match g with
  | mkGenerator f e s st _ sv hs tv ht => mkGenerator f e s st k sv hs tv ht
  end.
Definition gen_set_sent (sv : Value) (hs : bool) (g : Generator) : Generator :=
  match g with
  | mkGenerator f e s st k _ _ tv ht => mkGenerator f e s st k sv hs tv ht
  end.
Definition gen_set_thrown (tv : Value) (ht : bool) (g : Generator)
  : Generator :=
  match g with
  | mkGenerator f e s st k sv hs _ _ => mkGenerator f e s st k sv hs tv ht
  end.

Definition frame_type (f : GenFrame) : GenFrameType :=
  match f with mkGenFrame t _ _ _ _ _ => t end.
Definition frame_index (f : GenFrame) : nat :=
  match f with mkGenFrame _ i _ _ _ _ => i end.
Definition frame_iterable (f : GenFrame) : Value :=
  match f with mkGenFrame _ _ v _ _ _ => v end.
Definition frame_current (f : GenFrame) : Z :=
  match f with mkGenFrame _ _ _ c _ _ => c end.
Definition frame_end (f : GenFrame) : Z :=
  match f with mkGenFrame _ _ _ _ e _ => e end.
Definition frame_node (f : GenFrame) : nat :=
  match f with mkGenFrame _ _ _ _ _ n => n end.

(** [gen_push_frame]: the stack grows at its end; the top is the last
    element. *)
Definition gen_push_frame (frame : GenFrame) (gen : Generator) : Generator :=
  gen_set_stack (gen_stack gen ++ [frame]) gen.

Definition value_type_name (type : ValueType) : string :=
  match type with
  | VAL_NULL => "void"
  | VAL_BOOL => "bool"
  | VAL_INT => "int"
  | VAL_FLOAT => "float"
  | VAL_STRING => "string"
  | VAL_LIST => "list"
  | VAL_DICT => "dict"
  | VAL_FUNCTION => "protocol"
  | VAL_BUILTIN => "builtin"
  | VAL_INSTANCE => "instance"
  | VAL_CLASS => "entity"
  | VAL_GENERATOR => "sequence"
  | VAL_PROMISE => "promise"
  end.

Definition value_is_truthy (val : Value) : bool :=
  match val with
  | VNull => false
  | VBool b => b
  | VInt z => negb (z =? 0)
  | VFloat f => negb (Double.eqb f Double.zero)
  | VString s => negb (String.eqb s "")
  | VList items => negb (Nat.eqb (List.length items) 0)
  | _ => true
  end.

(** [value_equals]: different tags are never equal; lists are compared
    element by element, shared objects by address; generators and promises
    fall into the [default] branch. *)
Fixpoint value_equals (a b : Value) {struct a} : bool :=
  if negb (bool_decide (value_type a = value_type b)) then false
  else
    match a, b with
    | VNull, _ => true
    | VBool x, VBool y => Bool.eqb x y
    | VInt x, VInt y => x =? y
    | VFloat x, VFloat y => Double.eqb x y
    | VString x, VString y => String.eqb x y
    | VList xs, VList ys =>
        if negb (Nat.eqb (List.length xs) (List.length ys)) then false
        else
          (fix items_equal (xs ys : list Value) {struct xs} : bool :=
             match xs, ys with
             | x :: xs', y :: ys' =>
                 if negb (value_equals x y) then false
                 else items_equal xs' ys'
             | _, _ => true
             end) xs ys
    | VDict x, VDict y => Nat.eqb x y
    | VFunction f, VFunction g => Nat.eqb (fn_addr f) (fn_addr g)
    | VBuiltin f, VBuiltin g => bool_decide (f = g)
    | VClass c, VClass d => Nat.eqb (class_addr c) (class_addr d)
    | VInstance i, VInstance j => Nat.eqb (inst_addr i) (inst_addr j)
    | _, _ => false
    end.

(** [snprintf] into a buffer of [size] bytes keeps at most [size - 1]
    characters. *)
Definition snprintf (size : nat) (s : string) : string :=
  String.substring 0 (size - 1) s.

(** The one-character string holding a double quote. *)
Definition dquote : string := String (ascii_of_nat 34) EmptyString.

(** [value_to_string].  A float is formatted by the C library ([%g]), which
    is outside the model: [None]; so is a function without a name. *)
Fixpoint value_to_string (val : Value) : option string :=
  match val with
  | VNull => Some "void"
  | VBool b => Some (if b then "true" else "false")
  | VInt z => Some (pretty z)
  | VFloat _ => None
  | VString s => Some (snprintf 1024 (dquote +:+ s +:+ dquote))
  | VList items =>
      (fix go (first : bool) (l : list Value) (result : string) {struct l}
         : option string :=
         match l with
         | [] => Some (result +:+ "]")
         | x :: l' =>
             do item <- value_to_string x;
             go false l' ((if first then result else result +:+ ", ") +:+ item)
         end) true items "["
  | VDict _ => Some "{...}"
  | VFunction f =>
      do name <- fn_name f; Some (snprintf 1024 ("<protocol " +:+ name +:+ ">"))
  | VBuiltin _ => Some "<builtin>"
  | VInstance i =>
      Some (snprintf 1024
              ("<manifestation of " +:+ class_name (inst_class_def i) +:+ ">"))
  | VClass c => Some (snprintf 1024 ("<entity " +:+ class_name c +:+ ">"))
  | VGenerator g =>
      do name <- fn_name (gen_func g);
      Some (snprintf 1024 ("<sequence " +:+ name +:+ ">"))
  | VPromise _ => Some "<unknown>"
  end.

(** ** Memory and environments *)

Record EnvEntry := mkEntry {
  entry_name : string;
  entry_value : Value;
  entry_is_override : bool
}.

(** The entries of every environment, most recent definition first, and the
    allocation counter for the records whose address the program can
    observe (environments, functions, classes, instances).  The characters
    of a string and the items of a list are part of the value: the blocks
    that [strdup], [calloc] and [realloc] give them are not recorded here,
    so an unchanged [Memory] says nothing about those allocations. *)
Record Memory := mkMemory {
  heap : gmap nat (list EnvEntry);
  next_addr : nat
}.

Definition env_entries (m : Memory) (env : Environment) : list EnvEntry :=
  default [] (heap m !! env_addr env).

Definition set_entries (env : Environment) (es : list EnvEntry) (m : Memory)
  : Memory :=
  {| heap := <[env_addr env := es]> (heap m); next_addr := next_addr m |}.

(** A fresh address from the allocator. *)
Definition alloc (m : Memory) : nat * Memory :=
  (next_addr m, {| heap := heap m; next_addr := S (next_addr m) |}).

Definition env_create (parent : option Environment) (m : Memory)
  : Environment * Memory :=
  let '(a, m) := alloc m in
  (Env a parent, set_entries (Env a parent) [] m).

Definition env_define (env : Environment) (name : string) (value : Value)
  (m : Memory) : Memory :=
  set_entries env (mkEntry name value false :: env_entries m env) m.

Fixpoint entries_find (es : list EnvEntry) (name : string) : option EnvEntry :=
  match es with
  | [] => None
  | e :: es' =>
      if String.eqb (entry_name e) name then Some e else entries_find es' name
  end.

(** [env_find]: the first entry of this one scope named [name]. *)
Definition env_find (m : Memory) (env : Environment) (name : string)
  : option EnvEntry :=
  entries_find (env_entries m env) name.

(** Overwrite, in place, the entry that [entries_find] returns. *)
Fixpoint entries_update (es : list EnvEntry) (name : string)
  (f : EnvEntry -> EnvEntry) : list EnvEntry :=
  match es with
  | [] => []
  | e :: es' =>
      if String.eqb (entry_name e) name then f e :: es'
      else e :: entries_update es' name f
  end.

Definition entry_assign (value : Value) (e : EnvEntry) : EnvEntry :=
  mkEntry (entry_name e) value (entry_is_override e).

Definition entry_force (value : Value) (e : EnvEntry) : EnvEntry :=
  mkEntry (entry_name e) value true.

Definition env_update (env : Environment) (name : string)
  (f : EnvEntry -> EnvEntry) (m : Memory) : Memory :=
  set_entries env (entries_update (env_entries m env) name f) m.

(** [env_set]: the current scope, then its parent, then a new definition. *)
Definition env_set (env : Environment) (name : string) (value : Value)
  (m : Memory) : Memory :=
  match env_find m env name with
  | Some _ => env_update env name (entry_assign value) m
  | None =>
      match env_parent env with
      | Some parent =>
          match env_find m parent name with
          | Some _ => env_update parent name (entry_assign value) m
          | None => env_define env name value m
          end
      | None => env_define env name value m
      end
  end.

(** [env_force_set]: write at [env->global]. *)
Definition env_force_set (env : Environment) (name : string) (value : Value)
  (m : Memory) : Memory :=
  let global := env_global env in
  match env_find m global name with
  | Some _ => env_update global name (entry_force value) m
  | None => env_define global name value m
  end.

(** ** Copying values *)

Definition function_copy (f : Function) (m : Memory) : Function * Memory :=
  let '(a, m) := alloc m in
  (mkFunction a (fn_name f) (fn_node f) (fn_closure f) (fn_is_lambda f)
     (fn_is_sequence f), m).

Section ValueCopy.

(** How the value of an environment entry is copied: the recursion of
    [value_copy] through the heap, which is bounded by fuel. *)
Variable copy_stored : Value -> Memory -> option (Value * Memory).

(** Copy the entries of the source environment, head first, with
    [env_define] into [dst] (so [dst] lists them in reverse order and with
    the override mark cleared). *)
Fixpoint copy_entries (src : list EnvEntry) (dst : Environment) (m : Memory)
  : option Memory :=
  match src with
  | [] => Some m
  | e :: src' =>
      do (v, m) <- copy_stored (entry_value e) m;
      copy_entries src' dst (env_define dst (entry_name e) v m)
  end.

Fixpoint value_copy_rec (val : Value) (m : Memory) {struct val}
  : option (Value * Memory) :=
  match val with
  | VString s => Some (VString s, m)
  | VList items =>
      do (items', m) <-
        (fix copy_items (l : list Value) (m : Memory) {struct l}
           : option (list Value * Memory) :=
           match l with
           | [] => Some ([], m)
           | x :: l' =>
               do (x', m) <- value_copy_rec x m;
               do (l'', m) <- copy_items l' m;
               Some (x' :: l'', m)
           end) items m;
      Some (VList items', m)
  | VFunction f =>
      let '(f', m) := function_copy f m in Some (VFunction f', m)
  | VGenerator (mkGenerator func env self status stack _ _ _ _) =>
      let '(func', m) := function_copy func m in
      let src_entries := env_entries m env in
      let '(env', m) := env_create (env_parent env) m in
      do m <- copy_entries src_entries env' m;
      do (self', m) <- value_copy_rec self m;
      do (stack', m) <-
        (fix copy_frames (l : list GenFrame) (m : Memory) {struct l}
           : option (list GenFrame * Memory) :=
           match l with
           | [] => Some ([], m)
           | mkGenFrame ty idx it cur en node :: l' =>
               do (it', m) <-
                 (if bool_decide (ty = GEN_FRAME_CYCLE_THROUGH)
                  then value_copy_rec it m
                  else Some (it, m));
               do (l'', m) <- copy_frames l' m;
               Some (mkGenFrame ty idx it' cur en node :: l'', m)
           end) stack m;
      Some (VGenerator
              (mkGenerator func' env' self' status stack'
                 VNull false VNull false), m)
  | _ => Some (val, m)
  end.

End ValueCopy.

(** [value_copy].  Fuel is consumed only where the copy follows a generator
    into the values stored in its environment. *)
Fixpoint value_copy (fuel : nat) : Value -> Memory -> option (Value * Memory) :=
  match fuel with
  | O => value_copy_rec (fun _ _ => None)
  | S fuel' => value_copy_rec (value_copy fuel')
  end.

(** [env_get]: walk the chain; the value found is returned as a copy. *)
Fixpoint env_get (fuel : nat) (env : Environment) (name : string) (m : Memory)
  : option (Value * bool * Memory) :=
  match env_find m env name with
  | Some entry =>
      do (v, m) <- value_copy fuel (entry_value entry) m;
      Some (v, true, m)
  | None =>
      match env with
      | Env _ (Some parent) => env_get fuel parent name m
      | Env _ None => Some (value_null, false, m)
      end
  end.

Definition value_list_push (list : Value) (item : Value) : Value :=
  match list with
  | VList items => VList (items ++ [item])
  | _ => list
  end.

Definition value_list_get (fuel : nat) (list : Value) (index : Z) (m : Memory)
  : option (Value * Memory) :=
  match list with
  | VList items =>
      if (index <? 0) || (Z.of_nat (List.length items) <=? index)
      then Some (value_null, m)
      else
        match items !! Z.to_nat index with
        | Some item => value_copy fuel item m
        | None => Some (value_null, m)
        end
  | _ => None
  end.

(** ** The interpreter state ([struct Interpreter]) *)

Record Interpreter := mkInterpreter {
  mem : Memory;
  (** What [malloc] leaves in the [is_sequence] byte of a [Function]
      allocated at a given address and never initialised (methods of an
      entity). *)
  malloc_junk : nat -> bool;
  global_env : Environment;
  current_env : Environment;
  return_value : Value;
  has_return : bool;
  has_break : bool;
  has_continue : bool;
  has_error : bool;
  error_buffer : string;
  last_error : string;
  error_repeat_count : Z;
  preview_mode : bool;
  anomaly_mode : bool;
  current_gen : option Generator;
  is_resuming : bool;
  resume_stack : list GenFrame;
  resume_count : nat;
  (** Standard output: one element per call of [declare], holding the
      arguments it printed. *)
  stdout : list (list Value)
}.

Definition set_mem (x : Memory) (i : Interpreter) : Interpreter :=
  mkInterpreter x (malloc_junk i) (global_env i) (current_env i)
    (return_value i) (has_return i) (has_break i) (has_continue i)
    (has_error i) (error_buffer i) (last_error i) (error_repeat_count i)
    (preview_mode i) (anomaly_mode i) (current_gen i) (is_resuming i)
    (resume_stack i) (resume_count i) (stdout i).

Definition set_current_env (x : Environment) (i : Interpreter) : Interpreter :=
  mkInterpreter (mem i) (malloc_junk i) (global_env i) x
    (return_value i) (has_return i) (has_break i) (has_continue i)
    (has_error i) (error_buffer i) (last_error i) (error_repeat_count i)
    (preview_mode i) (anomaly_mode i) (current_gen i) (is_resuming i)
    (resume_stack i) (resume_count i) (stdout i).

Definition set_return_value (x : Value) (i : Interpreter) : Interpreter :=
  mkInterpreter (mem i) (malloc_junk i) (global_env i) (current_env i)
    x (has_return i) (has_break i) (has_continue i)
    (has_error i) (error_buffer i) (last_error i) (error_repeat_count i)
    (preview_mode i) (anomaly_mode i) (current_gen i) (is_resuming i)
    (resume_stack i) (resume_count i) (stdout i).

Definition set_has_return (x : bool) (i : Interpreter) : Interpreter :=
  mkInterpreter (mem i) (malloc_junk i) (global_env i) (current_env i)
    (return_value i) x (has_break i) (has_continue i)
    (has_error i) (error_buffer i) (last_error i) (error_repeat_count i)
    (preview_mode i) (anomaly_mode i) (current_gen i) (is_resuming i)
    (resume_stack i) (resume_count i) (stdout i).

Definition set_has_break (x : bool) (i : Interpreter) : Interpreter :=
  mkInterpreter (mem i) (malloc_junk i) (global_env i) (current_env i)
    (return_value i) (has_return i) x (has_continue i)
    (has_error i) (error_buffer i) (last_error i) (error_repeat_count i)
    (preview_mode i) (anomaly_mode i) (current_gen i) (is_resuming i)
    (resume_stack i) (resume_count i) (stdout i).

Definition set_has_continue (x : bool) (i : Interpreter) : Interpreter :=
  mkInterpreter (mem i) (malloc_junk i) (global_env i) (current_env i)
    (return_value i) (has_return i) (has_break i) x
    (has_error i) (error_buffer i) (last_error i) (error_repeat_count i)
    (preview_mode i) (anomaly_mode i) (current_gen i) (is_resuming i)
    (resume_stack i) (resume_count i) (stdout i).

Definition set_has_error (x : bool) (i : Interpreter) : Interpreter :=
  mkInterpreter (mem i) (malloc_junk i) (global_env i) (current_env i)
    (return_value i) (has_return i) (has_break i) (has_continue i)
    x (error_buffer i) (last_error i) (error_repeat_count i)
    (preview_mode i) (anomaly_mode i) (current_gen i) (is_resuming i)
    (resume_stack i) (resume_count i) (stdout i).

Definition set_error_buffer (x : string) (i : Interpreter) : Interpreter :=
  mkInterpreter (mem i) (malloc_junk i) (global_env i) (current_env i)
    (return_value i) (has_return i) (has_break i) (has_continue i)
    (has_error i) x (last_error i) (error_repeat_count i)
    (preview_mode i) (anomaly_mode i) (current_gen i) (is_resuming i)
    (resume_stack i) (resume_count i) (stdout i).

Definition set_error_tracking (last : string) (count : Z) (i : Interpreter)
  : Interpreter :=
  mkInterpreter (mem i) (malloc_junk i) (global_env i) (current_env i)
    (return_value i) (has_return i) (has_break i) (has_continue i)
    (has_error i) (error_buffer i) last count
    (preview_mode i) (anomaly_mode i) (current_gen i) (is_resuming i)
    (resume_stack i) (resume_count i) (stdout i).

Definition set_anomaly_mode (x : bool) (i : Interpreter) : Interpreter :=
  mkInterpreter (mem i) (malloc_junk i) (global_env i) (current_env i)
    (return_value i) (has_return i) (has_break i) (has_continue i)
    (has_error i) (error_buffer i) (last_error i) (error_repeat_count i)
    (preview_mode i) x (current_gen i) (is_resuming i)
    (resume_stack i) (resume_count i) (stdout i).

Definition set_current_gen (x : option Generator) (i : Interpreter)
  : Interpreter :=
  mkInterpreter (mem i) (malloc_junk i) (global_env i) (current_env i)
    (return_value i) (has_return i) (has_break i) (has_continue i)
    (has_error i) (error_buffer i) (last_error i) (error_repeat_count i)
    (preview_mode i) (anomaly_mode i) x (is_resuming i)
    (resume_stack i) (resume_count i) (stdout i).

Definition set_is_resuming (x : bool) (i : Interpreter) : Interpreter :=
  mkInterpreter (mem i) (malloc_junk i) (global_env i) (current_env i)
    (return_value i) (has_return i) (has_break i) (has_continue i)
    (has_error i) (error_buffer i) (last_error i) (error_repeat_count i)
    (preview_mode i) (anomaly_mode i) (current_gen i) x
    (resume_stack i) (resume_count i) (stdout i).

Definition set_resume_stack (x : list GenFrame) (i : Interpreter)
  : Interpreter :=
  mkInterpreter (mem i) (malloc_junk i) (global_env i) (current_env i)
    (return_value i) (has_return i) (has_break i) (has_continue i)
    (has_error i) (error_buffer i) (last_error i) (error_repeat_count i)
    (preview_mode i) (anomaly_mode i) (current_gen i) (is_resuming i)
    x (resume_count i) (stdout i).

Definition set_resume_count (x : nat) (i : Interpreter) : Interpreter :=
  mkInterpreter (mem i) (malloc_junk i) (global_env i) (current_env i)
    (return_value i) (has_return i) (has_break i) (has_continue i)
    (has_error i) (error_buffer i) (last_error i) (error_repeat_count i)
    (preview_mode i) (anomaly_mode i) (current_gen i) (is_resuming i)
    (resume_stack i) x (stdout i).

Definition set_stdout (x : list (list Value)) (i : Interpreter) : Interpreter :=
  mkInterpreter (mem i) (malloc_junk i) (global_env i) (current_env i)
    (return_value i) (has_return i) (has_break i) (has_continue i)
    (has_error i) (error_buffer i) (last_error i) (error_repeat_count i)
    (preview_mode i) (anomaly_mode i) (current_gen i) (is_resuming i)
    (resume_stack i) (resume_count i) x.

(** Memory operations, lifted to the interpreter state. *)

Definition with_mem (f : Memory -> Memory) (interp : Interpreter)
  : Interpreter :=
  set_mem (f (mem interp)) interp.

Definition lift_mem {A} (f : Memory -> option (A * Memory))
  (interp : Interpreter) : option (A * Interpreter) :=
  do (a, m) <- f (mem interp); Some (a, set_mem m interp).

Definition new_env (parent : option Environment) (interp : Interpreter)
  : Environment * Interpreter :=
  let '(e, m) := env_create parent (mem interp) in (e, set_mem m interp).

Definition new_addr (interp : Interpreter) : nat * Interpreter :=
  let '(a, m) := alloc (mem interp) in (a, set_mem m interp).

Definition lookup (fuel : nat) (env : Environment) (name : string)
  (interp : Interpreter) : option (Value * bool * Interpreter) :=
  do (v, found, m) <- env_get fuel env name (mem interp);
  Some (v, found, set_mem m interp).

Definition copy (fuel : nat) (val : Value) (interp : Interpreter)
  : option (Value * Interpreter) :=
  lift_mem (value_copy fuel val) interp.

(** [runtime_error]: raise the flag, store the message, count repeats. *)
Definition runtime_error (msg : string) (interp : Interpreter) : Interpreter :=
  let interp := set_has_error true interp in
  let interp := set_error_buffer (snprintf 1024 msg) interp in
  if String.eqb (last_error interp) msg
  then set_error_tracking (last_error interp) (error_repeat_count interp + 1)
         interp
  else set_error_tracking (snprintf 256 msg) 1 interp.

Definition interpreter_has_error (interp : Interpreter) : bool :=
  has_error interp.

Definition interpreter_get_error (interp : Interpreter) : string :=
  error_buffer interp.

(** The texts of the runtime errors. *)
Definition MSG_DIVISION_BY_ZERO : string :=
  "Division by zero. Even infinity has its limits.".
Definition MSG_PRIVATE_ACCESS : string :=
  "Access to private member inhibited.".
Definition MSG_PRIVATE_MODIFICATION : string :=
  "Modification of private member inhibited.".
Definition MSG_SLICE_STEP_ZERO : string := "Slice step cannot be zero".
Definition MSG_SLICE_TYPE : string := "Slice requires list or string".

(** A message built with [snprintf] into [char msg[256]]. *)
Definition msg256 (parts : list string) : string :=
  snprintf 256 (String.concat "" parts).

(** ** Slices: the index computation of [AST_SLICE] *)

(** Negative indices are taken relative to the length; then the bounds are
    clamped as the source clamps them. *)
Definition slice_bounds (len start end_ : Z) : Z * Z :=
  let start := if start <? 0 then len + start else start in
  let end_ := if end_ <? 0 then len + end_ else end_ in
  let start := if start <? 0 then 0 else start in
  let end_ := if len <? end_ then len else end_ in
  let start := if len <? start then len else start in
  (start, end_).

(** [for (i = i0; i < end; i += step)] with [step > 0]: the indices visited.
    [i += step] past [INT64_MAX] is undefined: [None]. *)
Fixpoint slice_up (n : nat) (i end_ step : Z) : option (list Z) :=
  if i <? end_ then
    match n with
    | O => None
    | S n' =>
        if in_int64 (i + step)
        then do rest <- slice_up n' (i + step) end_ step; Some (i :: rest)
        else None
    end
  else Some [].

(** [for (i = i0; i > end; i += step)] with [step < 0], keeping the indices
    that satisfy [i >= 0 && i < len]. *)
Fixpoint slice_down (n : nat) (len i end_ step : Z) : option (list Z) :=
  if end_ <? i then
    match n with
    | O => None
    | S n' =>
        if in_int64 (i + step)
        then
          do rest <- slice_down n' len (i + step) end_ step;
          Some (if (0 <=? i) && (i <? len) then i :: rest else rest)
        else None
    end
  else Some [].

(** The indices copied by the list branch, after [slice_bounds]. *)
Definition slice_list_indices (len start end_ step : Z) : option (list Z) :=
  if 0 <? step then slice_up (Z.to_nat (end_ - start)) start end_ step
  else
    let i0 := if end_ <? start then start - 1 else start in
    slice_down (Z.to_nat (i0 - end_)) len i0 end_ step.

(** The indices copied by the string branch, whose loop is
    [for (i = start; i < end && i < len; i += step)] whatever the sign of
    [step].  With a negative step and [start < end] the loop leaves the
    string at its lower end: undefined. *)
Definition slice_string_indices (len start end_ step : Z) : option (list Z) :=
  let stop := Z.min end_ len in
  if 0 <? step then slice_up (Z.to_nat (stop - start)) start stop step
  else if start <? stop then None
  else Some [].

Definition string_get (s : string) (i : Z) : option ascii :=
  String.get (Z.to_nat i) s.

Fixpoint string_of_chars (l : list ascii) : string :=
  match l with
  | [] => EmptyString
  | c :: l' => String c (string_of_chars l')
  end.

(** ** The evaluator *)

(** The recursive entry points, at a given fuel. *)
Record Evaluator := mkEvaluator {
  ev_expr : ASTNode -> Interpreter -> option (Value * Interpreter);
  ev_stmt : ASTNode -> Interpreter -> option (Value * Interpreter);
  ev_block : ASTNodeArray -> Interpreter -> option Interpreter;
  ev_assign : ASTNode -> Value -> bool -> Interpreter -> option Interpreter;
  ev_call : Function -> Value -> list Value -> Interpreter
            -> option (Value * Interpreter);
  ev_gen_next : Generator -> Interpreter
                -> option (Value * Generator * Interpreter);
  (** the rest of a [cycle while] loop *)
  ev_cycle_while : nat -> ASTNode -> ASTNodeArray -> Interpreter
                   -> option Interpreter;
  (** the rest of a [cycle from .. to] loop, from a given counter *)
  ev_cycle_from_to : nat -> ASTNode -> ASTNodeArray -> Z -> Z -> Interpreter
                     -> option Interpreter;
  (** the rest of a [cycle through] loop over a generator *)
  ev_cycle_gen : nat -> ASTNode -> ASTNodeArray -> bool -> Generator
                 -> Interpreter -> option Interpreter;
  (** the rest of a generator expression over a generator *)
  ev_gen_expr_gen : ASTNode -> string -> option ASTNode -> Generator
                    -> list Value -> Interpreter
                    -> option (Value * Interpreter)
}.

Definition no_fuel : Evaluator :=
  mkEvaluator (fun _ _ => None) (fun _ _ => None) (fun _ _ => None)
    (fun _ _ _ _ => None) (fun _ _ _ _ => None) (fun _ _ => None)
    (fun _ _ _ _ => None) (fun _ _ _ _ _ _ => None)
    (fun _ _ _ _ _ _ => None) (fun _ _ _ _ _ _ => None).

Definition strip_quotes (s : string) : string :=
  String.substring 1 (String.length s - 2) s.

Fixpoint string_repeat (n : nat) (s : string) : string :=
  match n with
  | O => ""
  | S n' => s +:+ string_repeat n' s
  end.

(** [PTRDIFF_MAX] where [size_t] has 64 bits: no allocation is larger. *)
Definition PTRDIFF_MAX : Z := 2 ^ 63 - 1.

(** The buffer of the string multiplication, [malloc(len * times + 1)]
    with the size computed in [size_t], against the bytes the code then
    writes: the terminator alone for [times <= 0], and with the loop of
    [strcat] [len * times + 1] bytes otherwise.  An allocation of zero bytes
    or of more than [PTRDIFF_MAX] bytes gives no block to write to; any
    other allocation is taken to succeed, as everywhere in this model. *)
Definition string_repeat_fits (len : nat) (times : Z) : bool :=
  let size := (Z.of_nat len * times + 1) mod 2 ^ 64 in
  let written := if 0 <? times then Z.of_nat len * times + 1 else 1 in
  (written <=? size) && (size <=? PTRDIFF_MAX).

(** The operand of a numeric operator as a double.  Reading [int_val] out
    of a value of another type has no defined result. *)
Definition numeric_operand (v : Value) : option Double.t :=
  match v with
  | VFloat f => Some f
  | VInt z => Some (Double.of_int64 z)
  | _ => None
  end.

Definition is_float (v : Value) : bool :=
  match v with VFloat _ => true | _ => false end.

Definition is_string (v : Value) : bool :=
  match v with VString _ => true | _ => false end.

(** The [switch] at the end of [eval_binary]: both operands are doubles. *)
Definition eval_numeric (op : BinaryOp) (use_float : bool) (a b : Double.t)
  (interp : Interpreter) : option (Value * Interpreter) :=
  let arith (r : Double.t) :=
    if use_float then Some (value_float r, interp)
    else do z <- Double.to_int64 r; Some (value_int z, interp) in
  match op with
  | OP_ADD => arith (Double.add a b)
  | OP_SUB => arith (Double.sub a b)
  | OP_MUL => arith (Double.mul a b)
  | OP_DIV =>
      if Double.eqb b Double.zero
      then Some (value_null, runtime_error MSG_DIVISION_BY_ZERO interp)
      else Some (value_float (Double.div a b), interp)
  | OP_INT_DIV =>
      if Double.eqb b Double.zero
      then Some (value_null, runtime_error MSG_DIVISION_BY_ZERO interp)
      else do z <- Double.to_int64 (Double.div a b); Some (value_int z, interp)
  | OP_MOD =>
      (* (int64_t)a % (int64_t)b: undefined for a zero divisor and for
         INT64_MIN % -1 *)
      do x <- Double.to_int64 a;
      do y <- Double.to_int64 b;
      if (y =? 0) || ((x =? INT64_MIN) && (y =? -1)) then None
      else Some (value_int (Z.rem x y), interp)
  | OP_POW => None (* pow() of the C library *)
  | OP_EQ => Some (value_bool (Double.eqb a b), interp)
  | OP_NE => Some (value_bool (negb (Double.eqb a b)), interp)
  | OP_LT => Some (value_bool (Double.ltb a b), interp)
  | OP_LE => Some (value_bool (Double.leb a b), interp)
  | OP_GT => Some (value_bool (Double.ltb b a), interp)
  | OP_GE => Some (value_bool (Double.leb b a), interp)
  | OP_AND | OP_OR => Some (value_null, interp)
  end.

(** [eval_binary] once both operands are evaluated. *)
Definition eval_binary_values (op : BinaryOp) (left right : Value)
  (interp : Interpreter) : option (Value * Interpreter) :=
  if bool_decide (op = OP_ADD) && (is_string left || is_string right) then
    do left_str <- value_to_string left;
    do right_str <- value_to_string right;
    let left_str := if is_string left then strip_quotes left_str
                    else left_str in
    let right_str := if is_string right then strip_quotes right_str
                     else right_str in
    Some (value_string (left_str +:+ right_str), interp)
  else
    match op, left, right with
    | OP_MUL, VString s, VInt times =>
        if string_repeat_fits (String.length s) times
        then Some (value_string (string_repeat (Z.to_nat times) s), interp)
        else None
    | _, _, _ =>
        let use_float := is_float left || is_float right in
        do a <- numeric_operand left;
        do b <- numeric_operand right;
        eval_numeric op use_float a b interp
    end.

Definition fail_with (msg : string) (interp : Interpreter)
  : option (Value * Interpreter) :=
  Some (value_null, runtime_error msg interp).

(** A frame as [memset] leaves it, with the given type and node. *)
Definition new_frame (type : GenFrameType) (node : nat) : GenFrame :=
  mkGenFrame type 0 VNull 0 0 node.

Definition frame_with_index (index : nat) (f : GenFrame) : GenFrame :=
  match f with mkGenFrame t _ v c e n => mkGenFrame t index v c e n end.
Definition frame_with_iterable (v : Value) (f : GenFrame) : GenFrame :=
  match f with mkGenFrame t i _ c e n => mkGenFrame t i v c e n end.
Definition frame_with_range (c e : Z) (f : GenFrame) : GenFrame :=
  match f with mkGenFrame t i v _ _ n => mkGenFrame t i v c e n end.

(** [gen_push_frame(interp->current_gen, f)]. *)
Definition push_frame (f : GenFrame) (interp : Interpreter) : Interpreter :=
  match current_gen interp with
  | Some gen => set_current_gen (Some (gen_push_frame f gen)) interp
  | None => interp
  end.

(** [interp->has_return && interp->current_gen && !interp->has_error]: the
    condition under which a construct records a resume frame. *)
Definition suspending (interp : Interpreter) : bool :=
  has_return interp && bool_decide (is_Some (current_gen interp))
  && negb (has_error interp).

(** The test every resumable construct makes on entry: if the interpreter is
    resuming and the frame on top of the resume stack has this type and
    node, consume it. *)
Definition take_resume_frame (type : GenFrameType) (node : nat)
  (interp : Interpreter) : option (option GenFrame * Interpreter) :=
  if is_resuming interp && (0 <? resume_count interp)%nat then
    do frame <- resume_stack interp !! (resume_count interp - 1)%nat;
    if bool_decide (frame_type frame = type)
       && (frame_node frame =? node)%nat
    then
      let interp := set_resume_count (resume_count interp - 1)%nat interp in
      let interp := if (resume_count interp =? 0)%nat
                    then set_is_resuming false interp else interp in
      Some (Some frame, interp)
    else Some (None, interp)
  else Some (None, interp).

Definition is_private (member : string) : bool :=
  match member with
  | String c _ => bool_decide (c = ascii_of_nat 95)
  | EmptyString => false
  end.

Definition stack_count (interp : Interpreter) : nat :=
  match current_gen interp with
  | Some gen => List.length (gen_stack gen)
  | None => 0%nat
  end.

(** The first half of [interpreter_gen_next]: the saved stack becomes the
    interpreter's resume stack, the generator (with an empty stack for the
    new suspension record) the current generator, its environment the
    current environment. *)
Definition gen_install (gen : Generator) (interp : Interpreter) : Interpreter :=
  let interp := set_resume_stack (gen_stack gen) interp in
  let interp := set_resume_count (List.length (gen_stack gen)) interp in
  let interp := set_is_resuming (0 <? resume_count interp)%nat interp in
  let interp := set_current_gen (Some (gen_set_stack [] gen)) interp in
  set_current_env (gen_env gen) interp.

(** The last lines of [interpreter_gen_next]: the caller's environment,
    generator and resume state, saved in [old], are put back. *)
Definition gen_restore (old : Interpreter) (interp : Interpreter)
  : Interpreter :=
  let interp := set_current_env (current_env old) interp in
  let interp := set_current_gen (current_gen old) interp in
  let interp := set_is_resuming (is_resuming old) interp in
  let interp := set_resume_stack (resume_stack old) interp in
  set_resume_count (resume_count old) interp.

Module Step.
Section Step.

(** The fuel left for copies, and the evaluator for every nested
    evaluation. *)
Variable fuel : nat.
Variable rec : Evaluator.

Fixpoint copy_all (items : list Value) (interp : Interpreter)
  : option (list Value * Interpreter) :=
  match items with
  | [] => Some ([], interp)
  | x :: rest =>
      do (x', interp) <- copy fuel x interp;
      do (rest', interp) <- copy_all rest interp;
      Some (x' :: rest', interp)
  end.

(** The argument loop shared by calls, method calls, [ascend] and
    [manifest].  [capacity] is the size of the [argv] buffer: a spread
    reallocates it to exactly [argc + spread_cnt], and a later write past
    it is undefined. *)
Fixpoint eval_args (args : list ASTNode) (argv : list Value)
  (capacity : nat) (interp : Interpreter)
  : option (list Value * Interpreter) :=
  match args with
  | [] => Some (argv, interp)
  | AST_SPREAD e :: rest =>
      do (spread_val, interp) <- ev_expr rec e interp;
      match spread_val with
      | VList items =>
          do (copies, interp) <- copy_all items interp;
          eval_args rest (argv ++ copies)
            (List.length argv + List.length items)%nat interp
      | _ => eval_args rest argv capacity interp
      end
  | arg :: rest =>
      do (v, interp) <- ev_expr rec arg interp;
      if (List.length argv <? capacity)%nat
      then eval_args rest (argv ++ [v]) capacity interp
      else None
  end.

Definition eval_arguments (args : list ASTNode) (interp : Interpreter)
  : option (list Value * Interpreter) :=
  eval_args args [] (Nat.max (List.length args) 1) interp.

(** *** Builtins.  The result, the argument vector as the builtin leaves
    it, and the state. *)
Definition call_builtin (fn : BuiltinFn) (argv : list Value)
  (interp : Interpreter) : option (Value * list Value * Interpreter) :=
  match fn with
  | builtin_declare =>
      Some (value_null, argv, set_stdout (stdout interp ++ [argv]) interp)
  | builtin_measure =>
      match argv with
      | VString s :: _ =>
          Some (value_int (Z.of_nat (String.length s)), argv, interp)
      | VList items :: _ =>
          Some (value_int (Z.of_nat (List.length items)), argv, interp)
      | VDict _ :: _ => None (* dictionaries have no content here *)
      | _ => Some (value_int 0, argv, interp)
      end
  | builtin_boolean =>
      match argv with
      | [] => Some (value_bool false, argv, interp)
      | v :: _ => Some (value_bool (value_is_truthy v), argv, interp)
      end
  | builtin_classify =>
      match argv with
      | [] => Some (value_string "void", argv, interp)
      | v :: _ =>
          Some (value_string (value_type_name (value_type v)), argv, interp)
      end
  | builtin_push =>
      match argv with
      | VList items :: item :: rest =>
          do (item', interp) <- copy fuel item interp;
          let list := value_list_push (VList items) item' in
          do (result, interp) <- copy fuel list interp;
          Some (result, list :: item :: rest, interp)
      | _ => Some (value_null, argv, interp)
      end
  | builtin_reverse =>
      match argv with
      | VList items :: _ =>
          do (result, interp) <- copy_all (rev items) interp;
          Some (VList result, argv, interp)
      | _ => Some (value_list_new, argv, interp)
      end
  | builtin_proceed =>
      match argv with
      | VGenerator gen :: rest =>
          do (result, gen, interp) <- ev_gen_next rec gen interp;
          Some (result, VGenerator gen :: rest, interp)
      | _ => Some (value_null, argv, interp)
      end
  | builtin_transmit =>
      match argv with
      | VGenerator gen :: v :: rest =>
          do (sent, interp) <- copy fuel v interp;
          do (result, gen, interp) <-
            ev_gen_next rec (gen_set_sent sent true gen) interp;
          Some (result, VGenerator gen :: v :: rest, interp)
      | _ => Some (value_null, argv, interp)
      end
  | builtin_receive =>
      match current_gen interp with
      | Some gen =>
          if gen_has_sent gen then
            Some (gen_sent_value gen, argv,
                  set_current_gen (Some (gen_set_sent value_null false gen))
                    interp)
          else Some (value_null, argv, interp)
      | None => Some (value_null, argv, interp)
      end
  | builtin_disrupt =>
      match argv with
      | VGenerator gen :: v :: rest =>
          do (thrown, interp) <- copy fuel v interp;
          do (result, gen, interp) <-
            ev_gen_next rec (gen_set_thrown thrown true gen) interp;
          Some (result, VGenerator gen :: v :: rest, interp)
      | _ => Some (value_null, argv, interp)
      end
  | builtin_external _ => None
  end.

(** [eval_call] *)
Definition eval_call (name : string) (args : list ASTNode)
  (interp : Interpreter) : option (Value * Interpreter) :=
  do (func, found, interp) <- lookup fuel (current_env interp) name interp;
  if negb found then
    fail_with
      (msg256 ["'"; name;
               "' is unknown. Perhaps you intended to define it first."])
      interp
  else
    do (argv, interp) <- eval_arguments args interp;
    match func with
    | VBuiltin fn =>
        (* the argument vector is freed after the call *)
        do (result, _, interp) <- call_builtin fn argv interp;
        Some (result, interp)
    | VFunction f => ev_call rec f value_null argv interp
    | _ => fail_with (msg256 ["'"; name; "' is not callable."]) interp
    end.

(** [eval_binary] *)
Definition eval_binary (op : BinaryOp) (left right : ASTNode)
  (interp : Interpreter) : option (Value * Interpreter) :=
  do (left, interp) <- ev_expr rec left interp;
  match op with
  | OP_AND =>
      if negb (value_is_truthy left) then Some (value_bool false, interp)
      else
        do (right, interp) <- ev_expr rec right interp;
        Some (value_bool (value_is_truthy right), interp)
  | OP_OR =>
      if value_is_truthy left then Some (value_bool true, interp)
      else
        do (right, interp) <- ev_expr rec right interp;
        Some (value_bool (value_is_truthy right), interp)
  | _ =>
      do (right, interp) <- ev_expr rec right interp;
      eval_binary_values op left right interp
  end.

(** The private-member test of [AST_MEMBER] (reading and assigning):
    [true] when the access is to be refused. *)
Definition private_denied (member : string) (inst : KeikakuInstance)
  (interp : Interpreter) : option (bool * Interpreter) :=
  if is_private member then
    do (self_val, found_self, interp) <-
      lookup fuel (current_env interp) "self" interp;
    if negb found_self then Some (true, interp)
    else
      match self_val with
      | VInstance self_inst =>
          Some (negb (inst_addr self_inst =? inst_addr inst)%nat, interp)
      | _ => None (* instance_val read from a value of another type *)
      end
  else Some (false, interp).

(** [AST_MEMBER], once the object is evaluated. *)
Definition eval_member (obj : Value) (member : string)
  (interp : Interpreter) : option (Value * Interpreter) :=
  match obj with
  | VInstance inst =>
      do (denied, interp) <- private_denied member inst interp;
      if denied then fail_with MSG_PRIVATE_ACCESS interp
      else
        do (val, found, interp) <- lookup fuel (inst_fields inst) member interp;
        if found then copy fuel val interp
        else
          do (method, found, interp) <-
            lookup fuel (class_methods (inst_class_def inst)) member interp;
          if found then copy fuel method interp
          else
            fail_with
              (msg256 ["Member '"; member; "' not found on instance of '";
                       class_name (inst_class_def inst); "'."])
              interp
  | _ => fail_with "Only instances have members." interp
  end.

(** *** Slices *)

Fixpoint copy_indices (items : list Value) (idxs : list Z)
  (interp : Interpreter) : option (list Value * Interpreter) :=
  match idxs with
  | [] => Some ([], interp)
  | i :: rest =>
      do item <- items !! Z.to_nat i;
      do (item', interp) <- copy fuel item interp;
      do (rest', interp) <- copy_indices items rest interp;
      Some (item' :: rest', interp)
  end.

(** [AST_SLICE] once the object and the three bounds are known. *)
Definition slice_value (obj : Value) (start end_ step : Z)
  (interp : Interpreter) : option (Value * Interpreter) :=
  match obj with
  | VList items =>
      let len := Z.of_nat (List.length items) in
      let '(start, end_) := slice_bounds len start end_ in
      if step =? 0 then fail_with MSG_SLICE_STEP_ZERO interp
      else
        do idxs <- slice_list_indices len start end_ step;
        do (vals, interp) <- copy_indices items idxs interp;
        Some (VList vals, interp)
  | VString s =>
      let len := Z.of_nat (String.length s) in
      let '(start, end_) := slice_bounds len start end_ in
      if step =? 0 then fail_with MSG_SLICE_STEP_ZERO interp
      else
        do idxs <- slice_string_indices len start end_ step;
        do chars <- mapM (string_get s) idxs;
        Some (value_string (string_of_chars chars), interp)
  | _ => fail_with MSG_SLICE_TYPE interp
  end.

Definition slice_length (obj : Value) : Z :=
  match obj with
  | VList items => Z.of_nat (List.length items)
  | VString s => Z.of_nat (String.length s)
  | _ => 0
  end.

(** An optional bound: the default stays unless the expression evaluates
    to an integer. *)
Definition eval_bound (node : option ASTNode) (default : Z)
  (interp : Interpreter) : option (Z * Interpreter) :=
  match node with
  | Some n =>
      do (v, interp) <- ev_expr rec n interp;
      Some (match v with VInt z => z | _ => default end, interp)
  | None => Some (default, interp)
  end.

Definition eval_slice (object : ASTNode) (start end_ step : option ASTNode)
  (interp : Interpreter) : option (Value * Interpreter) :=
  do (obj, interp) <- ev_expr rec object interp;
  match obj with
  | VList _ | VString _ =>
      do (start, interp) <- eval_bound start 0 interp;
      do (end_, interp) <- eval_bound end_ (slice_length obj) interp;
      do (step, interp) <- eval_bound step 1 interp;
      slice_value obj start end_ step interp
  | _ => fail_with MSG_SLICE_TYPE interp
  end.

(** *** Comprehensions *)

(** One element of a list comprehension or generator expression: a child
    environment binding the variable, the filter, the element. *)
Definition comprehension_item (expr : ASTNode) (var_name : string)
  (condition : option ASTNode) (item : Value) (copy_item : bool)
  (result : list Value) (interp : Interpreter)
  : option (list Value * Interpreter) :=
  let old_env := current_env interp in
  let '(item_env, interp) := new_env (Some old_env) interp in
  let interp := set_current_env item_env interp in
  do (item, interp) <-
    (if copy_item then copy fuel item interp else Some (item, interp));
  let interp := with_mem (env_define item_env var_name item) interp in
  do (include, interp) <-
    match condition with
    | Some c =>
        do (cond, interp) <- ev_expr rec c interp;
        Some (value_is_truthy cond, interp)
    | None => Some (true, interp)
    end;
  do (result, interp) <-
    (if include then
       do (val, interp) <- ev_expr rec expr interp;
       Some (result ++ [val], interp)
     else Some (result, interp));
  Some (result, set_current_env old_env interp).

Fixpoint comprehension_list (expr : ASTNode) (var_name : string)
  (condition : option ASTNode) (input : list Value) (result : list Value)
  (interp : Interpreter) : option (Value * Interpreter) :=
  match input with
  | [] => Some (VList result, interp)
  | item :: rest =>
      do (result, interp) <-
        comprehension_item expr var_name condition item true result interp;
      comprehension_list expr var_name condition rest result interp
  end.

(** One round of a generator expression over a generator. *)
Definition gen_expr_gen (expr : ASTNode) (var_name : string)
  (condition : option ASTNode) (gen : Generator) (result : list Value)
  (interp : Interpreter) : option (Value * Interpreter) :=
  do (next_val, gen, interp) <- ev_gen_next rec gen interp;
  if bool_decide (value_type next_val = VAL_NULL)
     && bool_decide (gen_status gen = GEN_DONE)
  then Some (VList result, interp)
  else
    do (result, interp) <-
      comprehension_item expr var_name condition next_val false result
        interp;
    ev_gen_expr_gen rec expr var_name condition gen result interp.

(** List literal elements. *)
Fixpoint eval_elements (elements : list ASTNode) (out : list Value)
  (interp : Interpreter) : option (list Value * Interpreter) :=
  match elements with
  | [] => Some (out, interp)
  | AST_SPREAD e :: rest =>
      do (spread_val, interp) <- ev_expr rec e interp;
      match spread_val with
      | VList items =>
          do (copies, interp) <- copy_all items interp;
          eval_elements rest (out ++ copies) interp
      | _ => eval_elements rest out interp
      end
  | elem :: rest =>
      do (v, interp) <- ev_expr rec elem interp;
      eval_elements rest (out ++ [v]) interp
  end.

(** *** [eval_expr] *)
Definition eval_expr (node : ASTNode) (interp : Interpreter)
  : option (Value * Interpreter) :=
  match node with
  | AST_INTEGER n => Some (value_int n, interp)
  | AST_FLOAT f => Some (value_float f, interp)
  | AST_STRING s => Some (value_string s, interp)
  | AST_BOOL b => Some (value_bool b, interp)
  | AST_IDENTIFIER name =>
      do (val, found, interp) <- lookup fuel (current_env interp) name interp;
      if negb found then
        fail_with
          (msg256
             ["'"; name;
              "' is unknown. Perhaps you intended to designate it first."])
          interp
      else Some (val, interp)
  | AST_BINARY_OP op lhs rhs => eval_binary op lhs rhs interp
  | AST_UNARY_OP op operand =>
      do (operand, interp) <- ev_expr rec operand interp;
      match op, operand with
      | OP_NEG, VInt z => Some (value_int (wrap64 (- z)), interp)
      | OP_NEG, VFloat f => Some (value_float (Double.opp f), interp)
      | OP_NEG, _ => Some (value_null, interp)
      | OP_NOT, v => Some (value_bool (negb (value_is_truthy v)), interp)
      end
  | AST_CALL name args => eval_call name args interp
  | AST_LIST elements =>
      do (items, interp) <- eval_elements elements [] interp;
      Some (VList items, interp)
  | AST_LIST_COMP expr iterable var_name condition =>
      do (iterable, interp) <- ev_expr rec iterable interp;
      match iterable with
      | VList input =>
          comprehension_list expr var_name condition input [] interp
      | _ => fail_with "Iteration target must be a list." interp
      end
  | AST_GEN_EXPR expr iterable var_name condition =>
      do (iterable, interp) <- ev_expr rec iterable interp;
      match iterable with
      | VList input =>
          comprehension_list expr var_name condition input [] interp
      | VGenerator gen =>
          gen_expr_gen expr var_name condition gen [] interp
      | _ => fail_with "Generator expression requires an iterable." interp
      end
  | AST_INDEX object index =>
      do (obj, interp) <- ev_expr rec object interp;
      do (idx, interp) <- ev_expr rec index interp;
      match obj, idx with
      | VList _, VInt i => lift_mem (value_list_get fuel obj i) interp
      | _, _ => Some (value_null, interp)
      end
  | AST_MEMBER object member =>
      do (obj, interp) <- ev_expr rec object interp;
      eval_member obj member interp
  | AST_METHOD_CALL object method_name args =>
      do (obj, interp) <- ev_expr rec object interp;
      match obj with
      | VInstance inst =>
          do (method, found, interp) <-
            lookup fuel (class_methods (inst_class_def inst)) method_name
              interp;
          match found, method with
          | true, VFunction f =>
              do (argv, interp) <- eval_arguments args interp;
              ev_call rec f obj argv interp
          | _, _ =>
              fail_with (msg256 ["Method '"; method_name; "' not found."])
                interp
          end
      | _ =>
          fail_with "Method calls only supported on class instances." interp
      end
  | AST_ASCEND name args =>
      do (self, found_self, interp) <-
        lookup fuel (current_env interp) "self" interp;
      match found_self, self with
      | true, VInstance inst =>
          match class_parent (inst_class_def inst) with
          | None =>
              fail_with "This entity does not ascend to any parent." interp
          | Some parent_cls =>
              do (method, found_method, interp) <-
                lookup fuel (class_methods parent_cls) name interp;
              match found_method, method with
              | true, VFunction f =>
                  do (argv, interp) <- eval_arguments args interp;
                  ev_call rec f self argv interp
              | _, _ =>
                  fail_with
                    (msg256 ["Parent protocol '"; name; "' not found."])
                    interp
              end
          end
      | _, _ =>
          fail_with "'ascend' can only be used inside an instance protocol."
            interp
      end
  | AST_TERNARY condition true_value false_value =>
      do (cond, interp) <- ev_expr rec condition interp;
      if value_is_truthy cond then ev_expr rec true_value interp
      else ev_expr rec false_value interp
  | AST_LAMBDA _ _ =>
      let '(a, interp) := new_addr interp in
      Some (VFunction (mkFunction a None node (current_env interp) true false),
            interp)
  | AST_AWAIT expr =>
      do (awaited, interp) <- ev_expr rec expr interp;
      match awaited with
      | VPromise _ => None (* the state of a promise is not modelled *)
      | VGenerator gen =>
          do (result, _, interp) <- ev_gen_next rec gen interp;
          Some (result, interp)
      | _ => Some (awaited, interp)
      end
  | AST_SLICE object start end_ step => eval_slice object start end_ step interp
  | AST_MANIFEST class_name args =>
      do (class_val, found, interp) <-
        lookup fuel (global_env interp) class_name interp;
      match found, class_val with
      | true, VClass cls =>
          let '(a, interp) := new_addr interp in
          let '(fields, interp) := new_env None interp in
          let instance := mkInstance a cls fields in
          do (construct, found, interp) <-
            lookup fuel (class_methods cls) "construct" interp;
          match found, construct with
          | true, VFunction f =>
              do (argv, interp) <- eval_arguments args interp;
              do (_, interp) <- ev_call rec f (VInstance instance) argv interp;
              Some (VInstance instance, interp)
          | _, _ => Some (VInstance instance, interp)
          end
      | _, _ =>
          fail_with (msg256 ["Entity '"; class_name; "' is not defined"])
            interp
      end
  | AST_SELF =>
      do (self, found, interp) <- lookup fuel (current_env interp) "self" interp;
      if negb found
      then fail_with "'self' can only be used inside a method" interp
      else copy fuel self interp
  | _ => Some (value_null, interp)
  end.

(** *** [assign_to_target] *)

Fixpoint destructure (elements : list ASTNode) (items : list Value)
  (i : nat) (is_designate : bool) (interp : Interpreter)
  : option Interpreter :=
  match elements with
  | [] => Some interp
  | target :: rest =>
      let val := default value_null (items !! i) in
      do interp <- ev_assign rec target val is_designate interp;
      destructure rest items (S i) is_designate interp
  end.

Definition assign_to_target (target : ASTNode) (val : Value)
  (is_designate : bool) (interp : Interpreter) : option Interpreter :=
  match target with
  | AST_IDENTIFIER name =>
      do (val', interp) <- copy fuel val interp;
      if is_designate
      then Some (with_mem (env_define (current_env interp) name val') interp)
      else Some (with_mem (env_set (current_env interp) name val') interp)
  | AST_LIST elements =>
      match val with
      | VList items => destructure elements items 0 is_designate interp
      | _ =>
          Some (runtime_error "Unable to destructure non-list value." interp)
      end
  | AST_MEMBER object member =>
      do (obj, interp) <- ev_expr rec object interp;
      match obj with
      | VInstance inst =>
          do (denied, interp) <- private_denied member inst interp;
          if denied
          then Some (runtime_error MSG_PRIVATE_MODIFICATION interp)
          else
            do (_, found, interp) <-
              lookup fuel (inst_fields inst) member interp;
            do (val', interp) <- copy fuel val interp;
            if found
            then Some (with_mem (env_set (inst_fields inst) member val')
                         interp)
            else Some (with_mem (env_define (inst_fields inst) member val')
                         interp)
      | _ => Some (runtime_error "Only instances have properties." interp)
      end
  | AST_INDEX object index =>
      do (obj, interp) <- ev_expr rec object interp;
      do (idx, interp) <- ev_expr rec index interp;
      match obj, idx with
      | VList items, VInt i =>
          if (0 <=? i) && (i <? Z.of_nat (List.length items)) then
            (* the element of the evaluated copy is overwritten, and the
               copy is then freed *)
            do (_, interp) <- copy fuel val interp;
            Some interp
          else Some (runtime_error "List index out of bounds." interp)
      | _, _ => Some (runtime_error "Invalid index access." interp)
      end
  | _ => Some (runtime_error "Invalid assignment target." interp)
  end.

(** *** [exec_block] *)

Definition control_signal (interp : Interpreter) : bool :=
  has_return interp || has_error interp || has_break interp
  || has_continue interp.

(** The statement loop of [exec_block], at statement [i]. *)
Fixpoint exec_block_loop (addr : nat) (nodes : list ASTNode) (i : nat)
  (interp : Interpreter) : option Interpreter :=
  match nodes with
  | [] => Some interp
  | node :: rest =>
      let old_stack_count := stack_count interp in
      do (_, interp) <- ev_stmt rec node interp;
      if control_signal interp then
        if suspending interp then
          let child_suspended :=
            (old_stack_count <? stack_count interp)%nat in
          let f := frame_with_index (if child_suspended then i else S i)
                     (new_frame GEN_FRAME_BLOCK addr) in
          Some (push_frame f interp)
        else Some interp
      else exec_block_loop addr rest (S i) interp
  end.

Definition exec_block (stmts : ASTNodeArray) (interp : Interpreter)
  : option Interpreter :=
  do (frame, interp) <-
    take_resume_frame GEN_FRAME_BLOCK (array_addr stmts) interp;
  let start_idx := match frame with
                   | Some f => frame_index f
                   | None => 0%nat
                   end in
  exec_block_loop (array_addr stmts) (drop start_idx (array_nodes stmts))
    start_idx interp.

(** *** Loops *)

(** What every loop does after its body when the body returned or failed:
    record the frame if a generator is suspending. *)
Definition suspend_with (f : GenFrame) (interp : Interpreter) : Interpreter :=
  if suspending interp then push_frame f interp else interp.

(** One round of [AST_CYCLE_WHILE]. *)
Definition cycle_while (addr : nat) (condition : ASTNode)
  (body : ASTNodeArray) (interp : Interpreter) : option Interpreter :=
  do (frame, interp) <-
    take_resume_frame GEN_FRAME_CYCLE_WHILE addr interp;
  let resuming_this_iteration := bool_decide (is_Some frame) in
  do (enter, interp) <-
    (if resuming_this_iteration then Some (true, interp)
     else
       do (cond, interp) <- ev_expr rec condition interp;
       Some (value_is_truthy cond, interp));
  if negb enter then Some interp
  else
    do interp <- ev_block rec body interp;
    if has_continue interp then
      ev_cycle_while rec addr condition body (set_has_continue false interp)
    else if has_break interp then Some (set_has_break false interp)
    else if has_return interp || has_error interp then
      Some (suspend_with (new_frame GEN_FRAME_CYCLE_WHILE addr) interp)
    else ev_cycle_while rec addr condition body interp.

(** One round of the [for] loop of [AST_CYCLE_FROM_TO], at counter [i]. *)
Definition cycle_from_to (addr : nat) (var_pattern : ASTNode)
  (body : ASTNodeArray) (i end_val : Z) (interp : Interpreter)
  : option Interpreter :=
  if i <? end_val then
    do interp <- ev_assign rec var_pattern (value_int i) true interp;
    do interp <- ev_block rec body interp;
    if has_continue interp then
      ev_cycle_from_to rec addr var_pattern body (i + 1) end_val
        (set_has_continue false interp)
    else if has_break interp then Some (set_has_break false interp)
    else if has_return interp || has_error interp then
      Some (suspend_with
              (frame_with_range i end_val
                 (new_frame GEN_FRAME_CYCLE_FROM_TO addr)) interp)
    else ev_cycle_from_to rec addr var_pattern body (i + 1) end_val interp
  else Some interp.

(** The list branch of [AST_CYCLE_THROUGH], at element [i].  This loop
    tests only the return and error signals. *)
Fixpoint cycle_list (addr : nat) (var_pattern : ASTNode)
  (body : ASTNodeArray) (iterable : Value) (items : list Value) (i : nat)
  (interp : Interpreter) : option Interpreter :=
  match items with
  | [] => Some interp
  | item :: rest =>
      do interp <- ev_assign rec var_pattern item true interp;
      do interp <- ev_block rec body interp;
      if has_return interp || has_error interp then
        if suspending interp then
          do (saved, interp) <- copy fuel iterable interp;
          Some (push_frame
                  (frame_with_iterable saved
                     (frame_with_index i
                        (new_frame GEN_FRAME_CYCLE_THROUGH addr))) interp)
        else Some interp
      else cycle_list addr var_pattern body iterable rest (S i) interp
  end.

(** One round of the generator branch of [AST_CYCLE_THROUGH]. *)
Definition cycle_gen (addr : nat) (var_pattern : ASTNode)
  (body : ASTNodeArray) (resuming_into_body : bool) (gen : Generator)
  (interp : Interpreter) : option Interpreter :=
  do (enter, gen, interp) <-
    (if resuming_into_body then Some (true, gen, interp)
     else
       do (next_val, gen, interp) <- ev_gen_next rec gen interp;
       if bool_decide (value_type next_val = VAL_NULL)
          && bool_decide (gen_status gen = GEN_DONE)
       then Some (false, gen, interp)
       else
         do interp <- ev_assign rec var_pattern next_val true interp;
         Some (true, gen, interp));
  if negb enter then Some interp
  else
    do interp <- ev_block rec body interp;
    if has_continue interp then
      ev_cycle_gen rec addr var_pattern body false gen
        (set_has_continue false interp)
    else if has_break interp then Some (set_has_break false interp)
    else if has_return interp || has_error interp then
      if suspending interp then
        do (saved, interp) <- copy fuel (VGenerator gen) interp;
        Some (push_frame
                (frame_with_iterable saved
                   (new_frame GEN_FRAME_CYCLE_THROUGH addr)) interp)
      else Some interp
    else ev_cycle_gen rec addr var_pattern body false gen interp.

Definition eval_cycle_through (addr : nat) (iterable var_pattern : ASTNode)
  (body : ASTNodeArray) (interp : Interpreter)
  : option (Value * Interpreter) :=
  do (frame, interp) <-
    take_resume_frame GEN_FRAME_CYCLE_THROUGH addr interp;
  do (iterable, start_idx, initially_resuming_gen, interp) <-
    match frame with
    | Some f =>
        do (it, interp) <- copy fuel (frame_iterable f) interp;
        Some (it, frame_index f,
              bool_decide (value_type (frame_iterable f) = VAL_GENERATOR)
              && (0 <? resume_count interp)%nat, interp)
    | None =>
        do (it, interp) <- ev_expr rec iterable interp;
        Some (it, 0%nat, false, interp)
    end;
  match iterable with
  | VList items =>
      do interp <-
        cycle_list addr var_pattern body iterable (drop start_idx items)
          start_idx interp;
      Some (value_null, interp)
  | VGenerator gen =>
      do interp <-
        cycle_gen addr var_pattern body initially_resuming_gen gen interp;
      Some (value_null, interp)
  | _ => fail_with "Can only cycle through a list or sequence." interp
  end.

Definition eval_cycle_from_to (addr : nat) (start end_ var_pattern : ASTNode)
  (body : ASTNodeArray) (interp : Interpreter)
  : option (Value * Interpreter) :=
  do (frame, interp) <-
    take_resume_frame GEN_FRAME_CYCLE_FROM_TO addr interp;
  do (current_i, end_val, interp) <-
    match frame with
    | Some f => Some (frame_current f, frame_end f, interp)
    | None =>
        do (start, interp) <- ev_expr rec start interp;
        do (end_, interp) <- ev_expr rec end_ interp;
        Some (match start with VInt z => z | _ => 0 end,
              match end_ with VInt z => z | _ => 0 end, interp)
    end;
  do interp <- cycle_from_to addr var_pattern body current_i end_val interp;
  Some (value_null, interp).

(** [AST_DELEGATE] *)
Definition eval_delegate (addr : nat) (iterable : ASTNode)
  (interp : Interpreter) : option (Value * Interpreter) :=
  do (frame, interp) <- take_resume_frame GEN_FRAME_DELEGATE addr interp;
  do (iterable, start_idx, interp) <-
    match frame with
    | Some f =>
        do (it, interp) <- copy fuel (frame_iterable f) interp;
        Some (it, frame_index f, interp)
    | None =>
        do (it, interp) <- ev_expr rec iterable interp;
        Some (it, 0%nat, interp)
    end;
  match iterable with
  | VList items =>
      match items !! start_idx with
      | Some item =>
          do (item', interp) <- copy fuel item interp;
          let interp := set_has_return true (set_return_value item' interp) in
          match current_gen interp with
          | Some _ =>
              do (saved, interp) <- copy fuel iterable interp;
              Some (value_null,
                    push_frame
                      (frame_with_iterable saved
                         (frame_with_index (S start_idx)
                            (new_frame GEN_FRAME_DELEGATE addr))) interp)
          | None => Some (value_null, interp)
          end
      | None => Some (value_null, interp)
      end
  | VGenerator gen =>
      do (next_val, gen, interp) <- ev_gen_next rec gen interp;
      if bool_decide (value_type next_val = VAL_NULL)
         && bool_decide (gen_status gen = GEN_DONE)
      then Some (value_null, interp)
      else
        let interp := set_has_return true (set_return_value next_val interp) in
        match current_gen interp with
        | Some _ =>
            do (saved, interp) <- copy fuel (VGenerator gen) interp;
            Some (value_null,
                  push_frame
                    (frame_with_iterable saved
                       (new_frame GEN_FRAME_DELEGATE addr)) interp)
        | None => Some (value_null, interp)
        end
  | _ => fail_with "Can only delegate to a list or sequence." interp
  end.

(** *** Statements *)

(** The [alternate] branches of [AST_FORESEE]: whether one was taken. *)
Fixpoint foresee_alternates (alts : list (ASTNode * ASTNodeArray))
  (interp : Interpreter) : option (bool * Interpreter) :=
  match alts with
  | [] => Some (false, interp)
  | (condition, body) :: rest =>
      do (alt_cond, interp) <- ev_expr rec condition interp;
      if value_is_truthy alt_cond then
        do interp <- ev_block rec body interp;
        Some (true, interp)
      else foresee_alternates rest interp
  end.

(** The values of one alignment, tested with [value_equals]. *)
Fixpoint alignment_matches (values : list ASTNode) (val : Value)
  (interp : Interpreter) : option (bool * Interpreter) :=
  match values with
  | [] => Some (false, interp)
  | v :: rest =>
      do (case_val, interp) <- ev_expr rec v interp;
      if value_equals val case_val then Some (true, interp)
      else alignment_matches rest val interp
  end.

(** The first loop of [AST_SITUATION]: whether an alignment matched. *)
Fixpoint situation_alignments (alignments : list ASTNode) (val : Value)
  (interp : Interpreter) : option (bool * Interpreter) :=
  match alignments with
  | [] => Some (false, interp)
  | AST_ALIGNMENT is_otherwise values body :: rest =>
      if is_otherwise then situation_alignments rest val interp
      else
        do (matched, interp) <- alignment_matches values val interp;
        if matched then
          do interp <- ev_block rec body interp;
          Some (true, interp)
        else situation_alignments rest val interp
  | _ :: _ => None (* the node is read as an alignment *)
  end.

(** The second loop: the first [otherwise] case. *)
Fixpoint situation_otherwise (alignments : list ASTNode)
  (interp : Interpreter) : option Interpreter :=
  match alignments with
  | [] => Some interp
  | AST_ALIGNMENT is_otherwise _ body :: rest =>
      if is_otherwise then ev_block rec body interp
      else situation_otherwise rest interp
  | _ :: _ => None
  end.

(** The methods of an entity: every [AST_PROTOCOL] member becomes a
    function closed over the method scope.  The struct comes from
    [malloc] and its [is_sequence] field is never written. *)
Fixpoint entity_members (members : list ASTNode) (methods : Environment)
  (interp : Interpreter) : Interpreter :=
  match members with
  | [] => interp
  | AST_PROTOCOL name params body is_sequence is_async as member :: rest =>
      let '(a, interp) := new_addr interp in
      let method :=
        mkFunction a (Some name) member methods false
          (malloc_junk interp a) in
      entity_members rest methods
        (with_mem (env_define methods name (VFunction method)) interp)
  | _ :: rest => entity_members rest methods interp
  end.

(** The [try] loop of [AST_ATTEMPT]: stops at an error or a return. *)
Fixpoint attempt_try (nodes : list ASTNode) (result : Value)
  (interp : Interpreter) : option (Value * Interpreter) :=
  match nodes with
  | [] => Some (result, interp)
  | node :: rest =>
      do (result, interp) <- ev_stmt rec node interp;
      if has_error interp || has_return interp then Some (result, interp)
      else attempt_try rest result interp
  end.

(** The [recover] loop: stops at a return only. *)
Fixpoint attempt_recover (nodes : list ASTNode) (result : Value)
  (interp : Interpreter) : option (Value * Interpreter) :=
  match nodes with
  | [] => Some (result, interp)
  | node :: rest =>
      do (result, interp) <- ev_stmt rec node interp;
      if has_return interp then Some (result, interp)
      else attempt_recover rest result interp
  end.

(** The loop of [AST_PROGRAM]: every top-level statement in turn. *)
Fixpoint program_statements (nodes : list ASTNode) (last : Value)
  (interp : Interpreter) : option (Value * Interpreter) :=
  match nodes with
  | [] => Some (last, interp)
  | node :: rest =>
      do (last, interp) <- ev_stmt rec node interp;
      program_statements rest last interp
  end.

Definition eval_assignment (target value : ASTNode) (is_designate : bool)
  (interp : Interpreter) : option (Value * Interpreter) :=
  do (val, interp) <- eval_expr value interp;
  do interp <- assign_to_target target val is_designate interp;
  Some (value_null, interp).

Definition eval_entity (node : ASTNode) (name : string)
  (parent : option string) (members : list ASTNode) (interp : Interpreter)
  : option (Value * Interpreter) :=
  let '(a, interp) := new_addr interp in
  let '(methods, interp) := new_env (Some (current_env interp)) interp in
  do (parent_cls, methods, interp) <-
    match parent with
    | Some parent_name =>
        do (parent_val, found, interp) <-
          lookup fuel (global_env interp) parent_name interp;
        match found, parent_val with
        | true, VClass pc =>
            let '(inherited, interp) :=
              new_env (Some (class_methods pc)) interp in
            Some (Some pc, inherited, interp)
        | _, _ => Some (None, methods, interp)
        end
    | None => Some (None, methods, interp)
    end;
  let cls := mkClass a name parent_cls methods node in
  let interp := entity_members members methods interp in
  Some (value_null,
        with_mem (env_define (global_env interp) name (VClass cls)) interp).

Definition eval_attempt (try_body : list ASTNode)
  (error_var : option string) (recover_body : list ASTNode)
  (interp : Interpreter) : option (Value * Interpreter) :=
  let old_error := has_error interp in
  let old_error_buf := error_buffer interp in
  let interp := set_has_error false interp in
  do (result, interp) <- attempt_try try_body value_null interp;
  if has_error interp && (0 <? List.length recover_body)%nat then
    let error_msg := error_buffer interp in
    let interp := set_error_buffer "" (set_has_error false interp) in
    let interp :=
      match error_var with
      | Some var =>
          with_mem
            (env_define (current_env interp) var (value_string error_msg))
            interp
      | None => interp
      end in
    attempt_recover recover_body result interp
  else if negb (has_error interp) then
    Some (result, set_error_buffer old_error_buf
                    (set_has_error old_error interp))
  else Some (result, interp).

(** [eval_stmt] *)
Definition eval_stmt (node : ASTNode) (interp : Interpreter)
  : option (Value * Interpreter) :=
  if has_return interp then Some (value_null, interp)
  else
    match node with
    | AST_DESIGNATE target value => eval_assignment target value true interp
    | AST_ASSIGN target value => eval_assignment target value false interp
    | AST_EXPR_STMT expr => eval_expr expr interp
    | AST_FORESEE condition body alternates otherwise =>
        do (cond, interp) <- eval_expr condition interp;
        if value_is_truthy cond then
          do interp <- exec_block body interp;
          Some (value_null, interp)
        else
          do (alt_taken, interp) <- foresee_alternates alternates interp;
          if negb alt_taken
             && (0 <? List.length (array_nodes otherwise))%nat
          then
            do interp <- exec_block otherwise interp;
            Some (value_null, interp)
          else Some (value_null, interp)
    | AST_CYCLE_WHILE addr condition body =>
        do interp <- cycle_while addr condition body interp;
        Some (value_null, interp)
    | AST_CYCLE_THROUGH addr iterable var_pattern body =>
        eval_cycle_through addr iterable var_pattern body interp
    | AST_CYCLE_FROM_TO addr start end_ var_pattern body =>
        eval_cycle_from_to addr start end_ var_pattern body interp
    | AST_PROTOCOL name _ _ is_sequence _ =>
        let '(a, interp) := new_addr interp in
        let func :=
          mkFunction a (Some name) node (current_env interp) false
            is_sequence in
        Some (value_null,
              with_mem (env_define (current_env interp) name (VFunction func))
                interp)
    | AST_YIELD value =>
        do (v, interp) <-
          match value with
          | Some e => eval_expr e interp
          | None => Some (value_null, interp)
          end;
        Some (value_null, set_has_return true (set_return_value v interp))
    | AST_BREAK => Some (value_null, set_has_break true interp)
    | AST_CONTINUE => Some (value_null, set_has_continue true interp)
    | AST_DELEGATE addr iterable => eval_delegate addr iterable interp
    | AST_SCHEME body =>
        do interp <- exec_block body interp;
        Some (value_null, interp)
    | AST_PREVIEW expr =>
        do (_, interp) <- eval_expr expr interp;
        Some (value_null, interp)
    | AST_OVERRIDE name value =>
        do (val, interp) <- eval_expr value interp;
        Some (value_null,
              with_mem (env_force_set (current_env interp) name val) interp)
    | AST_SITUATION value alignments =>
        do (val, interp) <- eval_expr value interp;
        do (matched, interp) <- situation_alignments alignments val interp;
        if matched then Some (value_null, interp)
        else
          do interp <- situation_otherwise alignments interp;
          Some (value_null, interp)
    | AST_ABSOLUTE condition =>
        do (_, interp) <- eval_expr condition interp;
        Some (value_null, interp)
    | AST_ANOMALY body =>
        do interp <- exec_block body (set_anomaly_mode true interp);
        Some (value_null, set_anomaly_mode false interp)
    | AST_ENTITY name parent members =>
        eval_entity node name parent members interp
    | AST_INCORPORATE _ => None (* reads, lexes and parses a file *)
    | AST_ATTEMPT try_body error_var recover_body =>
        eval_attempt try_body error_var recover_body interp
    | AST_PROGRAM statements =>
        program_statements statements value_null interp
    | _ => Some (value_null, interp)
    end.

(** *** Calls and generators *)

(** Parameter binding.  A lambda has no default values. *)
Fixpoint bind_params (with_defaults : bool) (params : list ASTParam)
  (i : nat) (argv : list Value) (interp : Interpreter)
  : option Interpreter :=
  match params with
  | [] => Some interp
  | Param pattern default_value is_rest :: rest =>
      if is_rest then
        do (items, interp) <- copy_all (drop i argv) interp;
        assign_to_target pattern (VList items) true interp
      else
        do interp <-
          match argv !! i, default_value, with_defaults with
          | Some arg, _, _ => assign_to_target pattern arg true interp
          | None, Some d, true =>
              do (def, interp) <- eval_expr d interp;
              assign_to_target pattern def true interp
          | None, _, _ => assign_to_target pattern value_null true interp
          end;
        bind_params with_defaults rest (S i) argv interp
  end.

(** Take the return signal as the result of a call. *)
Definition take_return (interp : Interpreter) : Value * Interpreter :=
  if has_return interp
  then (return_value interp,
        set_has_return false (set_return_value value_null interp))
  else (value_null, interp).

(** [value_generator_new] *)
Definition value_generator_new (func : Function) (env : Environment)
  (self_val : Value) (interp : Interpreter) : option (Value * Interpreter) :=
  let '(func', m) := function_copy func (mem interp) in
  let interp := set_mem m interp in
  do (self', interp) <- copy fuel self_val interp;
  Some (VGenerator
          (mkGenerator func' env self' GEN_SUSPENDED [] value_null false
             value_null false), interp).

(** [interpreter_call] *)
Definition interpreter_call (func : Function) (self_val : Value)
  (argv : list Value) (interp : Interpreter) : option (Value * Interpreter) :=
  let old_env := current_env interp in
  let '(call_env, interp) := new_env (Some (fn_closure func)) interp in
  let interp := set_current_env call_env interp in
  do interp <-
    (if bool_decide (value_type self_val = VAL_NULL) then Some interp
     else
       do (self', interp) <- copy fuel self_val interp;
       Some (with_mem (env_define call_env "self" self') interp));
  if fn_is_lambda func then
    match fn_node func with
    | AST_LAMBDA params body =>
        do interp <- bind_params false params 0 argv interp;
        do (result, interp) <-
          match body with
          | AST_BLOCK statements =>
              do interp <- exec_block statements interp;
              Some (take_return interp)
          | _ => eval_expr body interp
          end;
        Some (result, set_current_env old_env interp)
    | _ => None (* the node of a lambda is a lambda *)
    end
  else
    match fn_node func with
    | AST_PROTOCOL _ params body _ _ =>
        do interp <- bind_params true params 0 argv interp;
        if fn_is_sequence func then
          value_generator_new func call_env self_val
            (set_current_env old_env interp)
        else
          do interp <- exec_block body interp;
          let '(result, interp) := take_return interp in
          Some (result, set_current_env old_env interp)
    | _ => None (* the node of a protocol is a protocol *)
    end.

(** [interpreter_gen_next].  The generator is passed and returned by
    value; its record is the interpreter's [current_gen] while it runs. *)
Definition interpreter_gen_next (gen : Generator) (interp : Interpreter)
  : option (Value * Generator * Interpreter) :=
  if bool_decide (gen_status gen = GEN_DONE) then Some (value_null, gen, interp)
  else
    match fn_node (gen_func gen) with
    | AST_PROTOCOL _ _ body _ _ =>
        do after <- exec_block body (gen_install gen interp);
        do gen <- current_gen after;
        let '(result, gen, after) :=
          if has_return after
          then (return_value after, gen_set_status GEN_SUSPENDED gen,
                set_has_return false (set_return_value value_null after))
          else (value_null, gen_set_status GEN_DONE gen, after) in
        Some (result, gen, gen_restore interp after)
    | _ => None
    end.

Definition step : Evaluator :=
  mkEvaluator eval_expr eval_stmt exec_block assign_to_target
    interpreter_call interpreter_gen_next
    cycle_while cycle_from_to cycle_gen gen_expr_gen.

End Step.
End Step.

(** The evaluator with [fuel] levels of nesting. *)
Fixpoint evaluator (fuel : nat) : Evaluator :=
  match fuel with
  | O => no_fuel
  | S fuel' => Step.step fuel' (evaluator fuel')
  end.

Definition eval_expr (fuel : nat) := ev_expr (evaluator fuel).
Definition eval_stmt (fuel : nat) := ev_stmt (evaluator fuel).
Definition exec_block (fuel : nat) := ev_block (evaluator fuel).
Definition assign_to_target (fuel : nat) := ev_assign (evaluator fuel).
Definition interpreter_call (fuel : nat) := ev_call (evaluator fuel).
Definition interpreter_gen_next (fuel : nat) := ev_gen_next (evaluator fuel).

(** ** The host driver *)

(** The builtins in the order [interpreter_create] registers them: the name
    bound in the global scope and the C function behind it. *)
Definition registered_builtins : list (string * BuiltinFn) :=
  [ ("declare", builtin_declare);
    ("announce", builtin_declare);
    ("inquire", builtin_external "builtin_inquire");
    ("measure", builtin_measure);
    ("span", builtin_external "builtin_span");
    ("text", builtin_external "builtin_text");
    ("number", builtin_external "builtin_number");
    ("decimal", builtin_external "builtin_decimal");
    ("boolean", builtin_boolean);
    ("classify", builtin_classify);
    ("inscribe", builtin_external "builtin_inscribe");
    ("decipher", builtin_external "builtin_decipher");
    ("chronicle", builtin_external "builtin_chronicle");
    ("exists", builtin_external "builtin_exists");
    ("abs", builtin_external "builtin_abs_val");
    ("sqrt", builtin_external "builtin_sqrt_val");
    ("min", builtin_external "builtin_min_val");
    ("max", builtin_external "builtin_max_val");
    ("random", builtin_external "builtin_random_val");
    ("uppercase", builtin_external "builtin_uppercase");
    ("lowercase", builtin_external "builtin_lowercase");
    ("split", builtin_external "builtin_split");
    ("join", builtin_external "builtin_join");
    ("contains", builtin_external "builtin_contains");
    ("push", builtin_push);
    ("reverse", builtin_reverse);
    ("clock", builtin_external "builtin_clock");
    ("terminate", builtin_external "builtin_terminate");
    ("transform", builtin_external "builtin_transform");
    ("select", builtin_external "builtin_select");
    ("fold", builtin_external "builtin_fold");
    ("encode_json", builtin_external "builtin_encode_json");
    ("decode_json", builtin_external "builtin_decode_json");
    ("timestamp", builtin_external "builtin_timestamp");
    ("proceed", builtin_proceed);
    ("transmit", builtin_transmit);
    ("receive", builtin_receive);
    ("disrupt", builtin_disrupt);
    ("sleep", builtin_external "builtin_sleep");
    ("resolve", builtin_external "builtin_resolve");
    ("defer", builtin_external "builtin_defer") ].

Definition register_builtins (global : Environment) (m : Memory) : Memory :=
  fold_left (fun m '(name, fn) => env_define global name (value_builtin fn) m)
    registered_builtins m.

(** [interpreter_create] *)
Definition interpreter_create (junk : nat -> bool) : Interpreter :=
  let '(global, m) := env_create None (mkMemory ∅ 0) in
  let m := register_builtins global m in
  mkInterpreter m junk global global value_null false false false false
    "" "" 0 false false None false [] 0 [].

(** [interpreter_execute] *)
Definition interpreter_execute (fuel : nat) (ast : ASTNode)
  (interp : Interpreter) : option (Value * Interpreter) :=
  eval_stmt fuel ast (set_has_return false (set_has_error false interp)).

(** The exit status computed by [run_source_repl] once the program is
    parsed: [interpreter_has_error(interp) ? 1 : 0]. *)
Definition run_program (fuel : nat) (ast : ASTNode) (interp : Interpreter)
  : option (Z * Interpreter) :=
  do (_, interp) <- interpreter_execute fuel ast interp;
  Some (if interpreter_has_error interp then 1 else 0, interp).

(** [run_file], from the parsed program on. *)
Definition run_file (fuel : nat) (ast : ASTNode) : option (Z * Interpreter) :=
  run_program fuel ast (interpreter_create (fun _ => false)).

(** ** The scenarios of the specification, as syntax trees *)

Module Scenario.

(** [sequence pairs(): cycle from 0 to 2 as i: cycle from 0 to 2 as j:
    yield [i, j]] *)
Definition pairs_inner_body : ASTNodeArray :=
  NodeArray 105
    [AST_YIELD (Some (AST_LIST [AST_IDENTIFIER "i"; AST_IDENTIFIER "j"]))].

Definition pairs_inner_loop : ASTNode :=
  AST_CYCLE_FROM_TO 104 (AST_INTEGER 0) (AST_INTEGER 2) (AST_IDENTIFIER "j")
    pairs_inner_body.

Definition pairs_outer_body : ASTNodeArray := NodeArray 103 [pairs_inner_loop].

Definition pairs_outer_loop : ASTNode :=
  AST_CYCLE_FROM_TO 102 (AST_INTEGER 0) (AST_INTEGER 2) (AST_IDENTIFIER "i")
    pairs_outer_body.

Definition pairs_body : ASTNodeArray := NodeArray 101 [pairs_outer_loop].

Definition pairs_def : ASTNode :=
  AST_PROTOCOL "pairs" [] pairs_body true false.

(** [cycle through pairs() as p: declare(p)] *)
Definition pairs_program : ASTNode :=
  AST_PROGRAM
    [ pairs_def;
      AST_CYCLE_THROUGH 106 (AST_CALL "pairs" []) (AST_IDENTIFIER "p")
        (NodeArray 107
           [AST_EXPR_STMT (AST_CALL "declare" [AST_IDENTIFIER "p"])]) ].

End Scenario.

Module Fibonacci.

(** [sequence fib(): designate a = 0; designate b = 1;
    cycle while true: yield a; designate t = a + b; a = b; b = t] *)
Definition fib_loop_body : ASTNodeArray :=
  NodeArray 203
    [ AST_YIELD (Some (AST_IDENTIFIER "a"));
      AST_DESIGNATE (AST_IDENTIFIER "t")
        (AST_BINARY_OP OP_ADD (AST_IDENTIFIER "a") (AST_IDENTIFIER "b"));
      AST_ASSIGN (AST_IDENTIFIER "a") (AST_IDENTIFIER "b");
      AST_ASSIGN (AST_IDENTIFIER "b") (AST_IDENTIFIER "t") ].

Definition fib_body : ASTNodeArray :=
  NodeArray 201
    [ AST_DESIGNATE (AST_IDENTIFIER "a") (AST_INTEGER 0);
      AST_DESIGNATE (AST_IDENTIFIER "b") (AST_INTEGER 1);
      AST_CYCLE_WHILE 202 (AST_BOOL true) fib_loop_body ].

Definition fib_def : ASTNode := AST_PROTOCOL "fib" [] fib_body true false.

(** [designate g = fib(); designate xs = []] *)
Definition setup : list ASTNode :=
  [ fib_def;
    AST_DESIGNATE (AST_IDENTIFIER "g") (AST_CALL "fib" []);
    AST_DESIGNATE (AST_IDENTIFIER "xs") (AST_LIST []) ].

(** [cycle from 0 to 10 as _: push(xs, proceed(g))] *)
Definition push_loop : ASTNode :=
  AST_CYCLE_FROM_TO 204 (AST_INTEGER 0) (AST_INTEGER 10) (AST_IDENTIFIER "_")
    (NodeArray 205
       [AST_EXPR_STMT
          (AST_CALL "push"
             [AST_IDENTIFIER "xs";
              AST_CALL "proceed" [AST_IDENTIFIER "g"]])]).

(** [declare(xs)] *)
Definition declare_xs : ASTNode :=
  AST_EXPR_STMT (AST_CALL "declare" [AST_IDENTIFIER "xs"]).

Definition program : ASTNode :=
  AST_PROGRAM (setup ++ [push_loop; declare_xs]).

End Fibonacci.

(** ** Definitions used by the properties *)

(** The literal [1.0]. *)
Definition one_point_zero : Double.t := S754_finite false 4503599627370496 (-52).

(** The literal [1.5]. *)
Definition one_point_five : Double.t := S754_finite false 6755399441055744 (-52).

Module Match.

(** [situation 1.0: alignment 1: declare("one"); otherwise:
    declare("other")] *)
Definition situation_float_int : ASTNode :=
  AST_SITUATION (AST_FLOAT one_point_zero)
    [ AST_ALIGNMENT false [AST_INTEGER 1]
        (NodeArray 401
           [AST_EXPR_STMT (AST_CALL "declare" [AST_STRING "one"])]);
      AST_ALIGNMENT true []
        (NodeArray 402
           [AST_EXPR_STMT (AST_CALL "declare" [AST_STRING "other"])]) ].

Definition program : ASTNode := AST_PROGRAM [situation_float_int].

End Match.

(** Advance a generator [n] times, recording for each advance the value
    returned, the status it leaves and the stack it saves. *)
Fixpoint advance (fuel n : nat) (gen : Generator) (interp : Interpreter)
  : option (list (Value * GenStatus * list GenFrame) * Generator * Interpreter) :=
  match n with
  | O => Some ([], gen, interp)
  | S n' =>
      do (v, gen, interp) <- interpreter_gen_next fuel gen interp;
      do (rest, gen', interp') <- advance fuel n' gen interp;
      Some ((v, gen_status gen, gen_stack gen) :: rest, gen', interp')
  end.

Module Pairs.

Import Scenario.

(** The state after [sequence pairs(): ...] and the generator that the
    call [pairs()] returns in it. *)
Definition generator : option (Generator * Interpreter) :=
  do (_, interp) <-
    eval_stmt 3 pairs_def (interpreter_create (fun _ => false));
  do (v, interp) <- eval_expr 3 (AST_CALL "pairs" []) interp;
  match v with
  | VGenerator gen => Some (gen, interp)
  | _ => None
  end.

(** The stack saved when [yield [i, j]] suspends: the block holding the
    yield (about to run statement 1), the inner loop at [j], the block
    holding the inner loop, the outer loop at [i], the body of the
    sequence; the last is the top. *)
Definition frames (i j : Z) : list GenFrame :=
  [ mkGenFrame GEN_FRAME_BLOCK 1 VNull 0 0 (array_addr pairs_inner_body);
    mkGenFrame GEN_FRAME_CYCLE_FROM_TO 0 VNull j 2 104;
    mkGenFrame GEN_FRAME_BLOCK 0 VNull 0 0 (array_addr pairs_outer_body);
    mkGenFrame GEN_FRAME_CYCLE_FROM_TO 0 VNull i 2 102;
    mkGenFrame GEN_FRAME_BLOCK 0 VNull 0 0 (array_addr pairs_body) ].

Definition pair (i j : Z) : Value := VList [VInt i; VInt j].

(** Following the words of the specification: after a suspension the
    frame on top of the saved stack is the one of the innermost suspension
    point, the block that holds the [yield]. *)
Definition innermost_frame_on_top : Prop :=
  forall gen interp v gen1 interp1,
    generator = Some (gen, interp) ->
    interpreter_gen_next 10 gen interp = Some (v, gen1, interp1) ->
    frame_node <$> last (gen_stack gen1) = Some (array_addr pairs_inner_body).

End Pairs.

Module GenWitness.




Definition start : Interpreter := interpreter_create (fun _ => false).





End GenWitness.

Module Scopes.

(** [designate x = 1]; [protocol outer(): protocol inner(): x = 2;
    inner()]; [outer()]; [declare(x)]: the assignment runs two scopes
    below the global one. *)
Definition inner_def : ASTNode :=
  AST_PROTOCOL "inner" []
    (NodeArray 602 [AST_ASSIGN (AST_IDENTIFIER "x") (AST_INTEGER 2)])
    false false.

Definition outer_def : ASTNode :=
  AST_PROTOCOL "outer" []
    (NodeArray 601 [inner_def; AST_EXPR_STMT (AST_CALL "inner" [])])
    false false.

Definition program : ASTNode :=
  AST_PROGRAM
    [ AST_DESIGNATE (AST_IDENTIFIER "x") (AST_INTEGER 1);
      outer_def;
      AST_EXPR_STMT (AST_CALL "outer" []);
      AST_EXPR_STMT (AST_CALL "declare" [AST_IDENTIFIER "x"]) ].

(** A chain of three scopes. *)
Definition chain (cur par root : nat) : Environment :=
  Env cur (Some (Env par (Some (Env root None)))).

(** The memory of the witness: [x = 1] in the root scope 0, nothing in
    scopes 1 and 2. *)
Definition memory : Memory :=
  mkMemory (<[0%nat := [mkEntry "x" (VInt 1) false]]>
              (<[1%nat := []]> (<[2%nat := []]> ∅))) 3.

End Scopes.

Module Override.

(** [designate g = 1]; [protocol f(): designate g = 5; override g = 2;
    yield g]; [declare(f())]; [declare(g)]. *)
Definition f_def : ASTNode :=
  AST_PROTOCOL "f" []
    (NodeArray 701
       [ AST_DESIGNATE (AST_IDENTIFIER "g") (AST_INTEGER 5);
         AST_OVERRIDE "g" (AST_INTEGER 2);
         AST_YIELD (Some (AST_IDENTIFIER "g")) ])
    false false.

Definition program : ASTNode :=
  AST_PROGRAM
    [ AST_DESIGNATE (AST_IDENTIFIER "g") (AST_INTEGER 1);
      f_def;
      AST_EXPR_STMT (AST_CALL "declare" [AST_CALL "f" []]);
      AST_EXPR_STMT (AST_CALL "declare" [AST_IDENTIFIER "g"]) ].

(** Following the words of the specification: after [override g = v],
    [g] evaluated in any scope under the same global scope is [v] (stated
    for integers, which [value_copy] returns unchanged). *)
Definition resolves_in_any_scope : Prop :=
  forall fuel m env scope name z,
    env_global scope = env_global env ->
    env_get fuel scope name (env_force_set env name (VInt z) m)
    = Some (VInt z, true, env_force_set env name (VInt z) m).

(** No scope of the chain below the global one binds [name] (and none of
    them is stored at the address of the global scope). *)
Fixpoint unshadowed (m : Memory) (scope : Environment) (name : string)
  : Prop :=
  match scope with
  | Env a (Some p) =>
      env_find m scope name = None
      /\ a <> env_addr (env_global scope)
      /\ unshadowed m p name
  | Env _ None => True
  end.

(** The memory of the counterexample: [g = 1] globally (scope 0) and
    [g = 5] in the scope 1 below it. *)
Definition memory : Memory :=
  mkMemory (<[0%nat := [mkEntry "g" (VInt 1) false]]>
              (<[1%nat := [mkEntry "g" (VInt 5) false]]> ∅)) 2.

Definition local_scope : Environment := Env 1 (Some (Env 0 None)).

End Override.

Module Errors.

(** [designate x = 1 / 0]; [declare("after")]. *)
Definition division : ASTNode :=
  AST_DESIGNATE (AST_IDENTIFIER "x")
    (AST_BINARY_OP OP_DIV (AST_INTEGER 1) (AST_INTEGER 0)).

Definition declare_after : ASTNode :=
  AST_EXPR_STMT (AST_CALL "declare" [AST_STRING "after"]).

Definition program : ASTNode := AST_PROGRAM [division; declare_after].

(** The same uncaught error, followed by an [attempt] whose body fails and
    is recovered. *)
Definition program_then_attempt : ASTNode :=
  AST_PROGRAM
    [ division;
      AST_ATTEMPT [division] (Some "e")
        [AST_EXPR_STMT (AST_CALL "declare" [AST_STRING "recovered"])] ].

End Errors.

(** Whether the value bound to [self] is the instance [inst] itself. *)
Definition self_is (self_val : Value) (found_self : bool)
  (inst : KeikakuInstance) : bool :=
  found_self
  && match self_val with
     | VInstance s => (inst_addr s =? inst_addr inst)%nat
     | _ => false
     end.

(** "Fails with PrivateAccess": the error flag is raised with that message. *)
Definition private_access_failure (interp : Interpreter) : Prop :=
  has_error interp = true /\ error_buffer interp = MSG_PRIVATE_ACCESS.


Module Private.

(** [entity C: protocol construct(v): self._x = v;
    protocol get(): yield self._x]; [designate c = manifest C(5)];
    [declare(c.get())]; [declare(c._x)]. *)
Definition entity_C : ASTNode :=
  AST_ENTITY "C" None
    [ AST_PROTOCOL "construct" [Param (AST_IDENTIFIER "v") None false]
        (NodeArray 801
           [AST_ASSIGN (AST_MEMBER AST_SELF "_x") (AST_IDENTIFIER "v")])
        false false;
      AST_PROTOCOL "get" []
        (NodeArray 802 [AST_YIELD (Some (AST_MEMBER AST_SELF "_x"))])
        false false ].

Definition program : ASTNode :=
  AST_PROGRAM
    [ entity_C;
      AST_DESIGNATE (AST_IDENTIFIER "c")
        (AST_MANIFEST "C" [AST_INTEGER 5]);
      AST_EXPR_STMT
        (AST_CALL "declare" [AST_METHOD_CALL (AST_IDENTIFIER "c") "get" []]);
      AST_EXPR_STMT
        (AST_CALL "declare" [AST_MEMBER (AST_IDENTIFIER "c") "_x"]) ].

(** Hand-built states for the witness: an instance at address 50 with the
    field [_x = 5], bound to [c] in the global scope 0; [inside] evaluates
    in a call scope that binds [self] to it, [outside] in the global
    scope. *)
Definition cls : KeikakuClass :=
  mkClass 40 "C" None (Env 41 (Some (Env 0 None))) entity_C.

Definition inst : KeikakuInstance := mkInstance 50 cls (Env 51 None).

Definition memory : Memory :=
  mkMemory (<[0%nat := [mkEntry "c" (VInstance inst) false]]>
              (<[41%nat := []]>
                 (<[51%nat := [mkEntry "_x" (VInt 5) false]]>
                    (<[60%nat := [mkEntry "self" (VInstance inst) false]]>
                       ∅)))) 61.

Definition state (current : Environment) : Interpreter :=
  mkInterpreter memory (fun _ => false) (Env 0 None) current value_null
    false false false false "" "" 0 false false None false [] 0 [].

Definition inside : Interpreter :=
  state (Env 60 (Some (Env 41 (Some (Env 0 None))))).

Definition outside : Interpreter := state (Env 0 None).

End Private.

Module Slice.

(** The indices [i0, i0 + step, i0 + 2 step, ...] below [stop], for a
    positive step. *)
Definition count_up (i0 stop step : Z) : nat :=
  Z.to_nat ((stop - i0 + step - 1) / step).

Definition indices_up (i0 stop step : Z) : list Z :=
  map (fun k => i0 + Z.of_nat k * step) (seq 0 (count_up i0 stop step)).

(** The indices [i0, i0 + step, ...] above [stop], for a negative step. *)
Definition count_down (i0 stop step : Z) : nat :=
  Z.to_nat ((i0 - stop - step - 1) / (- step)).

Definition indices_down (i0 stop step : Z) : list Z :=
  map (fun k => i0 + Z.of_nat k * step) (seq 0 (count_down i0 stop step)).

Definition in_range (len i : Z) : bool := (0 <=? i) && (i <? len).

Definition resolve (len i : Z) : Z := if i <? 0 then len + i else i.

Definition clamp (len i : Z) : Z := Z.max 0 (Z.min len i).

(** Following the words of the specification: both bounds are resolved
    and clamped to [0, len]; a positive step runs upward from [start]
    while below [end]; a negative step runs downward from
    [min(start, len) - 1] while above [end]. *)
Definition specified_indices (len start end_ step : Z) : list Z :=
  let start := clamp len (resolve len start) in
  let end_ := clamp len (resolve len end_) in
  if 0 <? step then indices_up start end_ step
  else indices_down (Z.min start len - 1) end_ step.

Definition as_specified : Prop :=
  forall len start end_ step,
    0 <= len -> step <> 0 ->
    let '(s, e) := slice_bounds len start end_ in
    slice_list_indices len s e step
    = Some (specified_indices len start end_ step).

(** [[10, 20, 30, 40, 50]] and a few slices of it. *)
Definition numbers : ASTNode :=
  AST_LIST [AST_INTEGER 10; AST_INTEGER 20; AST_INTEGER 30; AST_INTEGER 40;
            AST_INTEGER 50].

Definition slice_of (object : ASTNode) (start end_ step : option Z)
  : ASTNode :=
  AST_SLICE object (AST_INTEGER <$> start) (AST_INTEGER <$> end_)
    (AST_INTEGER <$> step).

End Slice.

Module IntDiv.

(** A shift record with no digit shifted out yet. *)
Definition exact_record (m : Z) : shr_record := Build_shr_record m false false.

(** [f] is the normal double of sign [s] and of magnitude the integer [P]:
    53 digits of mantissa, and mantissa times two to the exponent is [P]. *)
Definition is_integer_double (s : bool) (P : Z) (f : Double.t) : Prop :=
  exists m e, f = S754_finite s m e /\ Z.pos (digits2_pos m) = 53 /\
              e <= 1 /\ 2 * Z.pos m = P * 2 ^ (1 - e).

(** The second half of [binary_round_aux]: the rounded mantissa is put
    back on 53 digits. *)
Definition renormalize (s : bool) (M e : Z) : Double.t :=
  let '(mrs, e') := shr_fexp 53 1024 M e loc_Exact in
  match shr_m mrs with
  | Z0 => S754_zero s
  | Z.pos m => if e' <=? 1024 - 53 then S754_finite s m e'
               else S754_infinity s
  | Z.neg _ => S754_nan
  end.

(** The integers that every step of the conversion to [double] and back
    keeps: those of magnitude at most two to the 53. *)
Definition exact (z : Z) : Prop := Z.abs z <= 2 ^ 53.

(** [a // b], [a % b] and [a // b * b + a % b] on integer literals. *)
Definition int_div (a b : Z) : ASTNode :=
  AST_BINARY_OP OP_INT_DIV (AST_INTEGER a) (AST_INTEGER b).

Definition modulo (a b : Z) : ASTNode :=
  AST_BINARY_OP OP_MOD (AST_INTEGER a) (AST_INTEGER b).

Definition recomposed (a b : Z) : ASTNode :=
  AST_BINARY_OP OP_ADD
    (AST_BINARY_OP OP_MUL (int_div a b) (AST_INTEGER b))
    (modulo a b).

(** The law of truncated division on the evaluated expressions: [a // b]
    is the quotient truncated toward zero, [a % b] is zero or has the sign
    of [a], and [a // b * b + a % b] is [a]. *)
Definition truncated_division (fuel : nat) (interp : Interpreter) (a b : Z)
  : Prop :=
  eval_expr fuel (int_div a b) interp = Some (value_int (Z.quot a b), interp)
  /\ (exists r, eval_expr fuel (modulo a b) interp = Some (value_int r, interp)
                /\ (r = 0 \/ Z.sgn r = Z.sgn a))
  /\ eval_expr fuel (recomposed a b) interp = Some (value_int a, interp).

(** The law as specified: over the full range of 64-bit integers. *)
Definition as_specified : Prop :=
  forall fuel interp a b,
    in_int64 a = true -> in_int64 b = true -> b <> 0 ->
    truncated_division (S (S (S (S fuel)))) interp a b.

End IntDiv.
(** ** Definitions used by the further properties *)

(** *** Scopes and plain data *)

(** The scopes from [env] up to the global one. *)
Fixpoint scope_chain (env : Environment) : list Environment :=
  match env with
  | Env _ (Some parent) => env :: scope_chain parent
  | Env _ None => [env]
  end.

(** Values that hold no function and no generator, at any depth: the ones
    [value_copy] duplicates without allocating. *)
Fixpoint plain (v : Value) : bool :=
  match v with
  | VFunction _ | VGenerator _ => false
  | VList items => forallb plain items
  | _ => true
  end.

(** Values that hold no generator, no promise and no NaN, at any depth. *)
Definition is_nan (f : Double.t) : bool :=
  match f with S754_nan => true | _ => false end.

Fixpoint self_equal (v : Value) : bool :=
  match v with
  | VGenerator _ | VPromise _ => false
  | VFloat f => negb (is_nan f)
  | VList items => forallb self_equal items
  | _ => true
  end.

(** *** Builtins that [call_builtin] leaves external, as functions of their
    argument vector *)

(** [builtin_span]: the bounds are taken from one, two or three integer
    arguments; any other argument vector leaves [0, 0, 1]. *)
Definition span_bounds (argv : list Value) : Z * Z * Z :=
  match argv with
  | [VInt end_] => (0, end_, 1)
  | [VInt start; VInt end_] => (start, end_, 1)
  | [VInt start; VInt end_; VInt step] => (start, end_, step)
  | _ => (0, 0, 1)
  end.

(** [step > 0 ? i < end : i > end] *)
Definition span_test (i end_ step : Z) : bool :=
  if 0 <? step then i <? end_ else end_ <? i.

(** [for (i = start; step > 0 ? i < end : i > end; i += step)]: [n] bounds
    the number of rounds; [i += step] outside [int64_t] is undefined. *)
Fixpoint span_loop (n : nat) (i end_ step : Z) : option (list Value) :=
  if span_test i end_ step then
    match n with
    | O => None
    | S n' =>
        if in_int64 (i + step)
        then do rest <- span_loop n' (i + step) end_ step;
             Some (value_int i :: rest)
        else None
    end
  else Some [].

Definition builtin_span (fuel : nat) (argv : list Value) : option Value :=
  let '(start, end_, step) := span_bounds argv in
  do items <- span_loop fuel start end_ step;
  Some (VList items).

(** [toupper] and [tolower] in the C locale (the program never sets
    another): the 26 letters of ASCII, every other byte unchanged. *)
Definition toupper (c : ascii) : ascii :=
  let n := nat_of_ascii c in
  if (97 <=? n)%nat && (n <=? 122)%nat then ascii_of_nat (n - 32) else c.

Definition tolower (c : ascii) : ascii :=
  let n := nat_of_ascii c in
  if (65 <=? n)%nat && (n <=? 90)%nat then ascii_of_nat (n + 32) else c.

Fixpoint string_map (f : ascii -> ascii) (s : string) : string :=
  match s with
  | EmptyString => EmptyString
  | String c s' => String (f c) (string_map f s')
  end.

Definition builtin_uppercase (argv : list Value) : Value :=
  match argv with
  | VString s :: _ => value_string (string_map toupper s)
  | _ => value_string ""
  end.

Definition builtin_lowercase (argv : list Value) : Value :=
  match argv with
  | VString s :: _ => value_string (string_map tolower s)
  | _ => value_string ""
  end.

(** [strstr(haystack, needle) != NULL] *)
Fixpoint is_prefix (p s : string) : bool :=
  match p, s with
  | EmptyString, _ => true
  | String a p', String b s' => Ascii.eqb a b && is_prefix p' s'
  | String _ _, EmptyString => false
  end.

Fixpoint strstr (haystack needle : string) : bool :=
  is_prefix needle haystack
  || match haystack with
     | EmptyString => false
     | String _ rest => strstr rest needle
     end.

(** [builtin_contains]: a substring test on two strings; on a list, a
    search that recognises integers and strings only. *)
Definition contains_item (needle item : Value) : bool :=
  match item, needle with
  | VInt x, VInt y => x =? y
  | VString x, VString y => String.eqb x y
  | _, _ => false
  end.

Definition builtin_contains (argv : list Value) : Value :=
  match argv with
  | a0 :: a1 :: _ =>
      match a0, a1 with
      | VString haystack, VString needle => value_bool (strstr haystack needle)
      | VList items, _ => value_bool (existsb (contains_item a1) items)
      | _, _ => value_bool false
      end
  | _ => value_bool false
  end.

(** [strtok] applied until it returns [NULL]: the maximal runs of
    characters that are not in [delim]; [tok] is the run being read. *)
Definition is_delim (delim : string) (c : ascii) : bool :=
  existsb (Ascii.eqb c) (list_ascii_of_string delim).

Fixpoint strtok_all (delim : string) (s : string) (tok : string)
  : list string :=
  match s with
  | EmptyString => if String.eqb tok "" then [] else [tok]
  | String c s' =>
      if is_delim delim c then
        if String.eqb tok "" then strtok_all delim s' ""
        else tok :: strtok_all delim s' ""
      else strtok_all delim s' (tok +:+ String c EmptyString)
  end.

(** What [strtok] returns: a non-empty string without a delimiter. *)
Definition token_of (delim t : string) : Prop :=
  t <> ""
  /\ Forall (fun c => is_delim delim c = false) (list_ascii_of_string t).

Definition builtin_split (argv : list Value) : Value :=
  match argv with
  | VString str :: VString delim :: _ =>
      VList (map value_string (strtok_all delim str ""))
  | _ => value_list_new
  end.

(** [builtin_join].  The buffer has one byte, plus the length of every
    string item and of one delimiter for each, plus 20 bytes an item;
    [strcat] past it is undefined. *)
Definition join_item (v : Value) : option string :=
  match v with
  | VString s => Some s
  | _ => value_to_string v
  end.

Definition join_capacity (items : list Value) (delim : string) : nat :=
  (1 + list_sum
         (map (fun v => match v with
                        | VString s => String.length s + String.length delim
                        | _ => 0
                        end) items)
   + List.length items * 20)%nat.

Definition builtin_join (argv : list Value) : option Value :=
  match argv with
  | VList items :: VString delim :: _ =>
      do parts <- mapM join_item items;
      let result := String.concat delim parts in
      if (String.length result <? join_capacity items delim)%nat
      then Some (value_string result)
      else None
  | _ => Some (value_string "")
  end.

(** [builtin_abs_val]: [-v] of the least integer is undefined. *)
Definition builtin_abs_val (argv : list Value) : option Value :=
  match argv with
  | VInt v :: _ =>
      if v <? 0 then (if v =? INT64_MIN then None else Some (value_int (- v)))
      else Some (value_int v)
  | VFloat v :: _ =>
      Some (value_float (if Double.ltb v Double.zero then Double.opp v else v))
  | _ => Some (value_int 0)
  end.

(** [builtin_min_val] and [builtin_max_val] compare doubles, like the
    operators. *)
Definition min_max (pick_first : Double.t -> Double.t -> bool)
  (argv : list Value) : option Value :=
  match argv with
  | x :: y :: _ =>
      do a <- numeric_operand x;
      do b <- numeric_operand y;
      let r := if pick_first a b then a else b in
      if is_float x || is_float y then Some (value_float r)
      else do z <- Double.to_int64 r; Some (value_int z)
  | _ => Some value_null
  end.

Definition builtin_min_val : list Value -> option Value :=
  min_max Double.ltb.

Definition builtin_max_val : list Value -> option Value :=
  min_max (fun a b => Double.ltb b a).

(** *** Conversions between values and text *)

(** [isspace] in the C locale. *)
Definition isspace (c : ascii) : bool :=
  let n := nat_of_ascii c in
  (n =? 32)%nat || ((9 <=? n)%nat && (n <=? 13)%nat).

Definition digit_value (c : ascii) : option Z :=
  let n := nat_of_ascii c in
  if (48 <=? n)%nat && (n <=? 57)%nat then Some (Z.of_nat (n - 48)) else None.

Fixpoint skip_while (p : ascii -> bool) (s : string) : string :=
  match s with
  | String c rest => if p c then skip_while p rest else s
  | EmptyString => s
  end.

Fixpoint read_digits (s : string) (acc : Z) : Z * string :=
  match s with
  | String c rest =>
      match digit_value c with
      | Some d => read_digits rest (acc * 10 + d)
      | None => (acc, s)
      end
  | EmptyString => (acc, s)
  end.

Definition skip_sign (s : string) : bool * string :=
  match s with
  | String c rest =>
      if Ascii.eqb c "-" then (true, rest)
      else if Ascii.eqb c "+" then (false, rest)
      else (false, s)
  | EmptyString => (false, s)
  end.

(** The decimal integer at the start of [s], after white space and a sign,
    and what follows it; [None] when there is no digit to convert. *)
Definition read_integer (s : string) : option (Z * string) :=
  let '(negative, s) := skip_sign (skip_while isspace s) in
  match s with
  | String c _ =>
      match digit_value c with
      | Some _ =>
          let '(v, rest) := read_digits s 0 in
          Some (if negative then - v else v, rest)
      | None => None
      end
  | EmptyString => None
  end.

(** [strtoll(s, &end, 10)]: the value, clamped to [long long], and [end];
    [None] stands for [end == s]. *)
Definition strtoll (s : string) : option (Z * string) :=
  do (v, rest) <- read_integer s;
  Some (Z.max INT64_MIN (Z.min INT64_MAX v), rest).

(** [atoll]: undefined when the value is not a [long long]. *)
Definition atoll (s : string) : option Z :=
  match read_integer s with
  | Some (v, _) => if in_int64 v then Some v else None
  | None => Some 0
  end.

(** [strtod] converts nothing unless the string, after white space and a
    sign, starts with a digit, a point or the first letter of [inf] or
    [nan].  What it converts otherwise is outside the model. *)
Definition strtod_may_convert (s : string) : bool :=
  match snd (skip_sign (skip_while isspace s)) with
  | String c _ =>
      match digit_value c with
      | Some _ => true
      | None =>
          existsb (Ascii.eqb c) ["."; "i"; "I"; "n"; "N"]%char
      end
  | EmptyString => false
  end.

Definition builtin_text (argv : list Value) : option Value :=
  match argv with
  | [] => Some (value_string "")
  | v :: _ => do str <- value_to_string v; Some (value_string str)
  end.

Definition builtin_number (argv : list Value) : option Value :=
  match argv with
  | VInt z :: _ => Some (VInt z)
  | VFloat f :: _ => do z <- Double.to_int64 f; Some (value_int z)
  | VString s :: _ => do z <- atoll s; Some (value_int z)
  | VBool b :: _ => Some (value_int (if b then 1 else 0))
  | _ => Some (value_int 0)
  end.

(** *** JSON *)

(** [strncat(buf, src, n)] *)
Definition strncat (buf src : string) (n : nat) : string :=
  buf +:+ String.substring 0 n src.

(** [json_encode_value] appends to the text in [buf], a buffer of [size]
    bytes.  A float is formatted by [%g]: [None]. *)
Fixpoint json_encode_value (val : Value) (buf : string) (size : nat)
  : option string :=
  let remaining := (size - String.length buf)%nat in
  match val with
  | VNull => Some (buf +:+ snprintf remaining "null")
  | VInt z => Some (buf +:+ snprintf remaining (pretty z))
  | VFloat _ => None
  | VBool b =>
      Some (buf +:+ snprintf remaining (if b then "true" else "false"))
  | VString s => Some (buf +:+ snprintf remaining (dquote +:+ s +:+ dquote))
  | VList items =>
      (fix go (first : bool) (l : list Value) (buf : string) {struct l}
         : option string :=
         match l with
         | [] => Some (strncat buf "]" (size - String.length buf - 1))
         | x :: l' =>
             let buf :=
               if first then buf
               else strncat buf "," (size - String.length buf - 1) in
             do buf <- json_encode_value x buf size;
             go false l' buf
         end) true items (strncat buf "[" (remaining - 1))
  | _ => Some (buf +:+ snprintf remaining "null")
  end.

Definition builtin_encode_json (argv : list Value) : option Value :=
  match argv with
  | [] => Some value_null
  | v :: _ => do buf <- json_encode_value v "" 4096; Some (value_string buf)
  end.

(** The characters before the first [c] in [s]: [strchr] and the copy. *)
Fixpoint before_char (c : ascii) (s : string) : option string :=
  match s with
  | EmptyString => None
  | String x rest =>
      if Ascii.eqb x c then Some EmptyString
      else option_map (String x) (before_char c rest)
  end.

(** [*end == '\0' || *end == '\n'] *)
Definition at_end (rest : string) : bool :=
  match rest with
  | EmptyString => true
  | String c _ => Ascii.eqb c (ascii_of_nat 10)
  end.

Definition json_blank (c : ascii) : bool :=
  existsb (Ascii.eqb c) [" "%char; ascii_of_nat 9; ascii_of_nat 10].

(** [builtin_decode_json].  [None] where the result depends on what
    [strtod] converts. *)
Definition builtin_decode_json (argv : list Value) : option Value :=
  match argv with
  | VString text :: _ =>
      let s := skip_while json_blank text in
      if String.eqb s "null" then Some value_null
      else if String.eqb s "true" then Some (value_bool true)
      else if String.eqb s "false" then Some (value_bool false)
      else
        match
          match strtoll s with
          | Some (int_val, rest) => if at_end rest then Some int_val else None
          | None => None
          end
        with
        | Some int_val => Some (value_int int_val)
        | None =>
            if strtod_may_convert s then None
            else
              match s with
              | String c rest =>
                  if Ascii.eqb c (ascii_of_nat 34) then
                    match before_char (ascii_of_nat 34) rest with
                    | Some str => Some (value_string str)
                    | None => Some value_null
                    end
                  else Some value_null
              | EmptyString => Some value_null
              end
        end
  | _ => Some value_null
  end.

(** The text of a list of decimal digits, and the number it denotes. *)
Definition digits_string (ds : list Z) : string :=
  fold_right (fun d s => String (pretty_N_char (Z.to_N d)) s) "" ds.

Definition digits_number (ds : list Z) (acc : Z) : Z :=
  fold_left (fun a d => a * 10 + d) ds acc.

(** Encoding a value and decoding the text gives the value back. *)
Definition json_round_trips (v : Value) : Prop :=
  exists text,
    builtin_encode_json [v] = Some (VString text)
    /\ builtin_decode_json [VString text] = Some v.

(** Encoding only appends to the buffer. *)
Definition appends (size : nat) (v : Value) : Prop :=
  forall buf out,
    json_encode_value v buf size = Some out -> exists r, out = buf +:+ r.

(** A generator of [sequence count(): yield 1; yield 2] before its first
    advance, installed as the running generator: the state in which the
    body of the sequence starts. *)
Module Suspension.

Definition body : ASTNodeArray :=
  NodeArray 901 [AST_YIELD (Some (AST_INTEGER 1));
                 AST_YIELD (Some (AST_INTEGER 2))].

Definition generator : Generator :=
  mkGenerator
    (mkFunction 5 (Some "count") (AST_PROTOCOL "count" [] body true false)
       (Env 0 None) false true)
    (Env 2 (Some (Env 0 None))) VNull GEN_SUSPENDED [] VNull false VNull false.

Definition running : Interpreter :=
  gen_install generator (interpreter_create (fun _ => false)).

End Suspension.
(** * Properties *)

(** ** Unfolding the evaluator *)

Lemma eval_expr_S fuel node interp :
  eval_expr (S fuel) node interp = Step.eval_expr fuel (evaluator fuel) node interp.
Proof. reflexivity. Qed.

Lemma eval_stmt_S fuel node interp :
  eval_stmt (S fuel) node interp = Step.eval_stmt fuel (evaluator fuel) node interp.
Proof. reflexivity. Qed.

Lemma exec_block_S fuel stmts interp :
  exec_block (S fuel) stmts interp
  = Step.exec_block (evaluator fuel) stmts interp.
Proof. reflexivity. Qed.


(** ** Advancing a generator (C3) *)



(** ** Nested loops in a generator (C1) *)


(** C1, amended.  Iterating [pairs()] yields [[0, 0]], [[0, 1]], [[1, 0]],
    [[1, 1]] in that order and then reports done, and the program
    [cycle through pairs() as p: declare(p)] prints those four lists.  At
    each suspension the frames are pushed from the innermost construct
    outward, so the top of the saved stack is the frame of the body of the
    sequence: on resumption [exec_block] of the body consumes it first,
    while the frame of the block holding the [yield] lies at the bottom and
    is not the one matched first. *)
Theorem pairs_yields_in_order :
  exists gen interp gen' interp',
    Pairs.generator = Some (gen, interp)
    /\ advance 10 5 gen interp
       = Some ([ (Pairs.pair 0 0, GEN_SUSPENDED, Pairs.frames 0 0);
                 (Pairs.pair 0 1, GEN_SUSPENDED, Pairs.frames 0 1);
                 (Pairs.pair 1 0, GEN_SUSPENDED, Pairs.frames 1 0);
                 (Pairs.pair 1 1, GEN_SUSPENDED, Pairs.frames 1 1);
                 (VNull, GEN_DONE, []) ], gen', interp')
    /\ (forall i j,
           last (Pairs.frames i j)
           = Some (mkGenFrame GEN_FRAME_BLOCK 0 VNull 0 0
                     (array_addr Scenario.pairs_body)))
    /\ (forall i j st,
           is_resuming st = true ->
           resume_stack st = Pairs.frames i j ->
           resume_count st = List.length (Pairs.frames i j) ->
           (exists st',
               take_resume_frame GEN_FRAME_BLOCK
                 (array_addr Scenario.pairs_body) st
               = Some (last (Pairs.frames i j), st')
               /\ resume_count st' = 4%nat)
           /\ take_resume_frame GEN_FRAME_BLOCK
                (array_addr Scenario.pairs_inner_body) st
              = Some (None, st))
    /\ (exists final,
           run_file 20 Scenario.pairs_program = Some (0, final)
           /\ stdout final
              = [ [Pairs.pair 0 0]; [Pairs.pair 0 1];
                  [Pairs.pair 1 0]; [Pairs.pair 1 1] ]).
Proof.
  do 4 eexists.
  split; [vm_compute; reflexivity|].
  split; [vm_compute; reflexivity|].
  split; [intros i j; reflexivity|].
  split.
  - intros i j st Hres Hstack Hcount.
    unfold take_resume_frame. rewrite Hres, Hcount, Hstack. simpl.
    split; [eexists; split; reflexivity | reflexivity].
  - eexists. split; [vm_compute; reflexivity | reflexivity].
Qed.

Lemma pairs_yields_in_order_witness :
  exists st',
    take_resume_frame GEN_FRAME_BLOCK (array_addr Scenario.pairs_body)
      (set_resume_count 5
         (set_resume_stack (Pairs.frames 0 0)
            (set_is_resuming true (interpreter_create (fun _ => false)))))
    = Some (last (Pairs.frames 0 0), st')
    /\ resume_count st' = 4%nat.
Proof.
  destruct pairs_yields_in_order as (? & ? & ? & ? & _ & _ & _ & H & _).
  apply (H 0 0
           (set_resume_count 5
              (set_resume_stack (Pairs.frames 0 0)
                 (set_is_resuming true (interpreter_create (fun _ => false))))));
    reflexivity.
Defined.

(** C1 as the specification words it fails: after the first advance of
    [pairs()] the frame on top of the saved stack is the frame of the body of
    the sequence, not the frame of the block holding the [yield]. *)
Lemma pairs_innermost_frame_not_on_top : ~ Pairs.innermost_frame_on_top.
Proof.
  intros H.
  assert (exists gen interp v gen1 interp1,
             Pairs.generator = Some (gen, interp)
             /\ interpreter_gen_next 10 gen interp = Some (v, gen1, interp1)
             /\ frame_node <$> last (gen_stack gen1)
                = Some (array_addr Scenario.pairs_body))
    as (gen & interp & v & gen1 & interp1 & Hg & Hn & Htop).
  { do 5 eexists. split; [vm_compute; reflexivity|].
    split; [vm_compute; reflexivity|]. reflexivity. }
  rewrite (H gen interp v gen1 interp1 Hg Hn) in Htop. discriminate Htop.
Qed.


(** ** The Fibonacci scenario (C2) *)

(** The code on the scenario of C2: the program ends normally and the list
    it prints for [xs] is empty.  Every [proceed(g)] advances a copy of the
    generator bound to [g] (the copy [env_get] returns), so each call yields
    [0]; every [push(xs, v)] appends to a copy of the list bound to [xs] and
    returns [[v]]. *)
Theorem fibonacci_scenario_leaves_xs_empty :
  (exists final,
      run_file 20 Fibonacci.program = Some (0, final)
      /\ stdout final = [[VList []]])
  /\ (exists final,
         run_file 20
           (AST_PROGRAM
              (Fibonacci.setup
               ++ [ AST_EXPR_STMT
                      (AST_CALL "declare"
                         [AST_CALL "proceed" [AST_IDENTIFIER "g"]]);
                    AST_EXPR_STMT
                      (AST_CALL "declare"
                         [AST_CALL "proceed" [AST_IDENTIFIER "g"]]);
                    AST_EXPR_STMT
                      (AST_CALL "declare"
                         [AST_CALL "push"
                            [AST_IDENTIFIER "xs"; AST_INTEGER 7]]);
                    Fibonacci.declare_xs ]))
         = Some (0, final)
         /\ stdout final
            = [[VInt 0]; [VInt 0]; [VList [VInt 7]]; [VList []]]).
Proof.
  split; eexists; (split; [vm_compute; reflexivity | reflexivity]).
Qed.

(** ** Uncaught errors at top level (C4) *)

(** The code on the failing input of C4: after the uncaught division by
    zero the next top-level statement still runs ([declare] prints), and the
    exit status is 1 only because the error flag is still raised at the end;
    a later [attempt] that recovers an error of its own lowers the flag and
    the exit status is 0. *)
Theorem program_continues_after_error :
  (exists final,
      run_file 10 Errors.program = Some (1, final)
      /\ stdout final = [[VString "after"]]
      /\ error_buffer final = MSG_DIVISION_BY_ZERO)
  /\ (exists final,
         run_file 10 Errors.program_then_attempt = Some (0, final)
         /\ stdout final = [[VString "recovered"]]).
Proof.
  split; eexists; (split; [vm_compute; reflexivity | repeat split]).
Qed.

(** ** Assignment and the scope chain (C5) *)

Lemma env_entries_set_entries_ne m env env' es :
  env_addr env <> env_addr env' ->
  env_entries (set_entries env es m) env' = env_entries m env'.
Proof.
  intros Hne. unfold env_entries, set_entries. simpl.
  rewrite lookup_insert_ne by exact Hne. reflexivity.
Qed.

Lemma env_entries_set_entries_eq m env env' es :
  env_addr env = env_addr env' ->
  env_entries (set_entries env es m) env' = es.
Proof.
  intros Heq. unfold env_entries, set_entries. simpl.
  rewrite Heq, lookup_insert_eq. reflexivity.
Qed.

(** The code on the failing input of C5: with the name bound only two
    scopes up, [env_set] looks at the current scope and at its parent, finds
    nothing, and defines a new binding in the current scope; the binding of
    the grandparent keeps its value.  In the program of [Scopes], the
    assignment [x = 2] inside [inner] leaves the global [x] at 1. *)
Theorem env_set_skips_grandparent (m : Memory) (cur par root : nat)
  (name : string) (v : Value) (e : EnvEntry) :
  cur <> root ->
  env_find m (Scopes.chain cur par root) name = None ->
  env_find m (Env par (Some (Env root None))) name = None ->
  env_find m (Env root None) name = Some e ->
  env_set (Scopes.chain cur par root) name v m
  = env_define (Scopes.chain cur par root) name v m
  /\ env_find (env_set (Scopes.chain cur par root) name v m)
       (Env root None) name = Some e
  /\ exists final,
      run_file 10 Scopes.program = Some (0, final)
      /\ stdout final = [[VInt 1]].
Proof.
  intros Hne Hcur Hpar Hroot.
  assert (Hset : env_set (Scopes.chain cur par root) name v m
                 = env_define (Scopes.chain cur par root) name v m).
  { unfold env_set. rewrite Hcur. simpl. rewrite Hpar. reflexivity. }
  split; [exact Hset|]. split.
  - rewrite Hset. unfold env_find, env_define in *.
    rewrite env_entries_set_entries_ne by exact Hne. exact Hroot.
  - eexists. split; [vm_compute; reflexivity | reflexivity].
Qed.

Lemma env_set_skips_grandparent_witness :
  env_set (Scopes.chain 2 1 0) "x" (VInt 2) Scopes.memory
  = env_define (Scopes.chain 2 1 0) "x" (VInt 2) Scopes.memory
  /\ env_find (env_set (Scopes.chain 2 1 0) "x" (VInt 2) Scopes.memory)
       (Env 0 None) "x" = Some (mkEntry "x" (VInt 1) false).
Proof.
  destruct (env_set_skips_grandparent Scopes.memory 2 1 0 "x" (VInt 2)
              (mkEntry "x" (VInt 1) false)) as (H1 & H2 & _).
  - discriminate.
  - reflexivity.
  - reflexivity.
  - reflexivity.
  - split; [exact H1 | exact H2].
Defined.

(** ** Override and lookup (C8) *)

Lemma entries_find_update es name f e :
  (forall x, entry_name (f x) = entry_name x) ->
  entries_find es name = Some e ->
  entries_find (entries_update es name f) name = Some (f e).
Proof.
  intros Hname. induction es as [|x es IH]; simpl; [discriminate|].
  destruct (String.eqb (entry_name x) name) eqn:Hx.
  - intros [= <-]. simpl. rewrite Hname, Hx. reflexivity.
  - intros Hfind. simpl. rewrite Hx. apply IH. exact Hfind.
Qed.

(** After [env_force_set], the global scope binds the name to the value. *)
Lemma env_find_force_set m env name v :
  exists e,
    env_find (env_force_set env name v m) (env_global env) name = Some e
    /\ entry_value e = v.
Proof.
  unfold env_force_set.
  destruct (env_find m (env_global env) name) as [e|] eqn:Hfind.
  - exists (entry_force v e). split; [|reflexivity].
    unfold env_find, env_update.
    rewrite env_entries_set_entries_eq by reflexivity.
    apply entries_find_update; [reflexivity | exact Hfind].
  - exists (mkEntry name v false). split; [|reflexivity].
    unfold env_find, env_define.
    rewrite env_entries_set_entries_eq by reflexivity.
    simpl. rewrite String.eqb_refl. reflexivity.
Qed.

(** [env_force_set] touches the entries of the global scope only. *)
Lemma env_find_force_set_ne m env scope name v n :
  env_addr scope <> env_addr (env_global env) ->
  env_find (env_force_set env name v m) scope n = env_find m scope n.
Proof.
  intros Hne. unfold env_force_set.
  destruct (env_find m (env_global env) name);
    unfold env_find, env_update, env_define;
    rewrite env_entries_set_entries_ne by (intros E; apply Hne; symmetry; exact E);
    reflexivity.
Qed.

(** C8, amended.  After [override g = v] (that is, after [env_force_set]),
    evaluating [g] in a scope under the same global scope yields a copy of
    [v], provided no scope of the chain below the global one binds [g]; for
    an integer the copy is the integer itself.  (A binding of [g] in a
    nearer scope shadows the override.) *)
Theorem override_resolves_unless_shadowed (fuel : nat) (m : Memory)
  (env scope : Environment) (name : string) (v : Value) :
  env_global scope = env_global env ->
  Override.unshadowed m scope name ->
  env_get fuel scope name (env_force_set env name v m)
  = (do (c, m') <- value_copy fuel v (env_force_set env name v m);
     Some (c, true, m'))
  /\ (forall z, v = VInt z ->
      env_get fuel scope name (env_force_set env name v m)
      = Some (VInt z, true, env_force_set env name v m)).
Proof.
  intros Hglobal Hun.
  assert (Hget : env_get fuel scope name (env_force_set env name v m)
                 = (do (c, m') <- value_copy fuel v (env_force_set env name v m);
                    Some (c, true, m'))).
  { revert scope Hglobal Hun. fix IH 1. intros [a [p|]] Hglobal Hun.
    - destruct Hun as (Hfind & Hne & Hp).
      assert (Hgp : env_global p = env_global env) by exact Hglobal.
      change (env_get fuel (Env a (Some p)) name (env_force_set env name v m))
        with (match env_find (env_force_set env name v m) (Env a (Some p)) name with
              | Some entry =>
                  do (v0, m0) <- value_copy fuel (entry_value entry)
                                   (env_force_set env name v m);
                  Some (v0, true, m0)
              | None => env_get fuel p name (env_force_set env name v m)
              end).
      rewrite env_find_force_set_ne, Hfind.
      + apply IH; assumption.
      + simpl. rewrite <- Hglobal. exact Hne.
    - simpl in Hglobal.
      destruct (env_find_force_set m env name v) as (e & He & Hv).
      change (env_get fuel (Env a None) name (env_force_set env name v m))
        with (match env_find (env_force_set env name v m) (Env a None) name with
              | Some entry =>
                  do (v0, m0) <- value_copy fuel (entry_value entry)
                                   (env_force_set env name v m);
                  Some (v0, true, m0)
              | None => Some (value_null, false, env_force_set env name v m)
              end).
      rewrite Hglobal, He, Hv. reflexivity. }
  split; [exact Hget|].
  intros z ->. rewrite Hget. destruct fuel; reflexivity.
Qed.

Lemma override_resolves_unless_shadowed_witness :
  env_get 0 (Env 1 (Some (Env 0 None))) "x"
    (env_force_set (Env 2 (Some (Env 0 None))) "x" (VInt 7) Scopes.memory)
  = Some (VInt 7, true,
          env_force_set (Env 2 (Some (Env 0 None))) "x" (VInt 7) Scopes.memory).
Proof.
  apply (override_resolves_unless_shadowed 0 Scopes.memory
           (Env 2 (Some (Env 0 None))) (Env 1 (Some (Env 0 None))) "x" (VInt 7)).
  - reflexivity.
  - simpl. split; [reflexivity|]. split; [discriminate | exact I].
  - reflexivity.
Defined.

(** C8 as the specification words it fails: with [g = 5] bound in the scope
    where the lookup starts, [override g = 2] changes the global binding and
    the lookup still finds 5.  The program of [Override] shows it: inside
    [f], after the override, [g] is 5; at top level it is 2. *)
Lemma override_shadowed_by_local :
  ~ Override.resolves_in_any_scope
  /\ exists final,
      run_file 10 Override.program = Some (0, final)
      /\ stdout final = [[VInt 5]; [VInt 2]].
Proof.
  split.
  - intros H.
    specialize (H 0%nat Override.memory Override.local_scope
                  Override.local_scope "g" 2 eq_refl).
    apply (f_equal (fun r => match r with
                             | Some (v, _, _) => Some v
                             | None => None
                             end)) in H.
    vm_compute in H. discriminate H.
  - eexists. split; [vm_compute; reflexivity | reflexivity].
Qed.

(** ** Private members (C9) *)

Lemma lookup_only_memory fuel env name interp v found interp' :
  lookup fuel env name interp = Some (v, found, interp') ->
  interp' = set_mem (mem interp') interp.
Proof.
  unfold lookup. destruct (env_get fuel env name (mem interp)) as [[[v0 f0] m]|];
    [|discriminate].
  intros [= <- <- <-]. reflexivity.
Qed.

Lemma copy_only_memory fuel val interp v interp' :
  copy fuel val interp = Some (v, interp') ->
  interp' = set_mem (mem interp') interp.
Proof.
  unfold copy, lift_mem. destruct (value_copy fuel val (mem interp)) as [[v0 m]|];
    [|discriminate].
  simpl. intros [= <- <-]. reflexivity.
Qed.

(** C9.  Let the receiver of [inst._x] evaluate to the instance [inst], with
    no error pending, and let [self] be unbound or bound to an instance in
    the current scope chain.  If [self] is not bound to [inst] itself, the
    access returns void and raises the private-access error.  If it is, and
    [inst] has the field, the access returns a copy of the field's value and
    raises nothing.  In every case the access fails with the private-access
    error exactly when [self] is not [inst]. *)
Theorem private_member_access (fuel : nat) (object : ASTNode)
  (member : string) (inst : KeikakuInstance)
  (start interp interp1 : Interpreter) (self_val : Value) (found_self : bool) :
  is_private member = true ->
  eval_expr fuel object start = Some (VInstance inst, interp) ->
  has_error interp = false ->
  lookup fuel (current_env interp) "self" interp
  = Some (self_val, found_self, interp1) ->
  (found_self = false \/ exists s, self_val = VInstance s) ->
  (self_is self_val found_self inst = false ->
   eval_expr (S fuel) (AST_MEMBER object member) start
   = Some (value_null, runtime_error MSG_PRIVATE_ACCESS interp1))
  /\ (self_is self_val found_self inst = true ->
      forall field interp2 result interp3,
        lookup fuel (inst_fields inst) member interp1
        = Some (field, true, interp2) ->
        copy fuel field interp2 = Some (result, interp3) ->
        eval_expr (S fuel) (AST_MEMBER object member) start
        = Some (result, interp3)
        /\ has_error interp3 = false)
  /\ (forall result final,
         eval_expr (S fuel) (AST_MEMBER object member) start
         = Some (result, final) ->
         (private_access_failure final
          <-> self_is self_val found_self inst = false)).
Proof.
  intros Hpriv Hobj Hok Hself Hdefined.
  assert (Hunfold :
            eval_expr (S fuel) (AST_MEMBER object member) start
            = Step.eval_member fuel (VInstance inst) member interp).
  { rewrite eval_expr_S. simpl.
    change (ev_expr (evaluator fuel)) with (eval_expr fuel).
    rewrite Hobj. reflexivity. }
  assert (Hdenied :
            Step.private_denied fuel member inst interp
            = Some (negb (self_is self_val found_self inst), interp1)).
  { unfold Step.private_denied. rewrite Hpriv, Hself.
    unfold self_is. destruct found_self; simpl; [|reflexivity].
    destruct Hdefined as [Hf | [s ->]]; [discriminate | reflexivity]. }
  pose proof (lookup_only_memory _ _ _ _ _ _ _ Hself) as Hmem1.
  assert (Hok1 : has_error interp1 = false) by (rewrite Hmem1; exact Hok).
  split; [|split].
  - intros Hnot. rewrite Hunfold. unfold Step.eval_member.
    rewrite Hdenied, Hnot. reflexivity.
  - intros His field interp2 result interp3 Hfield Hcopy.
    rewrite Hunfold. unfold Step.eval_member.
    rewrite Hdenied, His. simpl. rewrite Hfield, Hcopy.
    split; [reflexivity|].
    rewrite (copy_only_memory _ _ _ _ _ Hcopy).
    rewrite (lookup_only_memory _ _ _ _ _ _ _ Hfield). exact Hok1.
  - intros result final. rewrite Hunfold. unfold Step.eval_member.
    rewrite Hdenied.
    destruct (self_is self_val found_self inst) eqn:His; simpl.
    + (* allowed: whatever happens next is not the private-access error *)
      intros Hrun. split; [|discriminate].
      intros [Herr Hbuf]. exfalso.
      destruct (lookup fuel (inst_fields inst) member interp1)
        as [[[field found] interp2]|] eqn:Hfield; [|discriminate].
      pose proof (lookup_only_memory _ _ _ _ _ _ _ Hfield) as Hmem2.
      destruct found.
      * pose proof (copy_only_memory _ _ _ _ _ Hrun) as Hmem3.
        rewrite Hmem3, Hmem2 in Herr. simpl in Herr. congruence.
      * destruct (lookup fuel (class_methods (inst_class_def inst)) member
                    interp2) as [[[method found] interp3]|] eqn:Hmeth;
          [|discriminate].
        pose proof (lookup_only_memory _ _ _ _ _ _ _ Hmeth) as Hmem3.
        destruct found.
        -- pose proof (copy_only_memory _ _ _ _ _ Hrun) as Hmem4.
           rewrite Hmem4, Hmem3, Hmem2 in Herr. simpl in Herr. congruence.
        -- unfold fail_with in Hrun. injection Hrun as _ <-.
           revert Hbuf. unfold runtime_error.
           destruct (String.eqb _ _); simpl; discriminate.
    + intros [= _ <-]. split; [reflexivity|].
      intros _. split; unfold runtime_error;
        destruct (String.eqb _ _); reflexivity.
Qed.

Lemma private_member_access_witness :
  eval_expr 2 (AST_MEMBER (AST_IDENTIFIER "c") "_x") Private.inside
  = Some (VInt 5, Private.inside)
  /\ eval_expr 2 (AST_MEMBER (AST_IDENTIFIER "c") "_x") Private.outside
     = Some (value_null, runtime_error MSG_PRIVATE_ACCESS Private.outside).
Proof.
  split.
  - apply (proj1 (proj2
             (private_member_access 1 (AST_IDENTIFIER "c") "_x" Private.inst
                Private.inside Private.inside Private.inside
                (VInstance Private.inst) true
                eq_refl eq_refl eq_refl eq_refl
                (or_intror (ex_intro _ Private.inst eq_refl))))
             eq_refl (VInt 5) Private.inside (VInt 5) Private.inside
             eq_refl eq_refl).
  - apply (proj1
             (private_member_access 1 (AST_IDENTIFIER "c") "_x" Private.inst
                Private.outside Private.outside Private.outside
                value_null false
                eq_refl eq_refl eq_refl eq_refl (or_introl eq_refl))
             eq_refl).
Defined.

(** The private-field scenario of the specification, run with zeroed
    allocations: the method reads the field, the top-level access is
    refused (and [declare] prints the void it got). *)
Example private_field_scenario :
  exists final,
    run_file 10 Private.program = Some (1, final)
    /\ stdout final = [[VInt 5]; [VNull]]
    /\ error_buffer final = MSG_PRIVATE_ACCESS.
Proof.
  eexists. split; [vm_compute; reflexivity | split; reflexivity].
Qed.

(** ** Slices (C7) *)

Lemma seq_shift_map (f : nat -> Z) (n : nat) :
  map f (seq 1 n) = map (fun k => f (S k)) (seq 0 n).
Proof. rewrite <- seq_shift, map_map. reflexivity. Qed.

Lemma count_up_done i0 stop step :
  0 < step -> stop <= i0 -> Slice.count_up i0 stop step = 0%nat.
Proof.
  intros Hstep Hle. unfold Slice.count_up.
  assert ((stop - i0 + step - 1) / step < 1)
    by (apply Z.div_lt_upper_bound; lia).
  lia.
Qed.

Lemma count_up_next i0 stop step :
  0 < step -> i0 < stop ->
  Slice.count_up i0 stop step = S (Slice.count_up (i0 + step) stop step).
Proof.
  intros Hstep Hlt. unfold Slice.count_up.
  replace (stop - i0 + step - 1) with ((stop - (i0 + step) + step - 1) + 1 * step)
    by lia.
  rewrite Z.div_add by lia.
  assert (0 <= (stop - (i0 + step) + step - 1) / step)
    by (apply Z.div_pos; lia).
  lia.
Qed.

Lemma indices_up_next i0 stop step :
  0 < step -> i0 < stop ->
  Slice.indices_up i0 stop step = i0 :: Slice.indices_up (i0 + step) stop step.
Proof.
  intros Hstep Hlt. unfold Slice.indices_up.
  rewrite (count_up_next i0 stop step Hstep Hlt).
  simpl seq. simpl map. f_equal; [lia|].
  rewrite seq_shift_map. apply map_ext. intros k. lia.
Qed.

Lemma slice_up_indices (n : nat) (i0 stop step : Z) :
  0 < step -> 0 <= i0 -> stop - i0 <= Z.of_nat n ->
  stop - 1 + step <= INT64_MAX ->
  slice_up n i0 stop step = Some (Slice.indices_up i0 stop step).
Proof.
  intros Hstep. revert i0. induction n as [|n IH]; intros i0 Hpos Hn Hmax.
  - simpl. destruct (Z.ltb_spec i0 stop); [lia|].
    unfold Slice.indices_up. rewrite count_up_done by lia. reflexivity.
  - simpl. destruct (Z.ltb_spec i0 stop) as [Hlt|Hge].
    + assert (Hin : in_int64 (i0 + step) = true).
      { unfold in_int64, INT64_MIN, INT64_MAX in *.
        apply andb_true_intro. split; apply Z.leb_le; lia. }
      rewrite Hin, IH by lia.
      rewrite (indices_up_next i0 stop step) by lia. reflexivity.
    + unfold Slice.indices_up. rewrite count_up_done by lia. reflexivity.
Qed.

Lemma count_down_done i0 stop step :
  step < 0 -> i0 <= stop -> Slice.count_down i0 stop step = 0%nat.
Proof.
  intros Hstep Hle. unfold Slice.count_down.
  assert ((i0 - stop - step - 1) / (- step) < 1)
    by (apply Z.div_lt_upper_bound; lia).
  lia.
Qed.

Lemma count_down_next i0 stop step :
  step < 0 -> stop < i0 ->
  Slice.count_down i0 stop step = S (Slice.count_down (i0 + step) stop step).
Proof.
  intros Hstep Hlt. unfold Slice.count_down.
  replace (i0 - stop - step - 1)
    with ((i0 + step - stop - step - 1) + 1 * (- step)) by lia.
  rewrite Z.div_add by lia.
  assert (0 <= (i0 + step - stop - step - 1) / (- step))
    by (apply Z.div_pos; lia).
  lia.
Qed.

Lemma indices_down_next i0 stop step :
  step < 0 -> stop < i0 ->
  Slice.indices_down i0 stop step
  = i0 :: Slice.indices_down (i0 + step) stop step.
Proof.
  intros Hstep Hlt. unfold Slice.indices_down.
  rewrite (count_down_next i0 stop step Hstep Hlt).
  simpl seq. simpl map. f_equal; [lia|].
  rewrite seq_shift_map. apply map_ext. intros k. lia.
Qed.

Lemma slice_down_indices (n : nat) (len i0 stop step : Z) :
  step < 0 -> i0 <= INT64_MAX -> i0 - stop <= Z.of_nat n ->
  INT64_MIN <= stop + 1 + step ->
  slice_down n len i0 stop step
  = Some (List.filter (Slice.in_range len)
            (Slice.indices_down i0 stop step)).
Proof.
  intros Hstep. revert i0. induction n as [|n IH]; intros i0 Hmax Hn Hmin.
  - simpl. destruct (Z.ltb_spec stop i0); [lia|].
    unfold Slice.indices_down. rewrite count_down_done by lia. reflexivity.
  - simpl. destruct (Z.ltb_spec stop i0) as [Hlt|Hge].
    + assert (Hin : in_int64 (i0 + step) = true).
      { unfold in_int64, INT64_MIN, INT64_MAX in *.
        apply andb_true_intro. split; apply Z.leb_le; lia. }
      rewrite Hin, IH by lia.
      rewrite (indices_down_next i0 stop step) by lia.
      cbn [List.filter]. change (Slice.in_range len i0) with ((0 <=? i0) && (i0 <? len)).
      destruct ((0 <=? i0) && (i0 <? len)); reflexivity.
    + unfold Slice.indices_down. rewrite count_down_done by lia. reflexivity.
Qed.

Lemma slice_bounds_resolved len start end_ :
  0 <= len ->
  slice_bounds len start end_
  = (Slice.clamp len (Slice.resolve len start),
     Z.min len (Slice.resolve len end_)).
Proof.
  intros Hlen. unfold slice_bounds, Slice.clamp.
  fold (Slice.resolve len start). fold (Slice.resolve len end_).
  generalize (Slice.resolve len start) as s.
  generalize (Slice.resolve len end_) as e.
  intros e s. f_equal.
  - destruct (Z.ltb_spec s 0).
    + destruct (Z.ltb_spec len 0); lia.
    + destruct (Z.ltb_spec len s); lia.
  - destruct (Z.ltb_spec len e); lia.
Qed.

(** C7, amended.  For a list or string of length [len]: a negative start or
    end is resolved by adding [len]; the start is then clamped to
    [0, len], the end only from above (a resolved end below 0 stays below
    0).  A zero step fails with the slice-step error.  With a positive
    step the indices taken are [start, start + step, ...] while below the
    end, for lists and strings alike.  For a list with a negative step they
    are [start - 1, start - 1 + step, ...] while above the end, those below
    0 being skipped.  The result is a new list (of copies of the elements
    at these indices) or a new string (of the characters at them). *)
Theorem slice_semantics (len start end_ step : Z) :
  0 <= len <= INT64_MAX ->
  let s := Slice.clamp len (Slice.resolve len start) in
  let e := Z.min len (Slice.resolve len end_) in
  slice_bounds len start end_ = (s, e)
  /\ 0 <= s <= len /\ e <= len
  /\ (0 < step -> e - 1 + step <= INT64_MAX ->
      slice_list_indices len s e step = Some (Slice.indices_up s e step)
      /\ slice_string_indices len s e step = Some (Slice.indices_up s e step))
  /\ (step < 0 -> INT64_MIN <= e + 1 + step ->
      slice_list_indices len s e step
      = Some (List.filter (Slice.in_range len)
                (Slice.indices_down (s - 1) e step)))
  /\ (forall fuel items interp,
         len = Z.of_nat (List.length items) ->
         Step.slice_value fuel (VList items) start end_ step interp
         = if step =? 0 then fail_with MSG_SLICE_STEP_ZERO interp
           else
             do idxs <- slice_list_indices len s e step;
             do (vals, interp') <- Step.copy_indices fuel items idxs interp;
             Some (VList vals, interp'))
  /\ (forall fuel str interp,
         len = Z.of_nat (String.length str) ->
         Step.slice_value fuel (VString str) start end_ step interp
         = if step =? 0 then fail_with MSG_SLICE_STEP_ZERO interp
           else
             do idxs <- slice_string_indices len s e step;
             do chars <- mapM (string_get str) idxs;
             Some (VString (string_of_chars chars), interp)).
Proof.
  intros [Hlen Hmax] s e.
  assert (Hb : slice_bounds len start end_ = (s, e))
    by (apply slice_bounds_resolved; exact Hlen).
  assert (Hs : 0 <= s <= len) by (unfold s, Slice.clamp; lia).
  assert (He : e <= len) by (unfold e; lia).
  split; [exact Hb|]. split; [exact Hs|]. split; [exact He|].
  split; [|split; [|split]].
  - intros Hstep Hover.
    assert (Hpos : (0 <? step) = true) by (apply Z.ltb_lt; exact Hstep).
    split.
    + unfold slice_list_indices. rewrite Hpos.
      apply slice_up_indices; lia.
    + unfold slice_string_indices. rewrite Hpos.
      replace (Z.min e len) with e by lia.
      apply slice_up_indices; lia.
  - intros Hstep Hunder.
    assert (Hneg : (0 <? step) = false) by (apply Z.ltb_ge; lia).
    unfold slice_list_indices. rewrite Hneg.
    destruct (Z.ltb_spec e s) as [Hlt|Hge].
    + apply slice_down_indices; lia.
    + destruct (Z.to_nat (s - e)); simpl;
        (destruct (Z.ltb_spec e s); [lia|]);
        unfold Slice.indices_down; rewrite count_down_done by lia;
        reflexivity.
  - intros fuel items interp Hitems. unfold Step.slice_value.
    rewrite <- Hitems, Hb. reflexivity.
  - intros fuel str interp Hstr. unfold Step.slice_value.
    rewrite <- Hstr, Hb. reflexivity.
Qed.

Lemma slice_semantics_witness :
  slice_list_indices 5 1 4 2 = Some [1; 3]
  /\ slice_list_indices 3 2 (-2) (-1) = Some [1; 0].
Proof.
  split.
  - apply (proj1 (proj2 (proj2 (proj2
             (slice_semantics 5 1 4 2
                ltac:(split; [lia | vm_compute; discriminate]))))));
      [lia | vm_compute; discriminate].
  - apply (proj1 (proj2 (proj2 (proj2 (proj2
             (slice_semantics 3 2 (-5) (-1)
                ltac:(split; [lia | vm_compute; discriminate])))))));
      [lia | vm_compute; discriminate].
Defined.

(** C7 as the specification words it fails on the end bound: in
    [[10, 20, 30][2:-5:-1]] the end resolves to -2 and is not raised to 0,
    so the downward iteration from index 1 also takes index 0. *)
Lemma slice_end_not_clamped_below :
  ~ Slice.as_specified
  /\ slice_bounds 3 2 (-5) = (2, -2)
  /\ (forall fuel interp,
         eval_expr (S (S (S fuel)))
           (Slice.slice_of
              (AST_LIST [AST_INTEGER 10; AST_INTEGER 20; AST_INTEGER 30])
              (Some 2) (Some (-5)) (Some (-1))) interp
         = Some (VList [VInt 20; VInt 10], interp))
  /\ Slice.specified_indices 3 2 (-5) (-1) = [1].
Proof.
  split; [|split; [|split]].
  - intros H. specialize (H 3 2 (-5) (-1) ltac:(lia) ltac:(lia)).
    vm_compute in H. discriminate H.
  - reflexivity.
  - intros fuel interp. destruct interp. reflexivity.
  - reflexivity.
Qed.

(** Slices of [[10, 20, 30, 40, 50]] and of ["hello"]. *)
Example slice_examples (fuel : nat) (interp : Interpreter) :
  eval_expr (S (S (S fuel)))
    (Slice.slice_of Slice.numbers (Some 1) (Some 4) (Some 2)) interp
  = Some (VList [VInt 20; VInt 40], interp)
  /\ eval_expr (S (S (S fuel)))
       (Slice.slice_of Slice.numbers (Some (-2)) None None) interp
     = Some (VList [VInt 40; VInt 50], interp)
  /\ eval_expr (S (S (S fuel)))
       (Slice.slice_of Slice.numbers (Some 5) (Some (-6)) (Some (-1))) interp
     = Some (VList [VInt 50; VInt 40; VInt 30; VInt 20; VInt 10], interp)
  /\ eval_expr (S (S fuel))
       (Slice.slice_of (AST_STRING "hello") (Some 1) (Some 4) None) interp
     = Some (VString "ell", interp)
  /\ eval_expr (S (S (S fuel)))
       (Slice.slice_of Slice.numbers None None (Some 0)) interp
     = Some (value_null, runtime_error MSG_SLICE_STEP_ZERO interp).
Proof.
  destruct interp. repeat split; reflexivity.
Qed.

(** The string branch has one loop for every step: with a negative step and
    the start not below the end it copies nothing. *)
Example slice_string_negative_step (fuel : nat) (interp : Interpreter) :
  eval_expr (S (S fuel))
    (Slice.slice_of (AST_STRING "abc") (Some 2) (Some 0) (Some (-1))) interp
  = Some (VString "", interp).
Proof. destruct interp. reflexivity. Qed.

(** ** Integer division and modulo through [double] (C6) *)

(** *** Exact shifts and roundings *)

Lemma digits2_pos_bounds (p : positive) :
  2 ^ (Z.pos (digits2_pos p) - 1) <= Z.pos p < 2 ^ Z.pos (digits2_pos p).
Proof.
  induction p as [p IH|p IH|]; cbn [digits2_pos].
  - rewrite Pos2Z.inj_succ, Z.pow_succ_r by lia.
    replace (Z.succ (Z.pos (digits2_pos p)) - 1)
      with (Z.succ (Z.pos (digits2_pos p) - 1)) by lia.
    rewrite Z.pow_succ_r by lia. lia.
  - rewrite Pos2Z.inj_succ, Z.pow_succ_r by lia.
    replace (Z.succ (Z.pos (digits2_pos p)) - 1)
      with (Z.succ (Z.pos (digits2_pos p) - 1)) by lia.
    rewrite Z.pow_succ_r by lia. lia.
  - simpl. lia.
Qed.

(** The number of binary digits is determined by the bounds it gives. *)
Lemma digits2_pos_unique (p : positive) (d : Z) :
  2 ^ (d - 1) <= Z.pos p < 2 ^ d -> Z.pos (digits2_pos p) = d.
Proof.
  intros [Hlo Hhi].
  pose proof (digits2_pos_bounds p) as [Hlo' Hhi'].
  set (d' := Z.pos (digits2_pos p)) in *.
  assert (0 < d).
  { destruct (Z_lt_le_dec 0 d) as [|Hd]; [assumption|].
    destruct (Z.eq_dec d 0) as [->|Hnz]; [simpl in Hhi; lia|].
    rewrite Z.pow_neg_r in Hhi by lia. lia. }
  destruct (Z_lt_le_dec d d') as [Hlt|Hge].
  - assert (2 ^ d <= 2 ^ (d' - 1)) by (apply Z.pow_le_mono_r; lia). lia.
  - destruct (Z_lt_le_dec d' d) as [Hlt'|Hge']; [|lia].
    assert (2 ^ d' <= 2 ^ (d - 1)) by (apply Z.pow_le_mono_r; lia). lia.
Qed.

Lemma iter_xO (m d : positive) :
  Z.pos (Pos.iter xO m d) = Z.pos m * 2 ^ Z.pos d.
Proof.
  revert m. induction d as [|d IH] using Pos.peano_ind; intros m.
  - simpl. lia.
  - rewrite Pos.iter_succ, Pos2Z.inj_succ, Z.pow_succ_r by lia.
    rewrite Pos2Z.inj_xO, IH. lia.
Qed.

(** [iter_pos] of the floating-point specification is iteration. *)
Lemma iter_pos_nat {A} (f : A -> A) (p : positive) (x : A) :
  SpecFloat.iter_pos f p x = Nat.iter (Pos.to_nat p) f x.
Proof.
  revert x. induction p as [p IH|p IH|]; intros x; cbn [SpecFloat.iter_pos].
  - rewrite !IH, Pos2Nat.inj_xI.
    replace (S (2 * Pos.to_nat p)) with (Pos.to_nat p + (Pos.to_nat p + 1))%nat
      by lia.
    rewrite !Nat.iter_add. reflexivity.
  - rewrite !IH, Pos2Nat.inj_xO.
    replace (2 * Pos.to_nat p)%nat with (Pos.to_nat p + Pos.to_nat p)%nat by lia.
    rewrite Nat.iter_add. reflexivity.
  - reflexivity.
Qed.

Lemma shr_1_exact (m : Z) :
  0 <= m -> m mod 2 = 0 -> shr_1 (IntDiv.exact_record m) = IntDiv.exact_record (m / 2).
Proof.
  intros Hpos Heven. unfold IntDiv.exact_record.
  destruct m as [|p|p]; [reflexivity| |lia].
  destruct p as [p|p|].
  - exfalso. rewrite Pos2Z.inj_xI in Heven.
    replace (2 * Z.pos p + 1) with (1 + Z.pos p * 2) in Heven by lia.
    rewrite Z.mod_add in Heven by lia. discriminate.
  - cbn [shr_1 orb]. f_equal.
    rewrite Pos2Z.inj_xO, Z.mul_comm, Z.div_mul by lia. reflexivity.
  - discriminate.
Qed.

Lemma shr_iter_exact (n : nat) (m : Z) :
  0 <= m -> m mod 2 ^ Z.of_nat n = 0 ->
  Nat.iter n shr_1 (IntDiv.exact_record m) = IntDiv.exact_record (m / 2 ^ Z.of_nat n).
Proof.
  revert m. induction n as [|n IH]; intros m Hpos Hdiv.
  - simpl. rewrite Z.div_1_r. reflexivity.
  - rewrite Nat2Z.inj_succ, Z.pow_succ_r in * by lia.
    change (Nat.iter (S n) shr_1 (IntDiv.exact_record m))
      with (shr_1 (Nat.iter n shr_1 (IntDiv.exact_record m))).
    assert (Hdiv' : m mod 2 ^ Z.of_nat n = 0).
    { apply Z.mod_divide; [lia|].
      apply Z.mod_divide in Hdiv; [|lia].
      destruct Hdiv as [k Hk]. exists (k * 2). lia. }
    rewrite IH by assumption.
    assert (H2 : 0 < 2 ^ Z.of_nat n) by (apply Z.pow_pos_nonneg; lia).
    rewrite shr_1_exact.
    + rewrite Z.div_div by lia. f_equal. f_equal. lia.
    + apply Z.div_pos; lia.
    + apply Z.mod_divide in Hdiv; [|lia]. destruct Hdiv as [k Hk].
      subst m. replace (k * (2 * 2 ^ Z.of_nat n)) with (k * 2 * 2 ^ Z.of_nat n) by lia.
      rewrite Z.div_mul by lia. rewrite Z.mul_comm, Z.mul_comm, Z.mod_mul; lia.
Qed.

Lemma fexp_normal (x : Z) :
  -1074 <= x - 53 -> fexp 53 1024 x = x - 53.
Proof. intros H. unfold fexp, emin. lia. Qed.

Lemma shr_by (mrs : shr_record) (e n : Z) :
  shr mrs e n
  = match n with
    | Z.pos p => (Nat.iter (Pos.to_nat p) shr_1 mrs, e + n)
    | _ => (mrs, e)
    end.
Proof.
  destruct n; cbn [shr]; [reflexivity| |reflexivity].
  rewrite iter_pos_nat. reflexivity.
Qed.

(** A mantissa of exactly 53 digits is kept as it is. *)
Lemma binary_round_aux_53 (s : bool) (m : positive) (e : Z) :
  Z.pos (digits2_pos m) = 53 -> -1074 <= e <= 971 ->
  binary_round_aux 53 1024 s (Z.pos m) e loc_Exact = S754_finite s m e.
Proof.
  intros Hd He. unfold binary_round_aux, shr_fexp.
  cbn [Zdigits2 shr_record_of_loc]. rewrite Hd.
  rewrite fexp_normal by lia.
  replace (53 + e - 53 - e) with 0 by lia.
  cbn [shr shr_m loc_of_shr_record round_nearest_even Zdigits2].
  rewrite Hd, fexp_normal by lia.
  replace (53 + e - 53 - e) with 0 by lia.
  cbn [shr shr_m].
  destruct (Z.leb_spec e (1024 - 53)); [reflexivity | lia].
Qed.

(** A longer mantissa whose extra low digits are zero is shifted down to 53
    digits without rounding. *)
Lemma binary_round_aux_exact (s : bool) (m : positive) (e n : Z) :
  n = Z.pos (digits2_pos m) - 53 -> 0 <= n ->
  Z.pos m mod 2 ^ n = 0 -> -1074 <= e + n <= 971 ->
  binary_round_aux 53 1024 s (Z.pos m) e loc_Exact
  = S754_finite s (Z.to_pos (Z.pos m / 2 ^ n)) (e + n).
Proof.
  intros Hn Hpos Hdiv He.
  destruct n as [|p|p]; [| |lia].
  - rewrite Z.pow_0_r, Z.div_1_r, Z.add_0_r in *. simpl Z.to_pos.
    apply binary_round_aux_53; lia.
  - pose proof (digits2_pos_bounds m) as [Hlo Hhi].
    set (d := Z.pos (digits2_pos m)) in *.
    assert (H2 : 0 < 2 ^ Z.pos p) by (apply Z.pow_pos_nonneg; lia).
    apply Z.mod_divide in Hdiv; [|lia]. destruct Hdiv as [k Hk].
    assert (Hquot : Z.pos m / 2 ^ Z.pos p = k) by (rewrite Hk, Z.div_mul; lia).
    assert (Hkb : 2 ^ 52 <= k < 2 ^ 53).
    { replace (d - 1) with (52 + Z.pos p) in Hlo by lia.
      replace d with (53 + Z.pos p) in Hhi by lia.
      rewrite Z.pow_add_r in Hlo, Hhi by lia. nia. }
    destruct k as [|k|k]; [lia| |lia].
    assert (Hdk : Z.pos (digits2_pos k) = 53)
      by (apply digits2_pos_unique; simpl; lia).
    unfold binary_round_aux, shr_fexp.
    cbn [Zdigits2 shr_record_of_loc]. fold d.
    rewrite fexp_normal by lia.
    replace (d + e - 53 - e) with (Z.pos p) by lia.
    rewrite shr_by. fold (IntDiv.exact_record (Z.pos m)).
    rewrite <- (positive_nat_Z p) at 1.
    rewrite shr_iter_exact; [|lia|rewrite positive_nat_Z, Hk; apply Z.mod_mul; lia].
    rewrite positive_nat_Z, Hquot.
    cbn [IntDiv.exact_record shr_m loc_of_shr_record round_nearest_even Zdigits2
           shr_record_of_loc].
    rewrite Hdk, fexp_normal by lia.
    replace (53 + (e + Z.pos p) - 53 - (e + Z.pos p)) with 0 by lia.
    cbn [shr shr_m].
    destruct (Z.leb_spec (e + Z.pos p) (1024 - 53)); [reflexivity | lia].
Qed.

Lemma digits2_pos_log2 (m : positive) :
  Z.pos (digits2_pos m) = Z.log2 (Z.pos m) + 1.
Proof.
  pose proof (Z.log2_spec (Z.pos m) eq_refl) as H.
  pose proof (Z.log2_nonneg (Z.pos m)).
  apply digits2_pos_unique.
  replace (Z.log2 (Z.pos m) + 1 - 1) with (Z.log2 (Z.pos m)) by lia.
  exact H.
Qed.

Lemma scaled_digits (m : positive) (e P : Z) :
  1 <= P -> e <= 1 -> 2 * Z.pos m = P * 2 ^ (1 - e) ->
  Z.pos (digits2_pos m) = Z.log2 P + 1 - e.
Proof.
  intros HP He Hm. rewrite digits2_pos_log2.
  assert (H : Z.log2 (2 * Z.pos m) = Z.log2 (Z.pos m) + 1).
  { replace (2 * Z.pos m) with (Z.pos m * 2 ^ 1) by lia.
    rewrite Z.log2_mul_pow2; lia. }
  rewrite Hm, Z.log2_mul_pow2 in H by lia. lia.
Qed.

Lemma log2_small (P : Z) : 1 <= P <= 2 ^ 53 -> 0 <= Z.log2 P <= 53.
Proof.
  intros [Hlo Hhi]. split; [apply Z.log2_nonneg|].
  apply Z.log2_le_mono in Hhi. rewrite Z.log2_pow2 in Hhi; lia.
Qed.

Lemma log2_53 (P : Z) : 1 <= P <= 2 ^ 53 -> Z.log2 P = 53 -> P = 2 ^ 53.
Proof.
  intros [Hlo Hhi] HL.
  pose proof (Z.log2_spec P ltac:(lia)) as [H _]. rewrite HL in H. lia.
Qed.

Lemma binary_round_aux_integer (s : bool) (m : positive) (e P : Z) :
  1 <= P <= 2 ^ 53 -> e <= 1 -> 2 * Z.pos m = P * 2 ^ (1 - e) ->
  53 <= Z.pos (digits2_pos m) ->
  IntDiv.is_integer_double s P (binary_round_aux 53 1024 s (Z.pos m) e loc_Exact).
Proof.
  intros HP He Hm Hd.
  pose proof (scaled_digits m e P ltac:(lia) He Hm) as Hdig.
  pose proof (log2_small P HP) as HL.
  set (n := Z.pos (digits2_pos m) - 53).
  assert (Hn : 0 <= n <= 1 - e) by lia.
  assert (H2n : 0 < 2 ^ n) by (apply Z.pow_pos_nonneg; lia).
  assert (Hdiv : exists k, Z.pos m = k * 2 ^ n).
  { destruct (Z.eq_dec (Z.log2 P) 53) as [H53|H53].
    - pose proof (log2_53 P HP H53) as ->.
      assert (n = 1 - e) by lia.
      exists (2 ^ 52).
      replace n with (1 - e) by lia.
      change (2 ^ 53) with (2 * 2 ^ 52) in Hm.
      rewrite <- Z.mul_assoc in Hm. lia.
    - assert (n <= - e) by lia.
      exists (P * 2 ^ (- e - n)).
      rewrite <- Z.mul_assoc, <- Z.pow_add_r by lia.
      replace (- e - n + n) with (- e) by lia.
      replace (1 - e) with (1 + - e) in Hm by lia.
      rewrite Z.pow_add_r in Hm by lia. lia. }
  destruct Hdiv as [k Hk].
  assert (Hq : Z.pos m / 2 ^ n = k) by (rewrite Hk, Z.div_mul; lia).
  rewrite (binary_round_aux_exact s m e n); [|reflexivity|lia| |lia].
  2:{ rewrite Hk. apply Z.mod_mul. lia. }
  rewrite Hq. destruct k as [|k|k]; [lia| |lia]. simpl Z.to_pos.
  exists k, (e + n). split; [reflexivity|]. split; [|split; [lia|]].
  - rewrite digits2_pos_log2.
    assert (Z.log2 (Z.pos m) = n + Z.log2 (Z.pos k))
      by (rewrite Hk; apply Z.log2_mul_pow2; lia).
    pose proof (digits2_pos_log2 m). lia.
  - assert (Hsplit : 2 ^ (1 - e) = 2 ^ (1 - (e + n)) * 2 ^ n)
      by (rewrite <- Z.pow_add_r by lia; f_equal; lia).
    apply (Z.mul_cancel_r _ _ (2 ^ n)); [lia|].
    rewrite <- !Z.mul_assoc, <- Hk, <- Hsplit. exact Hm.
Qed.

Lemma binary_round_integer (s : bool) (m : positive) (e P : Z) :
  1 <= P <= 2 ^ 53 -> e <= 1 -> 2 * Z.pos m = P * 2 ^ (1 - e) ->
  IntDiv.is_integer_double s P (binary_round 53 1024 s m e).
Proof.
  intros HP He Hm.
  pose proof (scaled_digits m e P ltac:(lia) He Hm) as Hdig.
  pose proof (log2_small P HP) as HL.
  unfold binary_round. rewrite fexp_normal by lia.
  unfold shl_align.
  destruct (Z.pos (digits2_pos m) + e - 53 - e) as [|d|d] eqn:Hs.
  - apply binary_round_aux_integer; try assumption; lia.
  - apply binary_round_aux_integer; try assumption; lia.
  - assert (Hd : Z.pos d = 53 - Z.pos (digits2_pos m)) by lia.
    assert (Hm' : Z.pos (Pos.iter xO m d) = Z.pos m * 2 ^ Z.pos d)
      by apply iter_xO.
    apply binary_round_aux_integer; try assumption; try lia.
    + rewrite Hm', Z.mul_assoc, Hm, <- Z.mul_assoc, <- Z.pow_add_r by lia.
      f_equal. f_equal. lia.
    + rewrite digits2_pos_log2, Hm', Z.log2_mul_pow2 by lia.
      rewrite digits2_pos_log2 in Hd. lia.
Qed.

(** *** Integers held exactly: conversion, product and sum *)

Lemma of_int64_zero : Double.of_int64 0 = S754_zero false.
Proof. reflexivity. Qed.

Lemma of_int64_integer (z : Z) :
  z <> 0 -> IntDiv.exact z ->
  IntDiv.is_integer_double (z <? 0) (Z.abs z) (Double.of_int64 z).
Proof.
  unfold IntDiv.exact. intros Hz Hex.
  destruct z as [|p|p]; [congruence| |];
    apply binary_round_integer; simpl; lia.
Qed.

Lemma trunc_integer (s : bool) (P : Z) (f : Double.t) :
  IntDiv.is_integer_double s P f ->
  Double.trunc f = Some (if s then - P else P).
Proof.
  intros (m & e & -> & Hd & He & Hm). cbn [Double.trunc].
  assert (Hv : Z.shiftl (Z.pos m) e = P).
  { destruct (Z.eq_dec e 1) as [->|Hne].
    - rewrite Z.shiftl_mul_pow2 by lia. simpl in Hm. lia.
    - rewrite Z.shiftl_div_pow2 by lia.
      replace (1 - e) with (1 + - e) in Hm by lia.
      rewrite Z.pow_add_r in Hm by lia.
      assert (H0 : 0 < 2 ^ (- e)) by (apply Z.pow_pos_nonneg; lia).
      replace (Z.pos m) with (P * 2 ^ (- e)) by lia.
      apply Z.div_mul. lia. }
  rewrite Hv. reflexivity.
Qed.

Lemma to_int64_integer (s : bool) (P : Z) (f : Double.t) :
  0 <= P <= 2 ^ 53 -> IntDiv.is_integer_double s P f ->
  Double.to_int64 f = Some (if s then - P else P).
Proof.
  intros HP Hf. unfold Double.to_int64. rewrite (trunc_integer s P f Hf).
  assert (Hin : in_int64 (if s then - P else P) = true).
  { unfold in_int64, INT64_MIN, INT64_MAX.
    assert (2 ^ 53 < 2 ^ 63) by reflexivity.
    destruct s; apply andb_true_intro; split; apply Z.leb_le; lia. }
  rewrite Hin. reflexivity.
Qed.

Lemma to_int64_of_int64 (z : Z) :
  IntDiv.exact z -> Double.to_int64 (Double.of_int64 z) = Some z.
Proof.
  intros Hex. destruct (Z.eq_dec z 0) as [->|Hz]; [reflexivity|].
  unfold IntDiv.exact in Hex.
  assert (HP : 0 <= Z.abs z <= 2 ^ 53) by lia.
  rewrite (to_int64_integer _ _ _ HP (of_int64_integer z Hz Hex)).
  f_equal. destruct (Z.ltb_spec z 0); lia.
Qed.

Lemma integer_double_exponent (s : bool) (P : Z) (m : positive) (e : Z) :
  1 <= P -> Z.pos (digits2_pos m) = 53 -> e <= 1 ->
  2 * Z.pos m = P * 2 ^ (1 - e) -> e = Z.log2 P - 52.
Proof.
  intros HP Hd He Hm.
  pose proof (scaled_digits m e P HP He Hm). lia.
Qed.

Lemma mul_integer (x y : Z) :
  IntDiv.exact x -> IntDiv.exact y -> IntDiv.exact (x * y) ->
  Double.to_int64 (Double.mul (Double.of_int64 x) (Double.of_int64 y))
  = Some (x * y).
Proof.
  intros Hx Hy Hxy.
  destruct (Z.eq_dec x 0) as [->|Hx0].
  { rewrite of_int64_zero.
    destruct (Z.eq_dec y 0) as [->|Hy0]; [reflexivity|].
    destruct (of_int64_integer y Hy0 Hy) as (m & e & -> & _). reflexivity. }
  destruct (of_int64_integer x Hx0 Hx) as (m1 & e1 & -> & Hd1 & He1 & Hm1).
  destruct (Z.eq_dec y 0) as [->|Hy0].
  { rewrite of_int64_zero, Z.mul_0_r. reflexivity. }
  destruct (of_int64_integer y Hy0 Hy) as (m2 & e2 & -> & Hd2 & He2 & Hm2).
  unfold IntDiv.exact in *.
  assert (Hx1 : 1 <= Z.abs x) by lia.
  assert (Hy1 : 1 <= Z.abs y) by lia.
  pose proof (integer_double_exponent (x <? 0) _ m1 e1 Hx1 Hd1 He1 Hm1).
  pose proof (integer_double_exponent (y <? 0) _ m2 e2 Hy1 Hd2 He2 Hm2).
  assert (HP : 1 <= Z.abs x * Z.abs y <= 2 ^ 53) by (rewrite <- Z.abs_mul; nia).
  pose proof (log2_small _ HP) as HL.
  pose proof (Z.log2_mul_below (Z.abs x) (Z.abs y) ltac:(lia) ltac:(lia)).
  assert (Hf : IntDiv.is_integer_double (xorb (x <? 0) (y <? 0))
                 (Z.abs x * Z.abs y)
                 (Double.mul (S754_finite (x <? 0) m1 e1)
                    (S754_finite (y <? 0) m2 e2))).
  { cbn [Double.mul SFmul]. apply binary_round_aux_integer.
    - exact HP.
    - lia.
    - replace (1 - (e1 + e2)) with ((1 - e1) + (1 - e2) - 1) by lia.
      assert (E : 2 ^ (1 - e1) * 2 ^ (1 - e2) = 2 * 2 ^ (1 - e1 + (1 - e2) - 1)).
      { rewrite <- Z.pow_add_r by lia.
        rewrite <- (Z.pow_succ_r 2) by lia. f_equal. lia. }
      rewrite Pos2Z.inj_mul. nia.
    - rewrite digits2_pos_log2, Pos2Z.inj_mul.
      pose proof (Z.log2_mul_below (Z.pos m1) (Z.pos m2) eq_refl eq_refl).
      rewrite digits2_pos_log2 in Hd1, Hd2. lia. }
  assert (HP0 : 0 <= Z.abs x * Z.abs y <= 2 ^ 53) by lia.
  rewrite (to_int64_integer _ _ _ HP0 Hf). f_equal.
  destruct (Z.ltb_spec x 0), (Z.ltb_spec y 0); simpl; nia.
Qed.

Lemma shl_align_fst (m : positive) (e ez : Z) :
  ez <= e -> Z.pos (fst (shl_align m e ez)) = Z.pos m * 2 ^ (e - ez).
Proof.
  intros Hle. unfold shl_align.
  destruct (ez - e) as [|d|d] eqn:Hd; cbn [fst].
  - replace (e - ez) with 0 by lia. lia.
  - lia.
  - rewrite iter_xO. f_equal. f_equal. lia.
Qed.

(** The aligned mantissa of an integer double, with its sign. *)
Lemma aligned_integer (z : Z) (m : positive) (e ez : Z) :
  ez <= e -> e <= 1 -> 2 * Z.pos m = Z.abs z * 2 ^ (1 - e) ->
  2 * cond_Zopp (z <? 0) (Z.pos (fst (shl_align m e ez))) = z * 2 ^ (1 - ez).
Proof.
  intros Hle He Hm. rewrite shl_align_fst by exact Hle.
  assert (E : 2 ^ (1 - ez) = 2 ^ (1 - e) * 2 ^ (e - ez)).
  { rewrite <- Z.pow_add_r by lia. f_equal. lia. }
  rewrite E. unfold cond_Zopp.
  destruct (Z.ltb_spec z 0); nia.
Qed.

Lemma normalize_integer (S ez z : Z) :
  ez <= 1 -> 2 * S = z * 2 ^ (1 - ez) -> IntDiv.exact z ->
  Double.to_int64 (binary_normalize 53 1024 S ez false) = Some z.
Proof.
  unfold IntDiv.exact. intros Hez HS Hz.
  assert (H2 : 0 < 2 ^ (1 - ez)) by (apply Z.pow_pos_nonneg; lia).
  destruct S as [|m|m]; cbn [binary_normalize].
  - assert (z = 0) by nia. subst z. reflexivity.
  - assert (Hpos : 1 <= z <= 2 ^ 53) by nia.
    assert (HP0 : 0 <= z <= 2 ^ 53) by lia.
    rewrite (to_int64_integer false z _ HP0); [reflexivity|].
    apply binary_round_integer; assumption.
  - assert (Hpos : 1 <= - z <= 2 ^ 53) by nia.
    assert (HP0 : 0 <= - z <= 2 ^ 53) by lia.
    rewrite (to_int64_integer true (- z) _ HP0); [f_equal; lia|].
    apply binary_round_integer; try assumption. 
    rewrite Z.mul_opp_l, <- HS. lia.
Qed.

Lemma add_integer (x y : Z) :
  IntDiv.exact x -> IntDiv.exact y -> IntDiv.exact (x + y) ->
  Double.to_int64 (Double.add (Double.of_int64 x) (Double.of_int64 y))
  = Some (x + y).
Proof.
  intros Hx Hy Hxy.
  destruct (Z.eq_dec x 0) as [->|Hx0].
  { rewrite of_int64_zero, Z.add_0_l.
    destruct (Z.eq_dec y 0) as [->|Hy0]; [reflexivity|].
    pose proof (to_int64_of_int64 y Hy) as Hr.
    destruct (of_int64_integer y Hy0 Hy) as (m & e & E & _).
    rewrite E in *. exact Hr. }
  pose proof (to_int64_of_int64 x Hx) as Hrx.
  destruct (of_int64_integer x Hx0 Hx) as (m1 & e1 & E1 & Hd1 & He1 & Hm1).
  rewrite E1 in *.
  destruct (Z.eq_dec y 0) as [->|Hy0].
  { rewrite of_int64_zero, Z.add_0_r. exact Hrx. }
  destruct (of_int64_integer y Hy0 Hy) as (m2 & e2 & -> & Hd2 & He2 & Hm2).
  cbn [Double.add SFadd].
  apply normalize_integer; [lia| |exact Hxy].
  rewrite Z.mul_add_distr_l, Z.mul_add_distr_r.
  f_equal; apply aligned_integer; try assumption; lia.
Qed.

(** *** The quotient *)

Lemma binary_round_aux_renormalize (s : bool) (m e : Z) (l : location) :
  binary_round_aux 53 1024 s m e l
  = IntDiv.renormalize s
      (round_nearest_even (shr_m (fst (shr_fexp 53 1024 m e l)))
         (loc_of_shr_record (fst (shr_fexp 53 1024 m e l))))
      (snd (shr_fexp 53 1024 m e l)).
Proof.
  unfold binary_round_aux, IntDiv.renormalize.
  destruct (shr_fexp 53 1024 m e l) as [mrs e']. reflexivity.
Qed.

Lemma trunc_renormalize (s : bool) (M e : Z) :
  2 ^ 52 <= M <= 2 ^ 53 -> -1074 <= e <= 970 ->
  Double.trunc (IntDiv.renormalize s M e) = Some (cond_Zopp s (Z.shiftl M e)).
Proof.
  intros HM He. unfold IntDiv.renormalize, shr_fexp.
  destruct M as [|m|m]; [lia| |lia].
  destruct (Z.eq_dec (Z.pos m) (2 ^ 53)) as [E|NE].
  - assert (m = 9007199254740992%positive) as -> by lia.
    change (Zdigits2 (Z.pos 9007199254740992)) with 54.
    rewrite fexp_normal by lia.
    replace (54 + e - 53 - e) with 1 by lia.
    cbn [shr shr_record_of_loc SpecFloat.iter_pos shr_1 shr_m].
    destruct (Z.leb_spec (e + 1) (1024 - 53)); [|lia].
    cbn [Double.trunc]. unfold cond_Zopp.
    change (Z.pos 9007199254740992) with (Z.shiftl 4503599627370496 1).
    rewrite Z.shiftl_shiftl by lia.
    replace (1 + e) with (e + 1) by lia. reflexivity.
  - assert (Hd : Z.pos (digits2_pos m) = 53)
      by (apply digits2_pos_unique; simpl; lia).
    cbn [Zdigits2]. rewrite Hd, fexp_normal by lia.
    replace (53 + e - 53 - e) with 0 by lia.
    cbn [shr shr_record_of_loc shr_m].
    destruct (Z.leb_spec e (1024 - 53)); [|lia].
    reflexivity.
Qed.

Lemma loc_of_shr_record_of_loc (m : Z) (l : location) :
  loc_of_shr_record (shr_record_of_loc m l) = l.
Proof. destruct l as [|[]]; reflexivity. Qed.

Lemma shr_m_record_of_loc (m : Z) (l : location) :
  shr_m (shr_record_of_loc m l) = m.
Proof. destruct l as [|[]]; reflexivity. Qed.

Lemma round_nearest_even_cases (m : Z) (l : location) :
  round_nearest_even m l = m
  \/ (round_nearest_even m l = m + 1
      /\ (l = loc_Inexact Eq \/ l = loc_Inexact Gt)).
Proof.
  destruct l as [|[]]; cbn [round_nearest_even]; auto.
  destruct (Z.even m); auto.
Qed.

Lemma div_double_even (p T : Z) : 0 < T -> (2 * p) / (2 * T) = p / T.
Proof. intros HT. apply Z.div_mul_cancel_l; lia. Qed.

Lemma div_double_odd (p T : Z) : 0 < T -> (2 * p + 1) / (2 * T) = p / T.
Proof.
  intros HT. rewrite <- Z.div_div by lia. f_equal.
  replace (2 * p + 1) with (1 + p * 2) by lia.
  rewrite Z.div_add by lia. reflexivity.
Qed.

(** Rounding a quotient mantissa of 53 or 54 digits at a negative exponent:
    truncated to an integer, the result is the truncated mantissa, or that
    of the mantissa plus one when the rounding went up. *)
Lemma round_trunc (s : bool) (q E : Z) (l : location) :
  2 ^ 52 <= q < 2 ^ 54 -> 1 <= E <= 106 ->
  Double.trunc (binary_round_aux 53 1024 s q (- E) l)
  = Some (cond_Zopp s (q / 2 ^ E))
  \/ (Double.trunc (binary_round_aux 53 1024 s q (- E) l)
      = Some (cond_Zopp s ((q + 1) / 2 ^ E))
      /\ ((q < 2 ^ 53 /\ (l = loc_Inexact Eq \/ l = loc_Inexact Gt))
          \/ (2 ^ 53 <= q /\ Z.odd q = true))).
Proof.
  intros Hq HE. rewrite binary_round_aux_renormalize. unfold shr_fexp.
  destruct q as [|q|q]; [lia| |lia].
  destruct (Z.lt_ge_cases (Z.pos q) (2 ^ 53)) as [Hlt|Hge].
  - assert (Hd : Z.pos (digits2_pos q) = 53)
      by (apply digits2_pos_unique; simpl; lia).
    cbn [Zdigits2]. rewrite Hd, fexp_normal by lia.
    replace (53 + - E - 53 - - E) with 0 by lia.
    cbn [shr fst snd].
    rewrite loc_of_shr_record_of_loc, shr_m_record_of_loc.
    destruct (round_nearest_even_cases (Z.pos q) l) as [-> | [-> Hl]];
      rewrite trunc_renormalize, Z.shiftl_div_pow2, Z.opp_involutive by lia;
      [left | right]; auto.
  - assert (Hd : Z.pos (digits2_pos q) = 54)
      by (apply digits2_pos_unique; simpl; lia).
    cbn [Zdigits2]. rewrite Hd, fexp_normal by lia.
    replace (54 + - E - 53 - - E) with 1 by lia.
    cbn [shr fst snd SpecFloat.iter_pos].
    assert (HT : 0 < 2 ^ (E - 1)) by (apply Z.pow_pos_nonneg; lia).
    assert (H2T : 2 ^ E = 2 * 2 ^ (E - 1)).
    { rewrite <- Z.pow_succ_r by lia. f_equal. lia. }
    rewrite H2T.
    destruct q as [p|p|]; [| |lia].
    + (* an odd mantissa *)
      pose proof (Pos2Z.inj_xI p) as Hodd.
      assert (Hp : 2 ^ 52 <= Z.pos p < 2 ^ 53) by lia.
      assert (Hdown : Z.pos p~1 / (2 * 2 ^ (E - 1)) = Z.pos p / 2 ^ (E - 1))
        by (rewrite Hodd; apply div_double_odd; lia).
      assert (Hup : (Z.pos p~1 + 1) / (2 * 2 ^ (E - 1))
                    = (Z.pos p + 1) / 2 ^ (E - 1)).
      { rewrite Hodd.
        replace (2 * Z.pos p + 1 + 1) with (2 * (Z.pos p + 1)) by lia.
        apply div_double_even; lia. }
      rewrite Hdown, Hup.
      destruct l as [|[]]; cbn [shr_record_of_loc shr_1 orb shr_m
                                 loc_of_shr_record round_nearest_even];
        try destruct (Z.even (Z.pos p));
        rewrite trunc_renormalize, Z.shiftl_div_pow2 by lia;
        replace (- (- E + 1)) with (E - 1) by lia;
        auto.
    + (* an even mantissa *)
      pose proof (Pos2Z.inj_xO p) as Heven.
      assert (Hp : 2 ^ 52 <= Z.pos p < 2 ^ 53) by lia.
      assert (Hdown : Z.pos p~0 / (2 * 2 ^ (E - 1)) = Z.pos p / 2 ^ (E - 1))
        by (rewrite Heven; apply div_double_even; lia).
      rewrite Hdown. left.
      destruct l as [|[]]; cbn [shr_record_of_loc shr_1 orb shr_m
                                 loc_of_shr_record round_nearest_even];
        rewrite trunc_renormalize, Z.shiftl_div_pow2 by lia;
        replace (- (- E + 1)) with (E - 1) by lia;
        reflexivity.
Qed.

Lemma div_core_normal (m1 m2 : positive) (e1 e2 : Z) :
  Z.pos (digits2_pos m1) = 53 -> Z.pos (digits2_pos m2) = 53 ->
  -52 <= e1 <= 1 -> -52 <= e2 <= 1 ->
  SFdiv_core_binary 53 1024 (Z.pos m1) e1 (Z.pos m2) e2
  = (Z.pos m1 * 2 ^ 53 / Z.pos m2, e1 - e2 - 53,
     new_location (Z.pos m2) (Z.pos m1 * 2 ^ 53 mod Z.pos m2)).
Proof.
  intros Hd1 Hd2 He1 He2. unfold SFdiv_core_binary.
  cbn [Zdigits2]. rewrite Hd1, Hd2, fexp_normal by lia.
  rewrite Z.min_l by lia.
  replace (e1 - e2 - (53 + e1 - (53 + e2) - 53)) with 53 by lia.
  rewrite Z.shiftl_mul_pow2 by lia.
  unfold Z.div, Z.modulo.
  destruct (Z.div_eucl (Z.pos m1 * 2 ^ 53) (Z.pos m2)) as [q r].
  cbn [fst snd]. f_equal. f_equal. lia.
Qed.

Lemma new_location_up (m r : Z) :
  new_location m r = loc_Inexact Eq
  \/ new_location m r = loc_Inexact Gt ->
  m <= 2 * r.
Proof.
  unfold new_location, new_location_even, new_location_odd.
  destruct (Z.even m), (Z.eqb r 0).
  - intros [Hl|Hl]; discriminate.
  - destruct (Z.compare_spec (2 * r) m); intros [Hl|Hl];
      try discriminate; lia.
  - intros [Hl|Hl]; discriminate.
  - destruct (Z.compare_spec (2 * r + 1) m); intros [Hl|Hl];
      try discriminate; lia.
Qed.

Lemma carry_identity (P1 P2 m2 T N q r k : Z) :
  P1 * (m2 * T) = N * P2 -> N = m2 * q + r -> q = T * (k + 1) - 1 ->
  (m2 - r) * P2 = (m2 * T) * ((k + 1) * P2 - P1).
Proof. intros HK HN Hq. subst q. subst N. lia. Qed.

Section Quotient.

(** Two integers [P1] and [P2] held on the 53-digit mantissas [m1] and [m2],
    [A1] and [A2] being two to one minus their exponents; [q] and [r] are the
    quotient and the remainder that [SFdiv_core_binary] computes, and [T] is
    two to the opposite of the exponent it gives to [q]. *)
Variables P1 P2 m1 m2 A1 A2 T N q r : Z.
Hypothesis HP1 : 1 <= P1 <= 2 ^ 53.
Hypothesis HP2 : 1 <= P2.
Hypothesis Hm1 : 2 * m1 = P1 * A1.
Hypothesis Hm2 : 2 * m2 = P2 * A2.
Hypothesis Hb1 : 2 ^ 52 <= m1 < 2 ^ 53.
Hypothesis Hb2 : 2 ^ 52 <= m2 < 2 ^ 53.
Hypothesis HA1 : A1 = 1 \/ 2 <= A1.
Hypothesis HA2 : 1 <= A2.
Hypothesis HT : 1 <= T.
Hypothesis HTA : T * A2 = 2 ^ 53 * A1.
Hypothesis HN : N = m1 * 2 ^ 53.
Hypothesis Hq : q = N / m2.
Hypothesis Hr : r = N mod m2.

Lemma scaled_cross : P1 * (m2 * T) = N * P2.
Proof using All.
  assert (H : 2 * (P1 * (m2 * T)) = 2 * (N * P2)).
  { rewrite HN.
    replace (2 * (P1 * (m2 * T))) with (P1 * (2 * m2) * T) by ring.
    rewrite Hm2.
    replace (P1 * (P2 * A2) * T) with (P1 * P2 * (T * A2)) by ring.
    rewrite HTA.
    replace (2 * (m1 * 2 ^ 53 * P2)) with ((2 * m1) * 2 ^ 53 * P2) by ring.
    rewrite Hm1. ring. }
  lia.
Qed.

Lemma quotient_mantissa : q / T = P1 / P2.
Proof using All.
  assert (HmT : 0 < m2 * T) by (apply Z.mul_pos_pos; lia).
  rewrite Hq, Z.div_div by lia.
  rewrite <- (Z.div_mul_cancel_r N (m2 * T) P2) by lia.
  rewrite <- scaled_cross.
  rewrite (Z.mul_comm (m2 * T) P2).
  apply Z.div_mul_cancel_r; lia.
Qed.

Lemma quotient_mantissa_bounds : 2 ^ 52 <= q < 2 ^ 54.
Proof using All.
  rewrite Hq, HN. split.
  - apply Z.div_le_lower_bound; [lia|].
    lia.
  - apply Z.div_lt_upper_bound; [lia|].
    lia.
Qed.

(** The mantissa plus one truncates like the mantissa whenever the rounding
    can go up: no integer lies in between. *)
Lemma quotient_no_carry :
  m2 <= 2 * r \/ (2 ^ 53 <= q /\ Z.odd q = true) ->
  (q + 1) / T = q / T.
Proof using All.
  intros Hup.
  pose proof (Z.div_mod q T ltac:(lia)) as Hdm.
  pose proof (Z.mod_pos_bound q T ltac:(lia)) as Hrho.
  set (k := q / T) in *. set (rho := q mod T) in *.
  destruct (Z.eq_dec (rho + 1) T) as [Hfull|Hroom].
  2:{ symmetry. apply (Z.div_unique (q + 1) T k (rho + 1)); lia. }
  exfalso.
  assert (HNd : N = m2 * q + r)
    by (rewrite Hq, Hr; apply Z.div_mod; lia).
  assert (Hrb : 0 <= r < m2)
    by (rewrite Hr; apply Z.mod_pos_bound; lia).
  pose proof scaled_cross as HK.
  assert (Hq1 : q = T * (k + 1) - 1) by lia.
  pose proof (carry_identity P1 P2 m2 T N q r k HK HNd Hq1) as HD.
  assert (Hpos : 0 < (m2 - r) * P2) by (apply Z.mul_pos_pos; lia).
  assert (HmT : 0 < m2 * T) by (apply Z.mul_pos_pos; lia).
  assert (HD1 : 1 <= (k + 1) * P2 - P1).
  { rewrite HD in Hpos. apply Z.mul_pos_cancel_l in Hpos; lia. }
  assert (Hge : m2 * T <= (m2 - r) * P2).
  { rewrite HD. rewrite <- (Z.mul_1_r (m2 * T)) at 1.
    apply Z.mul_le_mono_nonneg_l; lia. }
  assert (Hge2 : m2 * (2 ^ 53 * A1) <= (m2 - r) * (2 * m2)).
  { rewrite Hm2, <- HTA.
    replace (m2 * (T * A2)) with (m2 * T * A2) by ring.
    replace ((m2 - r) * (P2 * A2)) with ((m2 - r) * P2 * A2) by ring.
    apply Z.mul_le_mono_nonneg_r; lia. }
  assert (Hge3 : 2 ^ 53 * A1 <= 2 * (m2 - r)).
  { replace ((m2 - r) * (2 * m2)) with (m2 * (2 * (m2 - r))) in Hge2 by ring.
    apply Z.mul_le_mono_pos_l in Hge2; lia. }
  destruct Hup as [Hhalf | [Hbig Hodd]]; [destruct HA1; lia|].
  destruct HA1 as [HA|HA]; [|lia].
  assert (E1 : m1 = 2 ^ 52) by lia.
  assert (Hle : m2 * q <= N) by (rewrite Hq; apply Z.mul_div_le; lia).
  assert (E2 : m2 = 2 ^ 52).
  { assert (m2 * 2 ^ 53 <= m2 * q)
      by (apply Z.mul_le_mono_nonneg_l; lia).
    rewrite HN, E1 in Hle.
    change (2 ^ 52 * 2 ^ 53) with (2 ^ 53 * 2 ^ 52) in Hle. lia. }
  assert (Eq : q = 2 ^ 53).
  { rewrite Hq, HN, E1, E2. reflexivity. }
  rewrite Eq in Hodd. discriminate.
Qed.

End Quotient.

Lemma quot_signs (a b : Z) :
  a <> 0 -> b <> 0 ->
  cond_Zopp (xorb (a <? 0) (b <? 0)) (Z.abs a / Z.abs b) = Z.quot a b.
Proof.
  intros Ha Hb. rewrite Z.quot_div by exact Hb. unfold cond_Zopp.
  destruct (Z.ltb_spec a 0), (Z.ltb_spec b 0); cbn [xorb];
    repeat first [rewrite (Z.sgn_neg a) by lia | rewrite (Z.sgn_pos a) by lia
                 | rewrite (Z.sgn_neg b) by lia | rewrite (Z.sgn_pos b) by lia];
    lia.
Qed.

Lemma pow2_step (n : Z) : 1 <= n -> 2 <= 2 ^ n.
Proof.
  intros Hn. replace n with (Z.succ (n - 1)) by lia.
  rewrite Z.pow_succ_r by lia.
  assert (0 < 2 ^ (n - 1)) by (apply Z.pow_pos_nonneg; lia). lia.
Qed.

Lemma normal_mantissa (m : positive) :
  Z.pos (digits2_pos m) = 53 -> 2 ^ 52 <= Z.pos m < 2 ^ 53.
Proof.
  intros Hd. pose proof (digits2_pos_bounds m) as H.
  rewrite Hd in H. exact H.
Qed.

(** The double quotient of two integers of magnitude at most two to the 53,
    truncated: the integer quotient truncated toward zero. *)
Lemma div_integer (a b : Z) :
  IntDiv.exact a -> IntDiv.exact b -> b <> 0 ->
  Double.trunc (Double.div (Double.of_int64 a) (Double.of_int64 b))
  = Some (Z.quot a b).
Proof.
  intros Ha Hb Hb0.
  destruct (Z.eq_dec a 0) as [->|Ha0].
  { rewrite of_int64_zero, Z.quot_0_l by exact Hb0.
    destruct (of_int64_integer b Hb0 Hb) as (m & e & -> & _). reflexivity. }
  pose proof (of_int64_integer a Ha0 Ha) as Hfa.
  pose proof (of_int64_integer b Hb0 Hb) as Hfb.
  unfold IntDiv.exact in Ha, Hb.
  assert (HP1 : 1 <= Z.abs a <= 2 ^ 53) by lia.
  assert (HP2 : 1 <= Z.abs b <= 2 ^ 53) by lia.
  pose proof (log2_small _ HP1) as HL1.
  pose proof (log2_small _ HP2) as HL2.
  destruct (Z.eq_dec (Z.log2 (Z.abs a)) 53) as [Htop|Htop];
    [destruct (Z.eq_dec (Z.log2 (Z.abs b)) 0) as [Hone|Hone]|].
  { (* the quotient of two to the 53 by one *)
    pose proof (log2_53 _ HP1 Htop) as Ea.
    pose proof (Z.log2_spec (Z.abs b) ltac:(lia)) as Eb.
    rewrite Hone in Eb. simpl in Eb.
    assert (Ha' : a = 2 ^ 53 \/ a = - 2 ^ 53) by lia.
    assert (Hb' : b = 1 \/ b = -1) by lia.
    destruct Ha' as [-> | ->], Hb' as [-> | ->]; vm_compute; reflexivity. }
  all: destruct Hfa as (m1 & e1 & -> & Hd1 & He1 & Hm1).
  all: destruct Hfb as (m2 & e2 & -> & Hd2 & He2 & Hm2).
  all: pose proof (integer_double_exponent (a <? 0) _ m1 e1
                     (proj1 HP1) Hd1 He1 Hm1) as Ee1.
  all: pose proof (integer_double_exponent (b <? 0) _ m2 e2
                     (proj1 HP2) Hd2 He2 Hm2) as Ee2.
  all: pose proof (normal_mantissa m1 Hd1) as Hb1.
  all: pose proof (normal_mantissa m2 Hd2) as Hb2.
  all: set (E := 53 + e2 - e1).
  all: assert (HE : 1 <= E <= 106) by lia.
  all: assert (HA1 : 2 ^ (1 - e1) = 1 \/ 2 <= 2 ^ (1 - e1))
         by (destruct (Z.eq_dec e1 1) as [->|]; [left; reflexivity|
             right; apply pow2_step; lia]).
  all: assert (HA2 : 1 <= 2 ^ (1 - e2))
         by (assert (0 < 2 ^ (1 - e2)) by (apply Z.pow_pos_nonneg; lia); lia).
  all: assert (HT : 1 <= 2 ^ E)
         by (assert (0 < 2 ^ E) by (apply Z.pow_pos_nonneg; lia); lia).
  all: assert (HTA : 2 ^ E * 2 ^ (1 - e2) = 2 ^ 53 * 2 ^ (1 - e1))
         by (rewrite <- !Z.pow_add_r by lia; f_equal; lia).
  all: set (N := Z.pos m1 * 2 ^ 53).
  all: assert (Hquot : N / Z.pos m2 / 2 ^ E = Z.abs a / Z.abs b)
         by (apply (quotient_mantissa (Z.abs a) (Z.abs b) (Z.pos m1) (Z.pos m2)
                      (2 ^ (1 - e1)) (2 ^ (1 - e2)) (2 ^ E) N (N / Z.pos m2)
                      (N mod Z.pos m2));
             reflexivity || assumption || lia).
  all: assert (Hqb : 2 ^ 52 <= N / Z.pos m2 < 2 ^ 54)
         by (apply (quotient_mantissa_bounds (Z.abs a) (Z.abs b) (Z.pos m1)
                      (Z.pos m2) (2 ^ (1 - e1)) (2 ^ (1 - e2)) (2 ^ E) N
                      (N / Z.pos m2) (N mod Z.pos m2));
             reflexivity || assumption || lia).
  all: assert (Hcarry :
           Z.pos m2 <= 2 * (N mod Z.pos m2)
           \/ (2 ^ 53 <= N / Z.pos m2 /\ Z.odd (N / Z.pos m2) = true) ->
           (N / Z.pos m2 + 1) / 2 ^ E = N / Z.pos m2 / 2 ^ E)
         by (apply (quotient_no_carry (Z.abs a) (Z.abs b) (Z.pos m1) (Z.pos m2)
                      (2 ^ (1 - e1)) (2 ^ (1 - e2)) (2 ^ E) N
                      (N / Z.pos m2) (N mod Z.pos m2));
             reflexivity || assumption || lia).
  all: cbn [Double.div SFdiv].
  all: rewrite div_core_normal by lia.
  all: replace (e1 - e2 - 53) with (- E) by lia.
  all: cbv beta iota; unfold Double.prec, Double.emax.
  all: rewrite <- (quot_signs a b Ha0 Hb0), <- Hquot.
  all: fold N.
  all: destruct (round_trunc (xorb (a <? 0) (b <? 0)) (N / Z.pos m2) E
                   (new_location (Z.pos m2) (N mod Z.pos m2))
                   Hqb HE) as [Hr | [Hr Hup]];
         [exact Hr|].
  all: rewrite Hr, Hcarry; [reflexivity|].
  all: destruct Hup as [[_ Hl] | Hodd];
         [left; apply new_location_up, Hl | right; exact Hodd].
Qed.

(** *** The operators of the evaluator *)

Lemma eval_arithmetic_S (fuel : nat) (op : BinaryOp) (lhs rhs : ASTNode)
  (interp : Interpreter) :
  op <> OP_AND -> op <> OP_OR ->
  eval_expr (S fuel) (AST_BINARY_OP op lhs rhs) interp
  = match eval_expr fuel lhs interp with
    | Some (l, interp) =>
        match eval_expr fuel rhs interp with
        | Some (r, interp) => eval_binary_values op l r interp
        | None => None
        end
    | None => None
    end.
Proof.
  intros Hand Hor. rewrite eval_expr_S. cbn [Step.eval_expr].
  unfold Step.eval_binary. fold (eval_expr fuel).
  destruct (eval_expr fuel lhs interp) as [[l i1]|]; [|reflexivity].
  destruct op; try congruence; reflexivity.
Qed.

Lemma eval_integer_S (fuel : nat) (n : Z) (interp : Interpreter) :
  eval_expr (S fuel) (AST_INTEGER n) interp = Some (value_int n, interp).
Proof. reflexivity. Qed.

Lemma eqb_zero_of_int64 (b : Z) :
  IntDiv.exact b -> b <> 0 ->
  Double.eqb (Double.of_int64 b) Double.zero = false.
Proof.
  intros Hb Hb0.
  destruct (of_int64_integer b Hb0 Hb) as (m & e & -> & _).
  cbn. destruct (b <? 0); reflexivity.
Qed.

Lemma quot_exact (a b : Z) : IntDiv.exact a -> b <> 0 -> IntDiv.exact (Z.quot a b).
Proof.
  unfold IntDiv.exact. intros Ha Hb.
  rewrite <- Z.quot_abs by exact Hb.
  pose proof (Z.mul_quot_le (Z.abs a) (Z.abs b) ltac:(lia) ltac:(lia)) as H.
  pose proof (Z.quot_pos (Z.abs a) (Z.abs b) ltac:(lia) ltac:(lia)) as Hq.
  nia.
Qed.

Lemma quot_mul_exact (a b : Z) :
  IntDiv.exact a -> b <> 0 -> IntDiv.exact (Z.quot a b * b).
Proof.
  unfold IntDiv.exact. intros Ha Hb.
  rewrite Z.abs_mul, <- Z.quot_abs by exact Hb.
  pose proof (Z.mul_quot_le (Z.abs a) (Z.abs b) ltac:(lia) ltac:(lia)) as H.
  lia.
Qed.

Lemma rem_exact (a b : Z) : IntDiv.exact b -> b <> 0 -> IntDiv.exact (Z.rem a b).
Proof.
  unfold IntDiv.exact. intros Hb Hb0.
  pose proof (Z.rem_bound_abs a b Hb0). lia.
Qed.

Lemma exact_in_int64 (z : Z) : IntDiv.exact z -> in_int64 z = true.
Proof.
  unfold IntDiv.exact, in_int64, INT64_MIN, INT64_MAX. intros Hz.
  assert (2 ^ 53 < 2 ^ 63) by reflexivity.
  apply andb_true_intro; split; apply Z.leb_le; lia.
Qed.

Lemma int_div_values (a b : Z) (interp : Interpreter) :
  IntDiv.exact a -> IntDiv.exact b -> b <> 0 ->
  eval_binary_values OP_INT_DIV (VInt a) (VInt b) interp
  = Some (value_int (Z.quot a b), interp).
Proof.
  intros Ha Hb Hb0.
  unfold eval_binary_values.
  change (bool_decide (OP_INT_DIV = OP_ADD)) with false.
  cbn [andb numeric_operand is_float orb eval_numeric].
  rewrite eqb_zero_of_int64 by assumption.
  unfold Double.to_int64. rewrite div_integer by assumption.
  rewrite exact_in_int64 by (apply quot_exact; assumption).
  reflexivity.
Qed.

Lemma mod_values (a b : Z) (interp : Interpreter) :
  IntDiv.exact a -> IntDiv.exact b -> b <> 0 ->
  eval_binary_values OP_MOD (VInt a) (VInt b) interp
  = Some (value_int (Z.rem a b), interp).
Proof.
  intros Ha Hb Hb0.
  unfold eval_binary_values.
  change (bool_decide (OP_MOD = OP_ADD)) with false.
  cbn [andb numeric_operand is_float orb eval_numeric].
  rewrite !to_int64_of_int64 by assumption.
  assert (Hz : (b =? 0) = false) by (apply Z.eqb_neq; exact Hb0).
  assert (Hmin : (a =? INT64_MIN) = false).
  { apply Z.eqb_neq. unfold IntDiv.exact, INT64_MIN in *.
    assert (2 ^ 53 < 2 ^ 63) by reflexivity. lia. }
  rewrite Hz, Hmin. reflexivity.
Qed.

Lemma mul_values (x y : Z) (interp : Interpreter) :
  IntDiv.exact x -> IntDiv.exact y -> IntDiv.exact (x * y) ->
  eval_binary_values OP_MUL (VInt x) (VInt y) interp
  = Some (value_int (x * y), interp).
Proof.
  intros Hx Hy Hxy.
  unfold eval_binary_values.
  change (bool_decide (OP_MUL = OP_ADD)) with false.
  cbn [andb numeric_operand is_float orb eval_numeric].
  rewrite mul_integer by assumption. reflexivity.
Qed.

Lemma add_values (x y : Z) (interp : Interpreter) :
  IntDiv.exact x -> IntDiv.exact y -> IntDiv.exact (x + y) ->
  eval_binary_values OP_ADD (VInt x) (VInt y) interp
  = Some (value_int (x + y), interp).
Proof.
  intros Hx Hy Hxy.
  unfold eval_binary_values.
  change (bool_decide (OP_ADD = OP_ADD)) with true.
  cbn [andb numeric_operand is_float orb eval_numeric is_string].
  rewrite add_integer by assumption. reflexivity.
Qed.

(** C6, amended.  For integers [a] and [b] of magnitude at most two to the
    53, [b] not zero, the evaluated expressions obey the law of truncated
    division: [a // b] is the quotient truncated toward zero, [a % b] is
    zero or has the sign of [a], and [a // b * b + a % b] evaluates to [a].
    (Every operand goes through [double]; these are the integers it holds
    exactly at every step.) *)
Theorem truncated_division_on_exact_integers (fuel : nat)
  (interp : Interpreter) (a b : Z) :
  IntDiv.exact a -> IntDiv.exact b -> b <> 0 ->
  IntDiv.truncated_division (S (S (S (S fuel)))) interp a b.
Proof.
  intros Ha Hb Hb0.
  assert (Hdiv : forall f, eval_expr (S (S f)) (IntDiv.int_div a b) interp
                           = Some (value_int (Z.quot a b), interp)).
  { intros f. unfold IntDiv.int_div.
    rewrite eval_arithmetic_S, !eval_integer_S by discriminate.
    apply int_div_values; assumption. }
  assert (Hmod : forall f, eval_expr (S (S f)) (IntDiv.modulo a b) interp
                           = Some (value_int (Z.rem a b), interp)).
  { intros f. unfold IntDiv.modulo.
    rewrite eval_arithmetic_S, !eval_integer_S by discriminate.
    apply mod_values; assumption. }
  split; [apply Hdiv|]. split.
  - exists (Z.rem a b). split; [apply Hmod|].
    destruct (Z.eq_dec (Z.rem a b) 0) as [Hz|Hnz]; [left; exact Hz|].
    right. apply Z.rem_sign_nz; assumption.
  - unfold IntDiv.recomposed.
    rewrite eval_arithmetic_S by discriminate.
    rewrite (eval_arithmetic_S (S (S fuel))) by discriminate.
    rewrite Hdiv, eval_integer_S.
    rewrite mul_values;
      [|apply quot_exact; assumption|assumption|apply quot_mul_exact; assumption].
    rewrite Hmod.
    assert (Hsum : Z.quot a b * b + Z.rem a b = a)
      by (pose proof (Z.quot_rem' a b); lia).
    rewrite add_values;
      [rewrite Hsum; reflexivity|apply quot_mul_exact; assumption
      |apply rem_exact; assumption|rewrite Hsum; exact Ha].
Qed.

Lemma truncated_division_on_exact_integers_witness :
  IntDiv.truncated_division 4 (interpreter_create (fun _ => false))
    (-9007199254740992) 3.
Proof.
  apply (truncated_division_on_exact_integers 0 _ (-9007199254740992) 3);
    [vm_compute; discriminate | vm_compute; discriminate | lia].
Defined.

(** C6 as the specification words it fails above two to the 53: the double
    of 9007199254740993 is 9007199254740992, so [9007199254740993 // 1]
    evaluates to 9007199254740992, and so does
    [9007199254740993 // 1 * 1 + 9007199254740993 % 1]. *)
Lemma division_law_fails_above_2_53 :
  ~ IntDiv.as_specified
  /\ (forall fuel interp,
         eval_expr (S (S fuel)) (IntDiv.int_div 9007199254740993 1) interp
         = Some (value_int 9007199254740992, interp))
  /\ (forall fuel interp,
         eval_expr (S (S (S (S fuel))))
           (IntDiv.recomposed 9007199254740993 1) interp
         = Some (value_int 9007199254740992, interp)).
Proof.
  assert (Hdiv : forall fuel interp,
             eval_expr (S (S fuel)) (IntDiv.int_div 9007199254740993 1) interp
             = Some (value_int 9007199254740992, interp)).
  { intros fuel interp. unfold IntDiv.int_div.
    rewrite eval_arithmetic_S, !eval_integer_S by discriminate.
    vm_compute. reflexivity. }
  split; [|split].
  - intros H.
    destruct (H 0%nat (interpreter_create (fun _ => false))
                9007199254740993 1 eq_refl eq_refl ltac:(lia)) as [Hq _].
    rewrite Hdiv in Hq. discriminate Hq.
  - exact Hdiv.
  - intros fuel interp. unfold IntDiv.recomposed.
    rewrite eval_arithmetic_S by discriminate.
    rewrite (eval_arithmetic_S (S (S fuel))) by discriminate.
    rewrite Hdiv, eval_integer_S.
    rewrite mul_values by (vm_compute; discriminate).
    unfold IntDiv.modulo.
    rewrite eval_arithmetic_S, !eval_integer_S by discriminate.
    vm_compute. reflexivity.
Qed.

(** Beyond the 64-bit results that fit, the conversion back from [double] has
    no defined result: [9223372036854775807 // 1] converts two to the 63. *)
Example int_div_largest_integer (fuel : nat) (interp : Interpreter) :
  eval_expr (S (S fuel)) (IntDiv.int_div INT64_MAX 1) interp = None.
Proof.
  unfold IntDiv.int_div.
  rewrite eval_arithmetic_S, !eval_integer_S by discriminate.
  vm_compute. reflexivity.
Qed.

(** ** Comparing integers through [double] *)

Lemma compare_same_exponent (m1 m2 : positive) (P1 P2 T : Z) :
  0 < T -> 2 * Z.pos m1 = P1 * T -> 2 * Z.pos m2 = P2 * T ->
  Pos.compare_cont Eq m1 m2 = (P1 ?= P2).
Proof.
  intros HT H1 H2.
  change (Pos.compare_cont Eq m1 m2) with (Z.pos m1 ?= Z.pos m2).
  destruct (Z.compare_spec P1 P2) as [E|L|G].
  - subst. apply Z.compare_eq_iff. lia.
  - apply Z.compare_lt_iff. nia.
  - apply Z.compare_gt_iff. nia.
Qed.

(** The order of two positive integer doubles is the order of the
    integers. *)
Lemma compare_magnitudes (m1 m2 : positive) (e1 e2 P1 P2 : Z) :
  1 <= P1 -> 1 <= P2 ->
  Z.pos (digits2_pos m1) = 53 -> e1 <= 1 -> 2 * Z.pos m1 = P1 * 2 ^ (1 - e1) ->
  Z.pos (digits2_pos m2) = 53 -> e2 <= 1 -> 2 * Z.pos m2 = P2 * 2 ^ (1 - e2) ->
  match e1 ?= e2 with
  | Eq => Pos.compare_cont Eq m1 m2
  | c => c
  end = (P1 ?= P2).
Proof.
  intros HP1 HP2 Hd1 He1 Hm1 Hd2 He2 Hm2.
  pose proof (integer_double_exponent false P1 m1 e1 HP1 Hd1 He1 Hm1) as E1.
  pose proof (integer_double_exponent false P2 m2 e2 HP2 Hd2 He2 Hm2) as E2.
  destruct (Z.compare_spec e1 e2) as [E|L|G].
  - rewrite <- E in Hm2.
    apply (compare_same_exponent m1 m2 P1 P2 (2 ^ (1 - e1)));
      [apply Z.pow_pos_nonneg; lia | assumption | assumption].
  - symmetry. apply Z.compare_lt_iff.
    apply Z.log2_lt_cancel. lia.
  - symmetry. apply Z.compare_gt_iff.
    apply Z.log2_lt_cancel. lia.
Qed.

Lemma compare_integer (a b : Z) :
  IntDiv.exact a -> IntDiv.exact b ->
  SFcompare (Double.of_int64 a) (Double.of_int64 b) = Some (a ?= b).
Proof.
  intros Ha Hb.
  destruct (Z.eq_dec a 0) as [->|Ha0]; destruct (Z.eq_dec b 0) as [->|Hb0].
  - reflexivity.
  - destruct (of_int64_integer b Hb0 Hb) as (m & e & -> & _).
    rewrite of_int64_zero. cbn [SFcompare]. f_equal.
    destruct (Z.ltb_spec b 0); symmetry;
      [apply Z.compare_gt_iff | apply Z.compare_lt_iff]; lia.
  - destruct (of_int64_integer a Ha0 Ha) as (m & e & -> & _).
    rewrite of_int64_zero. cbn [SFcompare]. f_equal.
    destruct (Z.ltb_spec a 0); symmetry;
      [apply Z.compare_lt_iff | apply Z.compare_gt_iff]; lia.
  - destruct (of_int64_integer a Ha0 Ha) as (m1 & e1 & -> & Hd1 & He1 & Hm1).
    destruct (of_int64_integer b Hb0 Hb) as (m2 & e2 & -> & Hd2 & He2 & Hm2).
    cbn [SFcompare]. f_equal.
    assert (H1 : 1 <= Z.abs a) by lia. assert (H2 : 1 <= Z.abs b) by lia.
    pose proof (compare_magnitudes m1 m2 e1 e2 _ _ H1 H2 Hd1 He1 Hm1
                  Hd2 He2 Hm2) as Hc.
    destruct (Z.ltb_spec a 0), (Z.ltb_spec b 0).
    + (* both negative *)
      replace (a ?= b) with (CompOpp (Z.abs a ?= Z.abs b)).
      2:{ rewrite <- Z.compare_antisym.
          rewrite !Z.abs_neq by lia. apply Z.compare_opp. }
      rewrite <- Hc. destruct (e1 ?= e2); reflexivity.
    + symmetry. apply Z.compare_lt_iff. lia.
    + symmetry. apply Z.compare_gt_iff. lia.
    + rewrite !Z.abs_eq in Hc by lia. exact Hc.
Qed.

(** ** Equality: the operator and the matching relation (C10) *)

Lemma value_equals_types (a b : Value) :
  value_type a <> value_type b -> value_equals a b = false.
Proof.
  intros Hne. destruct a; simpl;
    rewrite bool_decide_eq_false_2 by (intros E; apply Hne; exact E);
    reflexivity.
Qed.

Lemma eqb_integer (a b : Z) :
  IntDiv.exact a -> IntDiv.exact b ->
  Double.eqb (Double.of_int64 a) (Double.of_int64 b) = (a =? b).
Proof.
  intros Ha Hb. unfold Double.eqb, SFeqb.
  rewrite (compare_integer a b Ha Hb), Z.eqb_compare.
  destruct (a ?= b); reflexivity.
Qed.

(** C10.  The operator [==] compares its operands as doubles, whatever
    their types among integer and float: the result is the boolean of the
    IEEE equality of the two doubles.  So an integer and a float are equal
    for it exactly when the double of the integer equals the float: on
    integers of magnitude at most two to the 53, an integer [a] and the
    float of value [b] are equal exactly when [a = b] ([1 == 1.0] is true,
    [2 == 1.0] and [1 == 1.5] are false).  [value_equals], which situation
    matching uses, is false whenever the tags of the two values differ, so
    a situation on the float [1.0] skips an alignment listing the integer
    [1] and runs its [otherwise] case. *)
Theorem eq_promotes_alignment_compares_tags :
  (forall fuel interp,
      eval_expr (S (S fuel))
        (AST_BINARY_OP OP_EQ (AST_INTEGER 1) (AST_FLOAT one_point_zero)) interp
      = Some (VBool true, interp))
  /\ (forall x y a b interp,
         numeric_operand x = Some a -> numeric_operand y = Some b ->
         eval_binary_values OP_EQ x y interp
         = Some (VBool (Double.eqb a b), interp))
  /\ (forall a b interp,
         IntDiv.exact a -> IntDiv.exact b ->
         eval_binary_values OP_EQ (VInt a) (VFloat (Double.of_int64 b)) interp
         = Some (VBool (a =? b), interp)
         /\ eval_binary_values OP_EQ (VFloat (Double.of_int64 a)) (VInt b)
              interp
            = Some (VBool (a =? b), interp)
         /\ eval_binary_values OP_EQ (VInt a) (VInt b) interp
            = Some (VBool (a =? b), interp))
  /\ (forall fuel interp,
         eval_expr (S (S fuel))
           (AST_BINARY_OP OP_EQ (AST_INTEGER 1) (AST_FLOAT one_point_five))
           interp
         = Some (VBool false, interp)
         /\ eval_expr (S (S fuel))
              (AST_BINARY_OP OP_EQ (AST_INTEGER 2) (AST_FLOAT one_point_zero))
              interp
            = Some (VBool false, interp))
  /\ (forall a b, value_type a <> value_type b -> value_equals a b = false)
  /\ value_equals (VFloat one_point_zero) (VInt 1) = false
  /\ (forall fuel body interp,
         Step.situation_alignments (evaluator (S fuel))
           [AST_ALIGNMENT false [AST_INTEGER 1] body]
           (VFloat one_point_zero) interp
         = Some (false, interp))
  /\ (exists interp,
         run_file 10 Match.program = Some (0, interp)
         /\ stdout interp = [[VString "other"]]).
Proof.
  assert (Heq : forall x y a b interp,
             numeric_operand x = Some a -> numeric_operand y = Some b ->
             eval_binary_values OP_EQ x y interp
             = Some (VBool (Double.eqb a b), interp)).
  { intros x y a b interp Hx Hy. unfold eval_binary_values.
    change (bool_decide (OP_EQ = OP_ADD)) with false. cbn [andb].
    cbn [mbind option_bind]. rewrite Hx, Hy. reflexivity. }
  split; [|split; [|split; [|split; [|split; [|split; [|split]]]]]].
  - intros fuel interp. reflexivity.
  - exact Heq.
  - intros a b interp Ha Hb.
    rewrite (Heq (VInt a) (VFloat (Double.of_int64 b)) (Double.of_int64 a)
               (Double.of_int64 b) interp eq_refl eq_refl).
    rewrite (Heq (VFloat (Double.of_int64 a)) (VInt b) (Double.of_int64 a)
               (Double.of_int64 b) interp eq_refl eq_refl).
    rewrite (Heq (VInt a) (VInt b) (Double.of_int64 a) (Double.of_int64 b)
               interp eq_refl eq_refl).
    rewrite (eqb_integer a b Ha Hb). repeat split.
  - intros fuel interp. split; reflexivity.
  - exact value_equals_types.
  - reflexivity.
  - intros fuel body interp. reflexivity.
  - eexists. split; [vm_compute; reflexivity | reflexivity].
Qed.

Lemma eq_promotes_alignment_compares_tags_witness :
  eval_binary_values OP_EQ (VInt 1) (VFloat one_point_zero)
    (interpreter_create (fun _ => false))
  = Some (VBool true, interpreter_create (fun _ => false))
  /\ eval_binary_values OP_EQ (VInt 2) (VFloat one_point_zero)
       (interpreter_create (fun _ => false))
     = Some (VBool false, interpreter_create (fun _ => false))
  /\ eval_binary_values OP_EQ (VInt 3) (VInt (-3))
       (interpreter_create (fun _ => false))
     = Some (VBool false, interpreter_create (fun _ => false))
  /\ value_type (VFloat one_point_zero) <> value_type (VInt 1)
  /\ value_equals (VFloat one_point_zero) (VInt 1) = false.
Proof.
  pose proof eq_promotes_alignment_compares_tags
    as (_ & _ & Hint & _ & Htag & _).
  assert (Hex : forall z, Z.abs z <= 3 -> IntDiv.exact z).
  { intros z Hz. unfold IntDiv.exact.
    change (2 ^ 53) with 9007199254740992. lia. }
  split; [|split; [|split; [|split]]].
  - apply (proj1 (Hint 1 1 (interpreter_create (fun _ => false))
                    (Hex 1 ltac:(lia)) (Hex 1 ltac:(lia)))).
  - apply (proj1 (Hint 2 1 (interpreter_create (fun _ => false))
                    (Hex 2 ltac:(lia)) (Hex 1 ltac:(lia)))).
  - apply (proj2 (proj2 (Hint 3 (-3) (interpreter_create (fun _ => false))
                           (Hex 3 ltac:(lia)) (Hex (-3) ltac:(lia))))).
  - discriminate.
  - apply Htag. discriminate.
Defined.
(** * Further properties of the interpreter *)

(** ** Values *)

(** Induction on values through the elements of lists. *)
Lemma Value_list_ind (P : Value -> Prop) :
  (forall items, Forall P items -> P (VList items)) ->
  (forall v, (forall items, v <> VList items) -> P v) ->
  forall v, P v.
Proof.
  intros Hlist Hother.
  refine (fix IH (v : Value) : P v :=
            match v with
            | VList items =>
                Hlist items
                  ((fix go (l : list Value) : Forall P l :=
                      match l with
                      | [] => @List.Forall_nil _ P
                      | x :: l0 => @List.Forall_cons _ P x l0 (IH x) (go l0)
                      end) items)
            | _ => _
            end); apply Hother; discriminate.
Qed.

Lemma value_copy_rec_plain copy_stored (v : Value) :
  plain v = true -> forall m, value_copy_rec copy_stored v m = Some (v, m).
Proof.
  induction v as [items IH | v Hv] using Value_list_ind; intros Hp m.
  - cbn [value_copy_rec].
    assert (Hitems :
      (fix copy_items (l : list Value) (m : Memory) {struct l}
         : option (list Value * Memory) :=
         match l with
         | [] => Some ([], m)
         | x :: l' =>
             match value_copy_rec copy_stored x m with
             | Some (x', m) =>
                 match copy_items l' m with
                 | Some (l'', m) => Some (x' :: l'', m)
                 | None => None
                 end
             | None => None
             end
         end) items m = Some (items, m)).
    { cbn [plain] in Hp. induction IH as [|x l Hx _ IHl]; [reflexivity|].
      cbn [forallb] in Hp. apply andb_prop in Hp as [Hpx Hpl].
      rewrite (Hx Hpx), (IHl Hpl). reflexivity. }
    rewrite Hitems. reflexivity.
  - destruct v; try reflexivity; try discriminate Hp.
    exfalso. exact (Hv items eq_refl).
Qed.

Lemma value_copy_plain_eq (fuel : nat) (v : Value) (m : Memory) :
  plain v = true -> value_copy fuel v m = Some (v, m).
Proof.
  intros Hp. destruct fuel; cbn [value_copy]; apply value_copy_rec_plain, Hp.
Qed.

(** ** Environments *)

Lemma entries_find_update_other es name name' f :
  (forall x, entry_name (f x) = entry_name x) ->
  name' <> name ->
  entries_find (entries_update es name f) name' = entries_find es name'.
Proof.
  intros Hname Hne. induction es as [|x es IH]; [reflexivity|].
  cbn [entries_update entries_find].
  destruct (String.eqb (entry_name x) name) eqn:Hx.
  - cbn [entries_find]. rewrite Hname.
    apply String.eqb_eq in Hx.
    destruct (String.eqb (entry_name x) name') eqn:Hx';
      [apply String.eqb_eq in Hx'; congruence | reflexivity].
  - cbn [entries_find]. rewrite IH. reflexivity.
Qed.

Lemma entries_update_length es name f :
  List.length (entries_update es name f) = List.length es.
Proof.
  induction es as [|x es IH]; [reflexivity|].
  cbn [entries_update]. destruct (String.eqb (entry_name x) name);
    cbn [List.length]; congruence.
Qed.

Lemma entries_find_name es name e :
  entries_find es name = Some e -> entry_name e = name.
Proof.
  induction es as [|x es IH]; [discriminate|].
  cbn [entries_find]. destruct (String.eqb (entry_name x) name) eqn:Hx.
  - intros [= <-]. apply String.eqb_eq. exact Hx.
  - exact IH.
Qed.

Lemma env_find_update_other m env env' name name' f :
  (forall x, entry_name (f x) = entry_name x) ->
  name' <> name ->
  env_find (env_update env name f m) env' name' = env_find m env' name'.
Proof.
  intros Hname Hne. unfold env_find, env_update.
  destruct (Nat.eq_dec (env_addr env) (env_addr env')) as [Heq|Hneq].
  - rewrite env_entries_set_entries_eq by exact Heq.
    rewrite entries_find_update_other by assumption.
    unfold env_entries. rewrite Heq. reflexivity.
  - rewrite env_entries_set_entries_ne by exact Hneq. reflexivity.
Qed.

Lemma env_find_define_other m env env' name name' v :
  name' <> name ->
  env_find (env_define env name v m) env' name' = env_find m env' name'.
Proof.
  intros Hne. unfold env_find, env_define.
  destruct (Nat.eq_dec (env_addr env) (env_addr env')) as [Heq|Hneq].
  - rewrite env_entries_set_entries_eq by exact Heq.
    cbn [entries_find entry_name].
    destruct (String.eqb name name') eqn:E;
      [apply String.eqb_eq in E; congruence|].
    unfold env_entries. rewrite Heq. reflexivity.
  - rewrite env_entries_set_entries_ne by exact Hneq. reflexivity.
Qed.

Lemma env_find_define_same m env name v :
  env_find (env_define env name v m) env name = Some (mkEntry name v false).
Proof.
  unfold env_find, env_define.
  rewrite env_entries_set_entries_eq by reflexivity.
  cbn [entries_find entry_name]. rewrite String.eqb_refl. reflexivity.
Qed.

Lemma env_get_found fuel env name m e :
  env_find m env name = Some e ->
  env_get fuel env name m
  = (do (v, m') <- value_copy fuel (entry_value e) m; Some (v, true, m')).
Proof. intros Hfind. destruct env as [a p]. cbn [env_get]. rewrite Hfind. reflexivity. Qed.

(** X1.  A definition is found again: after [env_define env name v], a
    lookup of [name] from [env] finds a copy of [v], whatever [env] bound to
    [name] before (the new entry is placed in front of the older ones and
    shadows them); for a value that holds no function and no generator the
    copy is the value itself and the lookup changes nothing. *)
Theorem env_define_then_get (fuel : nat) (env : Environment) (name : string)
  (v : Value) (m : Memory) :
  env_find (env_define env name v m) env name = Some (mkEntry name v false)
  /\ env_get fuel env name (env_define env name v m)
     = (do (c, m') <- value_copy fuel v (env_define env name v m);
        Some (c, true, m'))
  /\ (plain v = true ->
      env_get fuel env name (env_define env name v m)
      = Some (v, true, env_define env name v m))
  /\ List.length (env_entries (env_define env name v m) env)
     = S (List.length (env_entries m env)).
Proof.
  pose proof (env_find_define_same m env name v) as Hfind.
  split; [exact Hfind|]. split; [|split].
  - rewrite (env_get_found _ _ _ _ _ Hfind). reflexivity.
  - intros Hp. rewrite (env_get_found _ _ _ _ _ Hfind). cbn [entry_value].
    rewrite value_copy_plain_eq by exact Hp. reflexivity.
  - unfold env_define. rewrite env_entries_set_entries_eq by reflexivity.
    reflexivity.
Qed.

(** A name that no scope of the chain binds is reported as not found. *)
Lemma env_get_unbound_eq (fuel : nat) (env : Environment) (name : string)
  (m : Memory) :
  Forall (fun scope => env_find m scope name = None) (scope_chain env) ->
  env_get fuel env name m = Some (value_null, false, m).
Proof.
  revert env.
  refine (fix IH (env : Environment) := _).
  destruct env as [a [p|]]; cbn [scope_chain env_get]; intros H.
  - apply Forall_cons_1 in H as [Hhere Hrest].
    rewrite Hhere. apply IH. exact Hrest.
  - apply Forall_cons_1 in H as [Hhere _]. rewrite Hhere. reflexivity.
Qed.

(** X2.  An assignment to a name that the current scope binds overwrites
    that binding in place: the entry keeps its name and its override mark
    and carries the new value, the scope has as many entries as before, and
    no other scope changes. *)
Theorem env_set_in_place (env : Environment) (name : string) (v : Value)
  (m : Memory) (e : EnvEntry) :
  env_find m env name = Some e ->
  env_find (env_set env name v m) env name
  = Some (mkEntry name v (entry_is_override e))
  /\ List.length (env_entries (env_set env name v m) env)
     = List.length (env_entries m env)
  /\ (forall scope, env_addr scope <> env_addr env ->
        env_entries (env_set env name v m) scope = env_entries m scope).
Proof.
  intros Hfind. unfold env_set. rewrite Hfind.
  pose proof (entries_find_name _ _ _ Hfind) as Hname.
  split; [|split].
  - unfold env_find, env_update.
    rewrite env_entries_set_entries_eq by reflexivity.
    rewrite (entries_find_update _ _ _ e) by (reflexivity || exact Hfind).
    unfold entry_assign. rewrite Hname. reflexivity.
  - unfold env_update. rewrite env_entries_set_entries_eq by reflexivity.
    apply entries_update_length.
  - intros scope Hne. unfold env_update.
    apply env_entries_set_entries_ne. congruence.
Qed.

Lemma env_set_in_place_witness :
  env_find (env_set (Env 0 None) "x" (VInt 2) Scopes.memory) (Env 0 None) "x"
  = Some (mkEntry "x" (VInt 2) false).
Proof.
  apply (env_set_in_place (Env 0 None) "x" (VInt 2) Scopes.memory
           (mkEntry "x" (VInt 1) false)).
  reflexivity.
Defined.

(** X3.  An assignment to [name] never touches another name: whatever the
    scope chain, [env_set] and [env_force_set] leave the binding of every
    other name, in every scope, as it was. *)
Theorem env_set_other_names (env scope : Environment) (name name' : string)
  (v : Value) (m : Memory) :
  name' <> name ->
  env_find (env_set env name v m) scope name' = env_find m scope name'
  /\ env_find (env_force_set env name v m) scope name' = env_find m scope name'.
Proof.
  intros Hne. split.
  - unfold env_set.
    destruct (env_find m env name).
    + apply env_find_update_other; [reflexivity | exact Hne].
    + destruct (env_parent env) as [parent|].
      * destruct (env_find m parent name).
        -- apply env_find_update_other; [reflexivity | exact Hne].
        -- apply env_find_define_other. exact Hne.
      * apply env_find_define_other. exact Hne.
  - unfold env_force_set.
    destruct (env_find m (env_global env) name).
    + apply env_find_update_other; [reflexivity | exact Hne].
    + apply env_find_define_other. exact Hne.
Qed.

Lemma env_set_other_names_witness :
  env_find (env_set (Env 0 None) "y" (VInt 2) Scopes.memory) (Env 0 None) "x"
  = env_find Scopes.memory (Env 0 None) "x"
  /\ env_find (env_force_set (Env 0 None) "y" (VInt 2) Scopes.memory)
       (Env 0 None) "x"
     = env_find Scopes.memory (Env 0 None) "x".
Proof.
  apply (env_set_other_names (Env 0 None) (Env 0 None) "y" "x" (VInt 2)
           Scopes.memory).
  discriminate.
Defined.

(** ** Equality and truthiness of values *)

Lemma SFeqb_sym (x y : spec_float) : SFeqb x y = SFeqb y x.
Proof.
  unfold SFeqb.
  destruct x as [sx|sx| |sx mx ex], y as [sy|sy| |sy my ey];
    try destruct sx; try destruct sy; try reflexivity;
    cbn [SFcompare];
    rewrite (Z.compare_antisym ex ey);
    destruct (ex ?= ey) eqn:He; cbn [CompOpp]; try reflexivity;
    change (Pos.compare_cont Eq my mx)
      with (Pos.compare_cont (CompOpp Eq) my mx);
    rewrite <- Pos.compare_cont_antisym;
    destruct (Pos.compare_cont Eq mx my); reflexivity.
Qed.

Lemma items_equal_sym (xs : list Value) :
  Forall (fun x => forall y, value_equals x y = value_equals y x) xs ->
  forall ys,
    List.length xs = List.length ys ->
    (fix items_equal (xs ys : list Value) {struct xs} : bool :=
       match xs, ys with
       | x :: xs', y :: ys' =>
           if negb (value_equals x y) then false else items_equal xs' ys'
       | _, _ => true
       end) xs ys
    = (fix items_equal (xs ys : list Value) {struct xs} : bool :=
         match xs, ys with
         | x :: xs', y :: ys' =>
             if negb (value_equals x y) then false else items_equal xs' ys'
         | _, _ => true
         end) ys xs.
Proof.
  induction 1 as [|x xs Hx _ IH]; intros [|y ys] Hlen;
    try reflexivity; try discriminate Hlen.
  rewrite (Hx y). destruct (negb (value_equals y x)); [reflexivity|].
  apply IH. injection Hlen as Hlen. exact Hlen.
Qed.

Lemma value_equals_sym (a b : Value) : value_equals a b = value_equals b a.
Proof.
  revert b. induction a as [xs IH | a Ha] using Value_list_ind; intros b.
  - destruct b as [| | | | |ys| | | | | | |]; try reflexivity.
    cbn [value_equals value_type]. rewrite !bool_decide_eq_true_2 by reflexivity.
    cbn [negb].
    destruct (Nat.eqb_spec (List.length xs) (List.length ys)) as [Hlen|Hlen].
    + rewrite <- Hlen, Nat.eqb_refl. cbn [negb].
      apply items_equal_sym; assumption.
    + destruct (Nat.eqb_spec (List.length ys) (List.length xs)); [congruence|].
      reflexivity.
  - destruct a, b; try reflexivity; cbn [value_equals value_type];
      rewrite ?bool_decide_eq_true_2 by reflexivity; cbn [negb].
    all: try (exfalso; exact (Ha items eq_refl)).
    all: try (apply Nat.eqb_sym).
    + destruct bool_val, bool_val0; reflexivity.
    + apply Z.eqb_sym.
    + apply SFeqb_sym.
    + apply String.eqb_sym.
    + destruct (decide (builtin_val = builtin_val0)) as [->|Hne].
      * rewrite bool_decide_eq_true_2 by reflexivity. reflexivity.
      * rewrite !bool_decide_eq_false_2 by congruence. reflexivity.
Qed.

Lemma SFeqb_refl (f : spec_float) : SFeqb f f = negb (is_nan f).
Proof.
  unfold SFeqb. destruct f as [s|s| |s m e]; try destruct s; try reflexivity;
    cbn [SFcompare is_nan negb];
    rewrite Z.compare_refl, Pos.compare_cont_refl; reflexivity.
Qed.

Lemma items_equal_refl (xs : list Value) :
  Forall (fun x => value_equals x x = self_equal x) xs ->
  (fix items_equal (xs ys : list Value) {struct xs} : bool :=
     match xs, ys with
     | x :: xs', y :: ys' =>
         if negb (value_equals x y) then false else items_equal xs' ys'
     | _, _ => true
     end) xs xs
  = forallb self_equal xs.
Proof.
  induction 1 as [|x xs Hx _ IH]; [reflexivity|].
  cbn [forallb]. rewrite Hx. destruct (self_equal x); [exact IH | reflexivity].
Qed.

(** X4.  [value_equals] is symmetric, and a value equals itself exactly
    when it holds no generator, no promise and no NaN (lists are compared
    element by element, functions, classes, instances and dictionaries by
    address; generators and promises are equal to nothing). *)
Theorem value_equals_symmetric_reflexive :
  (forall a b, value_equals a b = value_equals b a)
  /\ (forall v, value_equals v v = self_equal v).
Proof.
  split; [exact value_equals_sym|].
  induction v as [xs IH | v Hv] using Value_list_ind.
  - cbn [value_equals value_type self_equal].
    rewrite bool_decide_eq_true_2 by reflexivity.
    rewrite Nat.eqb_refl. cbn [negb]. apply items_equal_refl. exact IH.
  - destruct v; cbn [value_equals value_type self_equal];
      rewrite ?bool_decide_eq_true_2 by reflexivity; cbn [negb];
      try reflexivity.
    all: try (exfalso; exact (Hv items eq_refl)).
    all: try apply Nat.eqb_refl.
    + destruct bool_val; reflexivity.
    + apply Z.eqb_refl.
    + apply SFeqb_refl.
    + apply String.eqb_refl.
Qed.

Lemma eqb_zero_iff (f : Double.t) :
  Double.eqb f Double.zero = true <-> exists s, f = S754_zero s.
Proof.
  unfold Double.eqb, SFeqb, Double.zero. split.
  - destruct f as [s|s| |s m e]; cbn [SFcompare]; intros H;
      try (destruct s; discriminate H); try discriminate H.
    exists s. reflexivity.
  - intros [s ->]. reflexivity.
Qed.

(** X5.  The values that count as false are void, [false], the integer 0,
    the float zero of either sign, the empty string and the empty list, and
    no other: a NaN, an empty dictionary and every function, instance or
    generator count as true. *)
Theorem value_is_truthy_false_iff (v : Value) :
  value_is_truthy v = false
  <-> v = VNull \/ v = VBool false \/ v = VInt 0
      \/ (exists s, v = VFloat (S754_zero s))
      \/ v = VString "" \/ v = VList [].
Proof.
  split.
  - destruct v; cbn [value_is_truthy]; intros H; try discriminate H.
    + left. reflexivity.
    + right; left. subst. reflexivity.
    + right; right; left. apply negb_false_iff, Z.eqb_eq in H. subst. reflexivity.
    + right; right; right; left.
      apply negb_false_iff, eqb_zero_iff in H as [s ->]. exists s. reflexivity.
    + right; right; right; right; left.
      apply negb_false_iff, String.eqb_eq in H. subst. reflexivity.
    + right; right; right; right; right.
      destruct items; [reflexivity | discriminate H].
  - intros [-> | [-> | [-> | [[s ->] | [-> | ->]]]]]; reflexivity.
Qed.

(** X6.  The copy of a value that holds no function and no generator
    (scalars, strings, dictionaries, builtins, classes, instances, and lists
    of these at any depth) is the same value, item by item, whatever the
    fuel; and making the copy changes no environment: every scope has the
    entries it had, so every name resolves as before. *)
Theorem value_copy_plain (fuel : nat) (v : Value) (m : Memory) :
  plain v = true ->
  exists m',
    value_copy fuel v m = Some (v, m')
    /\ (forall env, env_entries m' env = env_entries m env)
    /\ (forall env name, env_find m' env name = env_find m env name).
Proof.
  intros Hp. exists m. split; [|split].
  - apply value_copy_plain_eq. exact Hp.
  - reflexivity.
  - reflexivity.
Qed.

Lemma value_copy_plain_witness :
  exists m',
    value_copy 0 (VList [VInt 1; VString "a"; VList [VBool true]])
      (mkMemory ∅ 0)
    = Some (VList [VInt 1; VString "a"; VList [VBool true]], m')
    /\ (forall env, env_entries m' env = env_entries (mkMemory ∅ 0) env)
    /\ (forall env name,
          env_find m' env name = env_find (mkMemory ∅ 0) env name).
Proof.
  apply (value_copy_plain 0 (VList [VInt 1; VString "a"; VList [VBool true]])
           (mkMemory ∅ 0)).
  reflexivity.
Defined.

Lemma value_copy_function fuel f m :
  value_copy fuel (VFunction f) m
  = Some (VFunction (mkFunction (next_addr m) (fn_name f) (fn_node f)
                       (fn_closure f) (fn_is_lambda f) (fn_is_sequence f)),
          mkMemory (heap m) (S (next_addr m))).
Proof. destruct fuel; reflexivity. Qed.

(** X7.  Every lookup of a name bound to a function returns a new copy of
    the function record, so two lookups of the same name are never equal
    for [value_equals], which compares functions by address; both copies
    share the code and the closure of the function bound. *)
Theorem function_lookups_differ (fuel : nat) (env : Environment)
  (name : string) (m : Memory) (e : EnvEntry) (f : Function) :
  env_find m env name = Some e ->
  entry_value e = VFunction f ->
  exists f1 f2 m1 m2,
    env_get fuel env name m = Some (VFunction f1, true, m1)
    /\ env_get fuel env name m1 = Some (VFunction f2, true, m2)
    /\ value_equals (VFunction f1) (VFunction f2) = false
    /\ fn_node f1 = fn_node f /\ fn_closure f1 = fn_closure f
    /\ fn_node f2 = fn_node f /\ fn_closure f2 = fn_closure f.
Proof.
  intros Hfind Hval.
  eexists _, _, (mkMemory (heap m) (S (next_addr m))), _.
  split; [|split; [|split]].
  - rewrite (env_get_found _ _ _ _ _ Hfind), Hval, value_copy_function.
    reflexivity.
  - assert (Hfind1 : env_find (mkMemory (heap m) (S (next_addr m))) env name
                     = Some e) by exact Hfind.
    rewrite (env_get_found _ _ _ _ _ Hfind1), Hval, value_copy_function.
    reflexivity.
  - cbn [value_equals value_type fn_addr next_addr].
    rewrite bool_decide_eq_true_2 by reflexivity. cbn [negb].
    apply Nat.eqb_neq. lia.
  - repeat split.
Qed.

Lemma function_lookups_differ_witness :
  exists f1 f2 m1 m2,
    env_get 0 (Env 0 None) "f"
      (mkMemory
         {[ 0%nat := [mkEntry "f"
                        (VFunction (mkFunction 7 (Some "f") AST_BREAK
                                      (Env 0 None) false false)) false] ]} 8)
    = Some (VFunction f1, true, m1)
    /\ env_get 0 (Env 0 None) "f" m1 = Some (VFunction f2, true, m2)
    /\ value_equals (VFunction f1) (VFunction f2) = false
    /\ fn_node f1 = AST_BREAK /\ fn_closure f1 = Env 0 None
    /\ fn_node f2 = AST_BREAK /\ fn_closure f2 = Env 0 None.
Proof.
  apply (function_lookups_differ 0 (Env 0 None) "f" _
           (mkEntry "f"
              (VFunction (mkFunction 7 (Some "f") AST_BREAK (Env 0 None)
                            false false)) false)
           (mkFunction 7 (Some "f") AST_BREAK (Env 0 None) false false));
    reflexivity.
Defined.

(** ** Arithmetic and comparison *)

Lemma runtime_error_raises (msg : string) (interp : Interpreter) :
  has_error (runtime_error msg interp) = true
  /\ error_buffer (runtime_error msg interp) = snprintf 1024 msg.
Proof.
  unfold runtime_error.
  destruct (String.eqb _ msg); destruct interp; split; reflexivity.
Qed.

Lemma eqb_zero_operand (r : Value) :
  r = VInt 0 \/ (exists s, r = VFloat (S754_zero s)) ->
  exists b, numeric_operand r = Some b
            /\ Double.eqb b Double.zero = true
            /\ Double.to_int64 b = Some 0.
Proof.
  intros [-> | [s ->]]; eexists; (split; [reflexivity|]); split; reflexivity.
Qed.

(** X8.  Division by zero is caught: for a left operand that is an integer
    or a float and a right operand that is the integer 0 or a float zero of
    either sign, [/] and [//] return void and raise the division-by-zero
    error; nothing else of the state changes. *)
Theorem division_by_zero_is_caught (op : BinaryOp) (l r : Value)
  (a : Double.t) (interp : Interpreter) :
  op = OP_DIV \/ op = OP_INT_DIV ->
  numeric_operand l = Some a ->
  r = VInt 0 \/ (exists s, r = VFloat (S754_zero s)) ->
  eval_binary_values op l r interp
  = Some (value_null, runtime_error MSG_DIVISION_BY_ZERO interp)
  /\ has_error (runtime_error MSG_DIVISION_BY_ZERO interp) = true
  /\ error_buffer (runtime_error MSG_DIVISION_BY_ZERO interp)
     = MSG_DIVISION_BY_ZERO.
Proof.
  intros Hop Hl Hr.
  destruct (eqb_zero_operand r Hr) as (b & Hb & Hzero & _).
  split; [|apply runtime_error_raises].
  unfold eval_binary_values.
  destruct Hop as [-> | ->].
  - change (bool_decide (OP_DIV = OP_ADD)) with false. cbn [andb].
    rewrite Hl, Hb. cbn [eval_numeric]. rewrite Hzero. reflexivity.
  - change (bool_decide (OP_INT_DIV = OP_ADD)) with false. cbn [andb].
    rewrite Hl, Hb. cbn [eval_numeric]. rewrite Hzero. reflexivity.
Qed.

Lemma division_by_zero_is_caught_witness :
  eval_binary_values OP_INT_DIV (VInt 7) (VFloat (S754_zero true))
    (interpreter_create (fun _ => false))
  = Some (value_null,
          runtime_error MSG_DIVISION_BY_ZERO
            (interpreter_create (fun _ => false))).
Proof.
  apply (division_by_zero_is_caught OP_INT_DIV (VInt 7)
           (VFloat (S754_zero true)) (Double.of_int64 7)
           (interpreter_create (fun _ => false))).
  - right. reflexivity.
  - reflexivity.
  - right. exists true. reflexivity.
Defined.

(** X9.  The modulo operator has no zero check and raises no error: with
    a divisor that is the integer 0 or a float zero the code reaches
    [(int64_t)a % (int64_t)b] with a zero divisor, for which C defines no
    result; and whenever [%] has a result, it is an integer (also for
    float operands) and the state is unchanged. *)
Theorem modulo_has_no_zero_check (l r : Value) (interp : Interpreter) :
  (forall a,
      numeric_operand l = Some a ->
      r = VInt 0 \/ (exists s, r = VFloat (S754_zero s)) ->
      eval_binary_values OP_MOD l r interp = None)
  /\ (forall v interp',
         eval_binary_values OP_MOD l r interp = Some (v, interp') ->
         interp' = interp /\ exists z, v = VInt z).
Proof.
  unfold eval_binary_values.
  change (bool_decide (OP_MOD = OP_ADD)) with false. cbn [andb].
  split.
  - intros a Hl Hr.
    destruct (eqb_zero_operand r Hr) as (b & Hb & _ & Hint).
    rewrite Hl, Hb. cbn [eval_numeric]. rewrite Hint.
    destruct (Double.to_int64 a); reflexivity.
  - intros v interp'.
    destruct (numeric_operand l) as [a|]; [|discriminate].
    destruct (numeric_operand r) as [b|]; [|discriminate].
    cbn [eval_numeric].
    destruct (Double.to_int64 a) as [x|]; [|discriminate].
    destruct (Double.to_int64 b) as [y|]; [|discriminate].
    destruct ((y =? 0) || ((x =? INT64_MIN) && (y =? -1))); [discriminate|].
    intros [= <- <-]. split; [reflexivity|]. eexists. reflexivity.
Qed.

Lemma sub_integer (x y : Z) :
  IntDiv.exact x -> IntDiv.exact y -> IntDiv.exact (x - y) ->
  Double.to_int64 (Double.sub (Double.of_int64 x) (Double.of_int64 y))
  = Some (x - y).
Proof.
  intros Hx Hy Hxy.
  destruct (Z.eq_dec y 0) as [->|Hy0].
  { rewrite of_int64_zero, Z.sub_0_r.
    pose proof (to_int64_of_int64 x Hx) as Hrx.
    destruct (Z.eq_dec x 0) as [->|Hx0]; [reflexivity|].
    destruct (of_int64_integer x Hx0 Hx) as (m & e & E & _).
    rewrite E in *. exact Hrx. }
  destruct (of_int64_integer y Hy0 Hy) as (m2 & e2 & E2 & Hd2 & He2 & Hm2).
  destruct (Z.eq_dec x 0) as [->|Hx0].
  { rewrite of_int64_zero, E2. cbn [Double.sub SFsub].
    unfold IntDiv.exact in Hy.
    assert (HP : 0 <= Z.abs y <= 2 ^ 53) by lia.
    rewrite (to_int64_integer (negb (y <? 0)) (Z.abs y)) by
      (exact HP || (exists m2, e2; repeat split; assumption)).
    f_equal. destruct (Z.ltb_spec y 0); cbn [negb]; lia. }
  destruct (of_int64_integer x Hx0 Hx) as (m1 & e1 & -> & Hd1 & He1 & Hm1).
  rewrite E2. cbn [Double.sub SFsub].
  apply normalize_integer; [lia| |exact Hxy].
  rewrite Z.mul_sub_distr_l, Z.mul_sub_distr_r.
  f_equal; apply aligned_integer; try assumption; lia.
Qed.

(** X10.  Integer addition, subtraction and multiplication are exact as
    long as the operands and the result have magnitude at most two to the
    53: although both operands go through [double], the operator returns
    the integer sum, difference or product. *)
Theorem integer_arithmetic_exact (a b : Z) (interp : Interpreter) :
  IntDiv.exact a -> IntDiv.exact b ->
  (IntDiv.exact (a + b) ->
   eval_binary_values OP_ADD (VInt a) (VInt b) interp
   = Some (VInt (a + b), interp))
  /\ (IntDiv.exact (a - b) ->
      eval_binary_values OP_SUB (VInt a) (VInt b) interp
      = Some (VInt (a - b), interp))
  /\ (IntDiv.exact (a * b) ->
      eval_binary_values OP_MUL (VInt a) (VInt b) interp
      = Some (VInt (a * b), interp)).
Proof.
  intros Ha Hb. split; [|split]; intros Hr.
  - apply add_values; assumption.
  - unfold eval_binary_values.
    change (bool_decide (OP_SUB = OP_ADD)) with false.
    cbn [andb numeric_operand is_float orb eval_numeric].
    rewrite sub_integer by assumption. reflexivity.
  - apply mul_values; assumption.
Qed.

Lemma integer_arithmetic_exact_witness :
  eval_binary_values OP_SUB (VInt (-9007199254740000)) (VInt 992)
    (interpreter_create (fun _ => false))
  = Some (VInt (-9007199254740000 - 992),
          interpreter_create (fun _ => false)).
Proof.
  apply (integer_arithmetic_exact (-9007199254740000) 992
           (interpreter_create (fun _ => false)));
    vm_compute; discriminate.
Defined.

(** X11.  On integers of magnitude at most two to the 53 the six
    comparison operators, which compare the operands as doubles, agree with
    the comparison of the integers. *)
Theorem integer_comparisons_exact (a b : Z) (interp : Interpreter) :
  IntDiv.exact a -> IntDiv.exact b ->
  eval_binary_values OP_EQ (VInt a) (VInt b) interp
  = Some (VBool (a =? b), interp)
  /\ eval_binary_values OP_NE (VInt a) (VInt b) interp
     = Some (VBool (negb (a =? b)), interp)
  /\ eval_binary_values OP_LT (VInt a) (VInt b) interp
     = Some (VBool (a <? b), interp)
  /\ eval_binary_values OP_LE (VInt a) (VInt b) interp
     = Some (VBool (a <=? b), interp)
  /\ eval_binary_values OP_GT (VInt a) (VInt b) interp
     = Some (VBool (b <? a), interp)
  /\ eval_binary_values OP_GE (VInt a) (VInt b) interp
     = Some (VBool (b <=? a), interp).
Proof.
  intros Ha Hb.
  pose proof (compare_integer a b Ha Hb) as Hab.
  pose proof (compare_integer b a Hb Ha) as Hba.
  unfold eval_binary_values.
  change (bool_decide (OP_EQ = OP_ADD)) with false.
  change (bool_decide (OP_NE = OP_ADD)) with false.
  change (bool_decide (OP_LT = OP_ADD)) with false.
  change (bool_decide (OP_LE = OP_ADD)) with false.
  change (bool_decide (OP_GT = OP_ADD)) with false.
  change (bool_decide (OP_GE = OP_ADD)) with false.
  cbn [andb numeric_operand eval_numeric value_bool].
  unfold Double.eqb, Double.ltb, Double.leb, SFeqb, SFltb, SFleb.
  rewrite Hab, Hba.
  rewrite Z.eqb_compare. unfold Z.ltb, Z.leb.
  repeat split; destruct (a ?= b); try reflexivity;
    destruct (b ?= a); reflexivity.
Qed.

Lemma integer_comparisons_exact_witness :
  eval_binary_values OP_LT (VInt (-3)) (VInt 9007199254740992)
    (interpreter_create (fun _ => false))
  = Some (VBool true, interpreter_create (fun _ => false)).
Proof.
  apply (integer_comparisons_exact (-3) 9007199254740992
           (interpreter_create (fun _ => false)));
    vm_compute; discriminate.
Defined.

(** ** Strings *)

Lemma substring_0_all (s : string) (n : nat) :
  (String.length s <= n)%nat -> String.substring 0 n s = s.
Proof.
  revert n. induction s as [|c s IH]; intros [|n] Hn; simpl in *;
    try reflexivity; try lia.
  rewrite IH by lia. reflexivity.
Qed.

Lemma substring_0_app_l (s t : string) (n : nat) :
  (n <= String.length s)%nat ->
  String.substring 0 n (s +:+ t) = String.substring 0 n s.
Proof.
  revert n. induction s as [|c s IH]; intros [|n] Hn; simpl in *;
    try reflexivity; try lia.
  - destruct t; reflexivity.
  - rewrite IH by lia. reflexivity.
Qed.

Lemma substring_0_substring_0 (s : string) (n k : nat) :
  (n <= k)%nat ->
  String.substring 0 n (String.substring 0 k s) = String.substring 0 n s.
Proof.
  revert n k. induction s as [|c s IH]; intros [|n] [|k] Hn; simpl in *;
    try reflexivity; try lia.
  rewrite IH by lia. reflexivity.
Qed.

Lemma length_substring_0 (s : string) (n : nat) :
  (n <= String.length s)%nat -> String.length (String.substring 0 n s) = n.
Proof.
  revert n. induction s as [|c s IH]; intros [|n] Hn; simpl in *;
    try reflexivity; try lia.
  rewrite IH by lia. reflexivity.
Qed.

Lemma string_length_app (s t : string) :
  String.length (s +:+ t) = (String.length s + String.length t)%nat.
Proof.
  induction s as [|c s IH]; simpl; [reflexivity | rewrite IH; reflexivity].
Qed.

(** What [value_to_string] followed by the removal of the first and last
    characters leaves of a string: the string itself, or its first [n]
    characters when the buffer of [n + 3] bytes was too short. *)
Lemma strip_quotes_snprintf (n : nat) (c d : ascii) (s : string) :
  strip_quotes
    (String.substring 0 (S (S n)) (String c (s +:+ String d EmptyString)))
  = String.substring 0 n s.
Proof.
  unfold strip_quotes.
  assert (Hlen : String.length (s +:+ String d EmptyString)
                 = S (String.length s))
    by (rewrite string_length_app; simpl; lia).
  destruct (le_lt_dec (String.length s) n) as [Hle|Hgt].
  - rewrite (substring_0_all (String c _)) by (simpl; lia).
    change (String.length (String c (s +:+ String d EmptyString)))
      with (S (String.length (s +:+ String d EmptyString))).
    rewrite Hlen.
    replace (S (S (String.length s)) - 2)%nat with (String.length s) by lia.
    change (String.substring 1 (String.length s)
              (String c (s +:+ String d EmptyString)))
      with (String.substring 0 (String.length s)
              (s +:+ String d EmptyString)).
    rewrite substring_0_app_l by lia.
    rewrite !substring_0_all by lia. reflexivity.
  - change (String.substring 0 (S (S n))
              (String c (s +:+ String d EmptyString)))
      with (String c (String.substring 0 (S n)
                        (s +:+ String d EmptyString))).
    rewrite substring_0_app_l by lia.
    change (String.length (String c (String.substring 0 (S n) s)))
      with (S (String.length (String.substring 0 (S n) s))).
    rewrite length_substring_0 by lia.
    replace (S (S n) - 2)%nat with n by lia.
    change (String.substring 1 n (String c (String.substring 0 (S n) s)))
      with (String.substring 0 n (String.substring 0 (S n) s)).
    apply substring_0_substring_0. lia.
Qed.

Lemma quoted_stripped (s : string) :
  strip_quotes (snprintf 1024 (dquote +:+ s +:+ dquote))
  = String.substring 0 1021 s.
Proof. apply (strip_quotes_snprintf 1021). Qed.

(** X12.  [+] with a string operand concatenates.  Each string operand
    passes through the 1024-byte buffer of [value_to_string] with its two
    quotes, so it contributes its first 1021 characters: the result is the
    plain concatenation when both strings are that short.  An integer
    operand contributes its decimal form. *)
Theorem string_concatenation (a b : string) (n : Z) (interp : Interpreter) :
  eval_binary_values OP_ADD (VString a) (VString b) interp
  = Some (VString (String.substring 0 1021 a +:+ String.substring 0 1021 b),
          interp)
  /\ ((String.length a <= 1021)%nat -> (String.length b <= 1021)%nat ->
      eval_binary_values OP_ADD (VString a) (VString b) interp
      = Some (VString (a +:+ b), interp))
  /\ eval_binary_values OP_ADD (VString a) (VInt n) interp
     = Some (VString (String.substring 0 1021 a +:+ pretty n), interp)
  /\ eval_binary_values OP_ADD (VInt n) (VString a) interp
     = Some (VString (pretty n +:+ String.substring 0 1021 a), interp).
Proof.
  assert (Hss : eval_binary_values OP_ADD (VString a) (VString b) interp
                = Some (VString (String.substring 0 1021 a
                                 +:+ String.substring 0 1021 b), interp)).
  { unfold eval_binary_values.
    change (bool_decide (OP_ADD = OP_ADD)) with true.
    cbn [is_string orb andb value_to_string].
    rewrite !quoted_stripped. reflexivity. }
  split; [exact Hss|]. split; [|split].
  - intros Ha Hb. rewrite Hss, !substring_0_all by assumption. reflexivity.
  - unfold eval_binary_values.
    change (bool_decide (OP_ADD = OP_ADD)) with true.
    cbn [is_string orb andb value_to_string].
    rewrite quoted_stripped. reflexivity.
  - unfold eval_binary_values.
    change (bool_decide (OP_ADD = OP_ADD)) with true.
    cbn [is_string orb andb value_to_string].
    rewrite quoted_stripped. reflexivity.
Qed.

Lemma string_repeat_length (n : nat) (s : string) :
  String.length (string_repeat n s) = (n * String.length s)%nat.
Proof.
  induction n as [|n IH]; [reflexivity|].
  cbn [string_repeat]. rewrite string_length_app, IH. reflexivity.
Qed.

(** X13.  A string of length [len] times a non-negative integer [n] is
    the string repeated [n] times, of [n] times its length, as long as the
    [len * n + 1] bytes of the result are at most [PTRDIFF_MAX].  For a
    larger product with [n > 0] there is no defined result: the size
    [len * n + 1] is computed in [size_t], so it wraps or the allocation
    fails, and the loop of [strcat] has no block large enough to write
    to. *)
Theorem string_repetition (s : string) (n : Z) (interp : Interpreter) :
  (0 <= n -> Z.of_nat (String.length s) * n + 1 <= PTRDIFF_MAX ->
   eval_binary_values OP_MUL (VString s) (VInt n) interp
   = Some (VString (string_repeat (Z.to_nat n) s), interp)
   /\ String.length (string_repeat (Z.to_nat n) s)
      = (Z.to_nat n * String.length s)%nat)
  /\ (0 < n -> PTRDIFF_MAX < Z.of_nat (String.length s) * n + 1 ->
      eval_binary_values OP_MUL (VString s) (VInt n) interp = None).
Proof.
  unfold eval_binary_values.
  change (bool_decide (OP_MUL = OP_ADD)) with false. cbn [andb].
  unfold string_repeat_fits, PTRDIFF_MAX.
  set (len := Z.of_nat (String.length s)).
  assert (Hlen : 0 <= len) by (unfold len; lia).
  split.
  - intros Hn Hfit. split; [|apply string_repeat_length].
    assert (Hprod : 0 <= len * n) by (apply Z.mul_nonneg_nonneg; lia).
    rewrite Z.mod_small by lia.
    destruct (Z.ltb_spec 0 n).
    + rewrite (proj2 (Z.leb_le _ _) (Z.le_refl _)).
      rewrite (proj2 (Z.leb_le _ _) Hfit). reflexivity.
    + assert (n = 0) by lia. subst n. rewrite Z.mul_0_r. reflexivity.
  - intros Hn Hbig. rewrite (proj2 (Z.ltb_lt 0 n) Hn).
    pose proof (Z.mod_pos_bound (len * n + 1) (2 ^ 64) ltac:(lia)) as Hmod.
    destruct (Z.leb_spec (len * n + 1) ((len * n + 1) mod 2 ^ 64)) as [Hle|Hgt];
      [|reflexivity].
    destruct (Z.leb_spec ((len * n + 1) mod 2 ^ 64) (2 ^ 63 - 1)) as [Hsmall|];
      [|reflexivity].
    exfalso. lia.
Qed.

Lemma string_repetition_witness :
  eval_binary_values OP_MUL (VString "ab") (VInt 3)
    (interpreter_create (fun _ => false))
  = Some (VString "ababab", interpreter_create (fun _ => false))
  /\ eval_binary_values OP_MUL (VString "abcd") (VInt (2 ^ 62))
       (interpreter_create (fun _ => false))
     = None.
Proof.
  split.
  - apply (proj1 (string_repetition "ab" 3
                    (interpreter_create (fun _ => false))));
      [lia | vm_compute; discriminate].
  - apply (proj2 (string_repetition "abcd" (2 ^ 62)
                    (interpreter_create (fun _ => false))));
      [reflexivity | vm_compute; reflexivity].
Defined.

(** X14.  [and] and [or] evaluate the right operand only when the left one
    does not decide: with a left operand that is false for [and], or true
    for [or], the result is that boolean and the state is the one the left
    operand left.  When both operands are evaluated the result is the
    truth value of the right one, always a boolean. *)
Theorem and_or_short_circuit (fuel : nat) (lhs rhs : ASTNode) (l : Value)
  (interp interp1 : Interpreter) :
  eval_expr fuel lhs interp = Some (l, interp1) ->
  (value_is_truthy l = false ->
   eval_expr (S fuel) (AST_BINARY_OP OP_AND lhs rhs) interp
   = Some (VBool false, interp1))
  /\ (value_is_truthy l = true ->
      eval_expr (S fuel) (AST_BINARY_OP OP_OR lhs rhs) interp
      = Some (VBool true, interp1))
  /\ (forall r interp2,
         eval_expr fuel rhs interp1 = Some (r, interp2) ->
         (value_is_truthy l = true ->
          eval_expr (S fuel) (AST_BINARY_OP OP_AND lhs rhs) interp
          = Some (VBool (value_is_truthy r), interp2))
         /\ (value_is_truthy l = false ->
             eval_expr (S fuel) (AST_BINARY_OP OP_OR lhs rhs) interp
             = Some (VBool (value_is_truthy r), interp2))).
Proof.
  intros Hl.
  assert (Hand : eval_expr (S fuel) (AST_BINARY_OP OP_AND lhs rhs) interp
                 = if negb (value_is_truthy l) then Some (VBool false, interp1)
                   else match eval_expr fuel rhs interp1 with
                        | Some (r, i) => Some (VBool (value_is_truthy r), i)
                        | None => None
                        end).
  { rewrite eval_expr_S. cbn [Step.eval_expr]. unfold Step.eval_binary.
    fold (eval_expr fuel). rewrite Hl. reflexivity. }
  assert (Hor : eval_expr (S fuel) (AST_BINARY_OP OP_OR lhs rhs) interp
                = if value_is_truthy l then Some (VBool true, interp1)
                  else match eval_expr fuel rhs interp1 with
                       | Some (r, i) => Some (VBool (value_is_truthy r), i)
                       | None => None
                       end).
  { rewrite eval_expr_S. cbn [Step.eval_expr]. unfold Step.eval_binary.
    fold (eval_expr fuel). rewrite Hl. reflexivity. }
  split; [|split].
  - intros Hf. rewrite Hand, Hf. reflexivity.
  - intros Ht. rewrite Hor, Ht. reflexivity.
  - intros r interp2 Hr. split; intros Hv.
    + rewrite Hand, Hv, Hr. reflexivity.
    + rewrite Hor, Hv, Hr. reflexivity.
Qed.

Lemma and_or_short_circuit_witness :
  eval_expr 2
    (AST_BINARY_OP OP_AND (AST_BOOL false)
       (AST_BINARY_OP OP_DIV (AST_INTEGER 1) (AST_INTEGER 0)))
    (interpreter_create (fun _ => false))
  = Some (VBool false, interpreter_create (fun _ => false)).
Proof.
  apply (and_or_short_circuit 1 (AST_BOOL false)
           (AST_BINARY_OP OP_DIV (AST_INTEGER 1) (AST_INTEGER 0))
           (VBool false) (interpreter_create (fun _ => false))
           (interpreter_create (fun _ => false)));
    reflexivity.
Defined.

(** ** Expressions and blocks *)

Lemma set_mem_same (interp : Interpreter) : set_mem (mem interp) interp = interp.
Proof. destruct interp. reflexivity. Qed.

Lemma copy_plain (fuel : nat) (v : Value) (interp : Interpreter) :
  plain v = true -> copy fuel v interp = Some (v, interp).
Proof.
  intros Hp. unfold copy, lift_mem.
  rewrite value_copy_plain_eq by exact Hp. rewrite set_mem_same. reflexivity.
Qed.

Lemma lookup_unbound (fuel : nat) (env : Environment) (name : string)
  (interp : Interpreter) :
  Forall (fun scope => env_find (mem interp) scope name = None)
    (scope_chain env) ->
  lookup fuel env name interp = Some (value_null, false, interp).
Proof.
  intros H. unfold lookup.
  rewrite (env_get_unbound_eq fuel env name (mem interp) H).
  rewrite set_mem_same. reflexivity.
Qed.

(** X15.  In the statement loop of a block, at any position, a statement
    that leaves an error raised or a break, continue or return signal set is
    the last one executed: the rest of the block is skipped.  The state is
    then the one that statement left, except when a generator is suspending
    (the return signal set while a generator runs, and no error): the block
    then pushes one frame on the stack of the generator, which records where
    to resume, at the same statement if that statement pushed a frame of
    its own and at the next one otherwise.  Without a signal the block goes
    on with the next statement.  A block entered while no generator is
    being resumed runs this loop from its first statement. *)
Theorem block_stops_at_signal (fuel : nat) (addr i : nat) (s : ASTNode)
  (rest : list ASTNode) (v : Value) (interp interp1 : Interpreter) :
  eval_stmt fuel s interp = Some (v, interp1) ->
  (has_error interp1 = true ->
   Step.exec_block_loop (evaluator fuel) addr (s :: rest) i interp
   = Some interp1)
  /\ (Step.control_signal interp1 = true -> suspending interp1 = false ->
      Step.exec_block_loop (evaluator fuel) addr (s :: rest) i interp
      = Some interp1)
  /\ (suspending interp1 = true ->
      Step.exec_block_loop (evaluator fuel) addr (s :: rest) i interp
      = Some (push_frame
                (frame_with_index
                   (if (stack_count interp <? stack_count interp1)%nat
                    then i else S i)
                   (new_frame GEN_FRAME_BLOCK addr)) interp1))
  /\ (Step.control_signal interp1 = false ->
      Step.exec_block_loop (evaluator fuel) addr (s :: rest) i interp
      = Step.exec_block_loop (evaluator fuel) addr rest (S i) interp1)
  /\ (is_resuming interp = false ->
      exec_block (S fuel) (NodeArray addr (s :: rest)) interp
      = Step.exec_block_loop (evaluator fuel) addr (s :: rest) 0 interp).
Proof.
  intros Hs.
  assert (Hloop :
    Step.exec_block_loop (evaluator fuel) addr (s :: rest) i interp
    = if Step.control_signal interp1 then
        if suspending interp1 then
          Some (push_frame
                  (frame_with_index
                     (if (stack_count interp <? stack_count interp1)%nat
                      then i else S i)
                     (new_frame GEN_FRAME_BLOCK addr)) interp1)
        else Some interp1
      else Step.exec_block_loop (evaluator fuel) addr rest (S i) interp1).
  { cbn [Step.exec_block_loop]. fold (eval_stmt fuel). rewrite Hs.
    reflexivity. }
  split; [|split; [|split; [|split]]].
  - intros Herr. rewrite Hloop.
    unfold Step.control_signal, suspending. rewrite Herr.
    rewrite orb_true_r, andb_false_r. reflexivity.
  - intros Hsig Hsusp. rewrite Hloop, Hsig, Hsusp. reflexivity.
  - intros Hsusp. rewrite Hloop, Hsusp.
    assert (Hsig : Step.control_signal interp1 = true).
    { unfold suspending in Hsusp. unfold Step.control_signal.
      destruct (has_return interp1); [reflexivity | discriminate Hsusp]. }
    rewrite Hsig. reflexivity.
  - intros Hsig. rewrite Hloop, Hsig. reflexivity.
  - intros Hres. rewrite exec_block_S.
    unfold Step.exec_block, take_resume_frame.
    rewrite Hres. reflexivity.
Qed.

Lemma block_stops_at_signal_witness :
  exec_block 3
    (NodeArray 5
       [AST_EXPR_STMT (AST_BINARY_OP OP_DIV (AST_INTEGER 1) (AST_INTEGER 0));
        Errors.declare_after])
    (interpreter_create (fun _ => false))
  = Some (runtime_error MSG_DIVISION_BY_ZERO
            (interpreter_create (fun _ => false)))
  /\ (exists v interp1,
         eval_stmt 2 (AST_YIELD (Some (AST_INTEGER 1))) Suspension.running
         = Some (v, interp1)
         /\ suspending interp1 = true
         /\ exec_block 3 Suspension.body Suspension.running
            = Some (push_frame
                      (frame_with_index 1 (new_frame GEN_FRAME_BLOCK 901))
                      interp1)).
Proof.
  split.
  - pose proof (block_stops_at_signal 2 5 0
                  (AST_EXPR_STMT
                     (AST_BINARY_OP OP_DIV (AST_INTEGER 1) (AST_INTEGER 0)))
                  [Errors.declare_after]
                  value_null (interpreter_create (fun _ => false))
                  (runtime_error MSG_DIVISION_BY_ZERO
                     (interpreter_create (fun _ => false)))
                  eq_refl) as (Herr & _ & _ & _ & Hblock).
    rewrite (Hblock eq_refl). apply Herr. reflexivity.
  - assert (Hrun : exists v interp1,
               eval_stmt 2 (AST_YIELD (Some (AST_INTEGER 1)))
                 Suspension.running
               = Some (v, interp1)
               /\ suspending interp1 = true
               /\ (stack_count Suspension.running <? stack_count interp1)%nat
                  = false).
    { do 2 eexists. split; [vm_compute; reflexivity|].
      split; reflexivity. }
    destruct Hrun as (v & interp1 & Hs & Hsusp & Hcount).
    exists v, interp1. split; [exact Hs|]. split; [exact Hsusp|].
    pose proof (block_stops_at_signal 2 901 0
                  (AST_YIELD (Some (AST_INTEGER 1)))
                  [AST_YIELD (Some (AST_INTEGER 2))]
                  v Suspension.running interp1 Hs)
      as (_ & _ & Hpush & _ & Hblock).
    unfold Suspension.body. rewrite (Hblock eq_refl).
    rewrite (Hpush Hsusp), Hcount. reflexivity.
Defined.

(** X16.  A name that no scope of the current chain binds: the lookup
    reports it as not found and changes nothing; reading it as a variable
    returns void and raises the unknown-name error; calling it raises the
    error of an unknown protocol without evaluating any argument. *)
Theorem unknown_name_raises (fuel : nat) (name : string)
  (args : list ASTNode) (interp : Interpreter) :
  Forall (fun scope => env_find (mem interp) scope name = None)
    (scope_chain (current_env interp)) ->
  env_get fuel (current_env interp) name (mem interp)
  = Some (value_null, false, mem interp)
  /\ eval_expr (S fuel) (AST_IDENTIFIER name) interp
     = Some (value_null,
             runtime_error
               (msg256 ["'"; name;
                        "' is unknown. Perhaps you intended to designate it first."])
               interp)
  /\ eval_expr (S fuel) (AST_CALL name args) interp
     = Some (value_null,
             runtime_error
               (msg256 ["'"; name;
                        "' is unknown. Perhaps you intended to define it first."])
               interp).
Proof.
  intros H. pose proof (lookup_unbound fuel _ name interp H) as Hlook.
  split; [|split].
  - apply env_get_unbound_eq. exact H.
  - rewrite eval_expr_S. cbn [Step.eval_expr]. rewrite Hlook. reflexivity.
  - rewrite eval_expr_S. cbn [Step.eval_expr]. unfold Step.eval_call.
    rewrite Hlook. reflexivity.
Qed.

Lemma unknown_name_raises_witness :
  eval_expr 1 (AST_IDENTIFIER "nowhere") (interpreter_create (fun _ => false))
  = Some (value_null,
          runtime_error
            (msg256 ["'"; "nowhere";
                     "' is unknown. Perhaps you intended to designate it first."])
            (interpreter_create (fun _ => false))).
Proof.
  apply (unknown_name_raises 0 "nowhere" []
           (interpreter_create (fun _ => false))).
  repeat constructor.
Defined.

(** X17.  Reading [object[index]] never raises an error.  On a list and an
    integer index inside the bounds it returns a copy of the element (the
    element itself when it holds no function and no generator); outside
    the bounds, negative indices included, it returns void; on anything
    that is not a list with an integer index (a string, a float index) it
    returns void as well. *)
Theorem index_read (fuel : nat) (object index : ASTNode) (obj idx : Value)
  (interp interp1 interp2 : Interpreter) :
  eval_expr fuel object interp = Some (obj, interp1) ->
  eval_expr fuel index interp1 = Some (idx, interp2) ->
  (forall items i item,
      obj = VList items -> idx = VInt i ->
      0 <= i -> items !! Z.to_nat i = Some item -> plain item = true ->
      eval_expr (S fuel) (AST_INDEX object index) interp = Some (item, interp2))
  /\ (forall items i,
         obj = VList items -> idx = VInt i ->
         i < 0 \/ Z.of_nat (List.length items) <= i ->
         eval_expr (S fuel) (AST_INDEX object index) interp
         = Some (value_null, interp2))
  /\ (value_type obj <> VAL_LIST \/ value_type idx <> VAL_INT ->
      eval_expr (S fuel) (AST_INDEX object index) interp
      = Some (value_null, interp2)).
Proof.
  intros Hobj Hidx.
  assert (Hread : eval_expr (S fuel) (AST_INDEX object index) interp
                  = match obj, idx with
                    | VList _, VInt i =>
                        lift_mem (value_list_get fuel obj i) interp2
                    | _, _ => Some (value_null, interp2)
                    end).
  { rewrite eval_expr_S. cbn [Step.eval_expr]. fold (eval_expr fuel).
    rewrite Hobj, Hidx. reflexivity. }
  rewrite Hread. split; [|split].
  - intros items i item -> -> Hi Hitem Hp.
    unfold lift_mem, value_list_get.
    apply lookup_lt_Some in Hitem as Hlt.
    destruct (Z.ltb_spec i 0); [lia|].
    destruct (Z.leb_spec (Z.of_nat (List.length items)) i); [lia|].
    cbn [orb]. rewrite Hitem, value_copy_plain_eq by exact Hp.
    rewrite set_mem_same. reflexivity.
  - intros items i -> -> Hout.
    unfold lift_mem, value_list_get.
    destruct (Z.ltb_spec i 0); cbn [orb];
      [rewrite set_mem_same; reflexivity|].
    destruct (Z.leb_spec (Z.of_nat (List.length items)) i); [|lia].
    rewrite set_mem_same. reflexivity.
  - intros [Hne | Hne]; destruct obj, idx; try reflexivity;
      exfalso; apply Hne; reflexivity.
Qed.

Lemma index_read_witness :
  eval_expr 3
    (AST_INDEX (AST_LIST [AST_INTEGER 10; AST_INTEGER 20]) (AST_INTEGER (-1)))
    (interpreter_create (fun _ => false))
  = Some (value_null, interpreter_create (fun _ => false)).
Proof.
  apply (proj1 (proj2
           (index_read 2 (AST_LIST [AST_INTEGER 10; AST_INTEGER 20])
              (AST_INTEGER (-1)) (VList [VInt 10; VInt 20]) (VInt (-1))
              (interpreter_create (fun _ => false))
              (interpreter_create (fun _ => false))
              (interpreter_create (fun _ => false))
              eq_refl eq_refl))
         [VInt 10; VInt 20] (-1) eq_refl eq_refl).
  left. lia.
Defined.

(** X18.  An assignment to a list element never changes the list that a
    variable holds: the object expression is evaluated to a copy, the
    element of that copy is overwritten and the copy is discarded, so with
    an index inside the bounds the state is the one left by the evaluation
    of the object and the index.  An index outside the bounds raises the
    out-of-bounds error, and a target that is not a list with an integer
    index the invalid-access error. *)
Theorem index_assignment_is_lost (fuel : nat) (object index : ASTNode)
  (obj idx val : Value) (is_designate : bool)
  (interp interp1 interp2 : Interpreter) :
  eval_expr fuel object interp = Some (obj, interp1) ->
  eval_expr fuel index interp1 = Some (idx, interp2) ->
  plain val = true ->
  (forall items i,
      obj = VList items -> idx = VInt i ->
      0 <= i < Z.of_nat (List.length items) ->
      assign_to_target (S fuel) (AST_INDEX object index) val is_designate
        interp
      = Some interp2)
  /\ (forall items i,
         obj = VList items -> idx = VInt i ->
         i < 0 \/ Z.of_nat (List.length items) <= i ->
         assign_to_target (S fuel) (AST_INDEX object index) val is_designate
           interp
         = Some (runtime_error "List index out of bounds." interp2))
  /\ (value_type obj <> VAL_LIST \/ value_type idx <> VAL_INT ->
      assign_to_target (S fuel) (AST_INDEX object index) val is_designate
        interp
      = Some (runtime_error "Invalid index access." interp2)).
Proof.
  intros Hobj Hidx Hp.
  assert (Hassign :
    assign_to_target (S fuel) (AST_INDEX object index) val is_designate interp
    = match obj, idx with
      | VList items, VInt i =>
          if (0 <=? i) && (i <? Z.of_nat (List.length items))
          then Some interp2
          else Some (runtime_error "List index out of bounds." interp2)
      | _, _ => Some (runtime_error "Invalid index access." interp2)
      end).
  { change (assign_to_target (S fuel))
      with (Step.assign_to_target fuel (evaluator fuel)).
    cbn [Step.assign_to_target]. fold (eval_expr fuel).
    rewrite Hobj, Hidx. rewrite (copy_plain fuel val interp2 Hp).
    destruct obj, idx; reflexivity. }
  rewrite Hassign. split; [|split].
  - intros items i -> -> Hi.
    destruct (Z.leb_spec 0 i); [|lia].
    destruct (Z.ltb_spec i (Z.of_nat (List.length items))); [|lia].
    reflexivity.
  - intros items i -> -> Hout.
    destruct (Z.leb_spec 0 i); cbn [andb]; [|reflexivity].
    destruct (Z.ltb_spec i (Z.of_nat (List.length items))); [lia|].
    reflexivity.
  - intros [Hne | Hne]; destruct obj, idx; try reflexivity;
      exfalso; apply Hne; reflexivity.
Qed.

Lemma index_assignment_is_lost_witness :
  assign_to_target 3
    (AST_INDEX (AST_LIST [AST_INTEGER 10; AST_INTEGER 20]) (AST_INTEGER 0))
    (VInt 9) false (interpreter_create (fun _ => false))
  = Some (interpreter_create (fun _ => false)).
Proof.
  apply (proj1
           (index_assignment_is_lost 2
              (AST_LIST [AST_INTEGER 10; AST_INTEGER 20]) (AST_INTEGER 0)
              (VList [VInt 10; VInt 20]) (VInt 0) (VInt 9) false
              (interpreter_create (fun _ => false))
              (interpreter_create (fun _ => false))
              (interpreter_create (fun _ => false))
              eq_refl eq_refl eq_refl)
           [VInt 10; VInt 20] 0 eq_refl eq_refl).
  cbn. lia.
Defined.

Lemma copy_current_env fuel val interp v interp' :
  copy fuel val interp = Some (v, interp') ->
  current_env interp' = current_env interp.
Proof.
  intros H. apply copy_only_memory in H. rewrite H. destruct interp. reflexivity.
Qed.

(** X19.  A call gives the caller its scope back: whatever the function
    (protocol, lambda or sequence) and however its body ends, when
    [interpreter_call] returns the current environment is the caller's
    again; and the return signal of a protocol body does not reach the
    caller: after the call of a protocol that is not a sequence the signal
    is cleared. *)
Theorem call_restores_scope (fuel : nat) (func : Function) (self_val : Value)
  (argv : list Value) (interp interp' : Interpreter) (v : Value) :
  interpreter_call (S fuel) func self_val argv interp = Some (v, interp') ->
  current_env interp' = current_env interp
  /\ (fn_is_lambda func = false -> fn_is_sequence func = false ->
      has_return interp' = false).
Proof.
  change (interpreter_call (S fuel))
    with (Step.interpreter_call fuel (evaluator fuel)).
  unfold Step.interpreter_call.
  destruct (new_env (Some (fn_closure func)) interp) as [call_env i0].
  match goal with
  | |- context [match ?c with Some _ => _ | None => None end] =>
      destruct c as [i1|]; [|discriminate]
  end.
  destruct (fn_is_lambda func).
  - destruct (fn_node func); try discriminate.
    destruct (Step.bind_params fuel (evaluator fuel) false params 0 argv i1)
      as [i2|]; [|discriminate].
    match goal with
    | |- context [match ?c with Some _ => _ | None => None end] =>
        destruct c as [[r i3]|]; [|discriminate]
    end.
    intros [= <- <-]. split; [destruct i3; reflexivity | discriminate].
  - destruct (fn_node func); try discriminate.
    destruct (Step.bind_params fuel (evaluator fuel) true params 0 argv i1)
      as [i2|]; [|discriminate].
    destruct (fn_is_sequence func).
    + unfold Step.value_generator_new.
      destruct (function_copy func (mem (set_current_env (current_env interp) i2)))
        as [f' m'].
      match goal with
      | |- context [copy ?f ?x ?i] => destruct (copy f x i) as [[s' i3]|] eqn:Hc
      end; [|discriminate].
      intros [= <- <-]. split; [|discriminate].
      apply copy_current_env in Hc. rewrite Hc. destruct i2. reflexivity.
    + destruct (Step.exec_block (evaluator fuel) body i2) as [i3|];
        [|discriminate].
      unfold Step.take_return.
      destruct (has_return i3) eqn:Hret; intros [= <- <-];
        (split; [destruct i3; reflexivity|]); intros _ _.
      * destruct i3. reflexivity.
      * destruct i3. exact Hret.
Qed.

Lemma call_restores_scope_witness :
  exists interp',
    interpreter_call 3
      (mkFunction 7 (Some "f")
         (AST_PROTOCOL "f" [] (NodeArray 801 [AST_YIELD (Some (AST_INTEGER 1))]) false false)
         (global_env (interpreter_create (fun _ => false))) false false)
      value_null [] (interpreter_create (fun _ => false))
    = Some (VInt 1, interp')
    /\ current_env interp'
       = current_env (interpreter_create (fun _ => false))
    /\ has_return interp' = false.
Proof.
  eexists. split; [reflexivity|].
  match goal with
  | |- current_env ?i' = _ /\ _ =>
      pose proof (call_restores_scope 2
        (mkFunction 7 (Some "f")
           (AST_PROTOCOL "f" [] (NodeArray 801 [AST_YIELD (Some (AST_INTEGER 1))]) false false)
           (global_env (interpreter_create (fun _ => false))) false false)
        value_null [] (interpreter_create (fun _ => false)) i' (VInt 1)
        eq_refl) as [Henv Hret]
  end.
  split; [exact Henv | exact (Hret eq_refl eq_refl)].
Defined.

(** *** [builtin_span] *)

Lemma span_loop_count (cnt : nat) :
  forall (n : nat) (i end_ step : Z),
    (cnt <= n)%nat ->
    (forall k : nat, (k < cnt)%nat ->
       span_test (i + Z.of_nat k * step) end_ step = true
       /\ in_int64 (i + Z.of_nat (S k) * step) = true) ->
    span_test (i + Z.of_nat cnt * step) end_ step = false ->
    span_loop n i end_ step
    = Some (map (fun k : nat => value_int (i + Z.of_nat k * step))
              (seq 0 cnt)).
Proof.
  induction cnt as [|cnt IH]; intros n i end_ step Hn Hk Hstop.
  - replace (i + Z.of_nat 0 * step) with i in Hstop by lia.
    destruct n; cbn [span_loop]; rewrite Hstop; reflexivity.
  - destruct n as [|n]; [lia|].
    cbn [span_loop].
    destruct (Hk O ltac:(lia)) as [Ht Hi].
    replace (i + Z.of_nat 0 * step) with i in Ht by lia.
    replace (i + Z.of_nat 1 * step) with (i + step) in Hi by lia.
    rewrite Ht, Hi.
    rewrite (IH n (i + step) end_ step).
    + cbn [mbind option_bind seq map]. do 2 f_equal.
      * f_equal. lia.
      * rewrite <- seq_shift, map_map. apply map_ext.
        intros k. f_equal. lia.
    + lia.
    + intros k Hlt. destruct (Hk (S k) ltac:(lia)) as [Ht' Hi']. split.
      * rewrite <- Ht'. f_equal. lia.
      * rewrite <- Hi'. f_equal. lia.
    + rewrite <- Hstop. f_equal. lia.
Qed.

Lemma in_int64_between (lo hi z : Z) :
  in_int64 lo = true -> in_int64 hi = true -> lo <= z <= hi ->
  in_int64 z = true.
Proof.
  unfold in_int64. rewrite !andb_true_iff, !Z.leb_le. lia.
Qed.

(** X20.  With a positive step, [span(start, end, step)] is the
    progression start, start + step, ... below [end], provided the first
    value past the end is still an [int64_t] and the fuel covers the
    rounds. *)
Theorem span_ascending (fuel : nat) (start end_ step : Z) :
  0 < step ->
  in_int64 start = true ->
  let count := Z.max 0 ((end_ - start + step - 1) / step) in
  in_int64 (start + count * step) = true ->
  (Z.to_nat count <= fuel)%nat ->
  builtin_span fuel [VInt start; VInt end_; VInt step]
  = Some (VList (map (fun k : nat => VInt (start + Z.of_nat k * step))
                   (seq 0 (Z.to_nat count)))).
Proof.
  intros Hstep Hlo count Hhi Hfuel.
  unfold builtin_span, span_bounds.
  set (q := (end_ - start + step - 1) / step) in *.
  assert (Hq : step * q <= end_ - start + step - 1 < step * (q + 1)).
  { pose proof (Z.div_mod (end_ - start + step - 1) step ltac:(lia)) as E.
    pose proof (Z.mod_pos_bound (end_ - start + step - 1) step Hstep) as B.
    fold q in E. lia. }
  rewrite (span_loop_count (Z.to_nat count)); [reflexivity | assumption | |].
  - intros k Hk. split.
    + unfold span_test. rewrite (proj2 (Z.ltb_lt 0 step) Hstep).
      apply Z.ltb_lt.
      assert (Z.of_nat k + 1 <= q) by lia.
      assert (step * (Z.of_nat k + 1) <= step * q)
        by (apply Z.mul_le_mono_nonneg_l; lia).
      lia.
    + apply (in_int64_between start (start + count * step));
        [assumption | assumption |].
      assert (H0 : 0 <= Z.of_nat (S k) <= count) by lia.
      split.
      * assert (0 <= Z.of_nat (S k) * step) by (apply Z.mul_nonneg_nonneg; lia).
        lia.
      * assert (Z.of_nat (S k) * step <= count * step)
          by (apply Z.mul_le_mono_nonneg_r; lia).
        lia.
  - unfold span_test. rewrite (proj2 (Z.ltb_lt 0 step) Hstep).
    apply Z.ltb_ge. rewrite Z2Nat.id by lia.
    unfold count. destruct (Z.max_spec 0 q) as [[Hc ->]|[Hc ->]].
    + lia.
    + assert (step * q <= step * 0) by (apply Z.mul_le_mono_nonneg_l; lia).
      lia.
Qed.

Lemma span_ascending_witness :
  builtin_span 5 [VInt 1; VInt 10; VInt 3]
  = Some (VList [VInt 1; VInt 4; VInt 7]).
Proof.
  apply (span_ascending 5 1 10 3); [lia | reflexivity | reflexivity |].
  vm_compute. lia.
Defined.

Lemma span_loop_stuck (n : nat) :
  forall start end_ : Z, end_ < start -> span_loop n start end_ 0 = None.
Proof.
  induction n as [|n IH]; intros start end_ Hlt; cbn [span_loop];
    unfold span_test; cbn [Z.ltb Z.compare];
    rewrite (proj2 (Z.ltb_lt end_ start) Hlt); [reflexivity|].
  rewrite Z.add_0_r. rewrite (IH _ _ Hlt).
  destruct (in_int64 start); reflexivity.
Qed.

(** X21.  With a step of zero, [span(start, end, 0)] is empty when
    start <= end, and its loop never ends when start > end: no amount of
    fuel gives a result. *)
Theorem span_zero_step (start end_ : Z) :
  (start <= end_ ->
   forall fuel, builtin_span fuel [VInt start; VInt end_; VInt 0]
                = Some (VList []))
  /\ (end_ < start ->
      forall fuel, builtin_span fuel [VInt start; VInt end_; VInt 0] = None).
Proof.
  split; intros H fuel; unfold builtin_span, span_bounds.
  - assert (Ht : span_test start end_ 0 = false).
    { unfold span_test. cbn [Z.ltb Z.compare]. apply Z.ltb_ge. lia. }
    destruct fuel; cbn [span_loop]; rewrite Ht; reflexivity.
  - rewrite span_loop_stuck by assumption. reflexivity.
Qed.

Lemma span_zero_step_witness :
  builtin_span 1000 [VInt 1; VInt 0; VInt 0] = None.
Proof.
  exact (proj2 (span_zero_step 1 0) ltac:(lia) 1000%nat).
Defined.

(** *** Case conversion *)

Lemma toupper_idempotent (c : ascii) : toupper (toupper c) = toupper c.
Proof. destruct c as [[] [] [] [] [] [] [] []]; reflexivity. Qed.

Lemma tolower_idempotent (c : ascii) : tolower (tolower c) = tolower c.
Proof. destruct c as [[] [] [] [] [] [] [] []]; reflexivity. Qed.

Lemma tolower_toupper (c : ascii) : tolower (toupper c) = tolower c.
Proof. destruct c as [[] [] [] [] [] [] [] []]; reflexivity. Qed.

Lemma toupper_tolower (c : ascii) : toupper (tolower c) = toupper c.
Proof. destruct c as [[] [] [] [] [] [] [] []]; reflexivity. Qed.

Lemma string_map_map (f g h : ascii -> ascii) (s : string) :
  (forall c, f (g c) = h c) ->
  string_map f (string_map g s) = string_map h s.
Proof.
  intros E. induction s as [|c s IH]; cbn [string_map]; [reflexivity|].
  rewrite E, IH. reflexivity.
Qed.

Lemma string_map_length (f : ascii -> ascii) (s : string) :
  String.length (string_map f s) = String.length s.
Proof.
  induction s as [|c s IH]; cbn [string_map String.length]; congruence.
Qed.

(** X22.  [uppercase] and [lowercase] are idempotent, each one absorbs the
    other applied first, and [measure] of the converted string is the
    length of the original. *)
Theorem case_conversion (s : string) :
  builtin_uppercase [builtin_uppercase [VString s]]
  = builtin_uppercase [VString s]
  /\ builtin_lowercase [builtin_lowercase [VString s]]
     = builtin_lowercase [VString s]
  /\ builtin_lowercase [builtin_uppercase [VString s]]
     = builtin_lowercase [VString s]
  /\ builtin_uppercase [builtin_lowercase [VString s]]
     = builtin_uppercase [VString s]
  /\ (forall fuel rec interp,
        Step.call_builtin fuel rec builtin_measure
          [builtin_uppercase [VString s]] interp
        = Some (VInt (Z.of_nat (String.length s)),
                [builtin_uppercase [VString s]], interp)
        /\ Step.call_builtin fuel rec builtin_measure
             [builtin_lowercase [VString s]] interp
           = Some (VInt (Z.of_nat (String.length s)),
                   [builtin_lowercase [VString s]], interp)).
Proof.
  unfold builtin_uppercase, builtin_lowercase, value_string.
  rewrite (string_map_map _ _ _ s toupper_idempotent),
    (string_map_map _ _ _ s tolower_idempotent),
    (string_map_map _ _ _ s tolower_toupper),
    (string_map_map _ _ _ s toupper_tolower).
  repeat split; cbn [Step.call_builtin]; rewrite string_map_length;
    reflexivity.
Qed.

(** *** [builtin_contains] *)

Lemma is_prefix_spec (p s : string) :
  is_prefix p s = true <-> exists b, s = p +:+ b.
Proof.
  revert s. induction p as [|a p IH]; intros s; cbn [is_prefix].
  - split; [intros _; exists s; reflexivity | reflexivity].
  - destruct s as [|c s].
    + split; [discriminate | intros [b Hb]; discriminate Hb].
    + rewrite andb_true_iff, Ascii.eqb_eq, IH. split.
      * intros [-> [b ->]]. exists b. reflexivity.
      * intros [b Hb]. injection Hb as -> ->. split; [reflexivity|].
        exists b. reflexivity.
Qed.

Lemma strstr_spec (haystack needle : string) :
  strstr haystack needle = true
  <-> exists a b, haystack = a +:+ needle +:+ b.
Proof.
  induction haystack as [|c h IH]; cbn [strstr];
    rewrite orb_true_iff, is_prefix_spec.
  - split.
    + intros [[b Hb]|Hf]; [|discriminate]. exists "", b. exact Hb.
    + intros (a & b & Hab). left. destruct a; [|discriminate Hab].
      exists b. exact Hab.
  - rewrite IH. split.
    + intros [[b Hb]|(a & b & Hab)].
      * exists "", b. exact Hb.
      * exists (String c a), b. rewrite Hab. reflexivity.
    + intros (a & b & Hab). destruct a as [|c' a].
      * left. exists b. exact Hab.
      * right. injection Hab as -> ->. exists a, b. reflexivity.
Qed.

(** X23.  On two strings [contains] tells whether the second occurs
    somewhere inside the first.  On a list it finds integers and strings
    only: it answers true exactly when the value sought is an integer or a
    string that is an element of the list, so never for a float, a boolean,
    void or a list, whatever the list holds. *)
Theorem contains_semantics :
  (forall haystack needle,
     builtin_contains [VString haystack; VString needle] = VBool true
     <-> exists a b, haystack = a +:+ needle +:+ b)
  /\ (forall items x,
        builtin_contains [VList items; x] = VBool true
        <-> In x items /\ ((exists z, x = VInt z) \/ exists s, x = VString s)).
Proof.
  split.
  - intros haystack needle. cbn [builtin_contains]. unfold value_bool.
    rewrite <- strstr_spec.
    destruct (strstr haystack needle); split; congruence.
  - intros items x. cbn [builtin_contains]. unfold value_bool.
    assert (E : existsb (contains_item x) items = true
                <-> In x items
                    /\ ((exists z, x = VInt z) \/ exists s, x = VString s)).
    { rewrite existsb_exists. split.
      - intros (item & Hin & Hc).
        destruct item, x; try discriminate Hc; cbn [contains_item] in Hc.
        + apply Z.eqb_eq in Hc. subst. eauto.
        + apply String.eqb_eq in Hc. subst. eauto.
      - intros [Hin [[z ->]|[s ->]]]; eexists; (split; [exact Hin|]);
          cbn [contains_item]; [apply Z.eqb_refl | apply String.eqb_refl]. }
    rewrite <- E.
    destruct (existsb (contains_item x) items); split; congruence.
Qed.

(** *** [builtin_split] and [builtin_join] *)

Lemma append_assoc (a b c : string) : (a +:+ b) +:+ c = a +:+ (b +:+ c).
Proof.
  induction a as [|x a IH]; [reflexivity|].
  change (String x ((a +:+ b) +:+ c) = String x (a +:+ (b +:+ c))).
  f_equal. exact IH.
Qed.

Lemma append_nil_r (a : string) : a +:+ "" = a.
Proof.
  induction a as [|x a IH]; [reflexivity|].
  change (String x (a +:+ "") = String x a). f_equal. exact IH.
Qed.

Lemma eqb_append_char (tok : string) (c : ascii) :
  String.eqb (tok +:+ String c "") "" = false.
Proof. destruct tok; reflexivity. Qed.

(** Reading a run of characters that are not delimiters extends the
    token. *)
Lemma strtok_all_token (delim t : string) :
  forall rest tok,
    Forall (fun c => is_delim delim c = false) (list_ascii_of_string t) ->
    strtok_all delim (t +:+ rest) tok = strtok_all delim rest (tok +:+ t).
Proof.
  induction t as [|c t IH]; intros rest tok Hall.
  - simpl. rewrite append_nil_r. reflexivity.
  - cbn [list_ascii_of_string] in Hall. apply List.Forall_cons_iff in Hall.
    destruct Hall as [Hc Hall].
    change (String c t +:+ rest) with (String c (t +:+ rest)).
    cbn [strtok_all]. rewrite Hc, (IH _ _ Hall), append_assoc. reflexivity.
Qed.

(** Reading a run of delimiters closes the token, if there is one. *)
Lemma strtok_all_delims (delim d : string) :
  forall rest tok,
    Forall (fun c => is_delim delim c = true) (list_ascii_of_string d) ->
    d <> "" ->
    strtok_all delim (d +:+ rest) tok
    = (if String.eqb tok "" then [] else [tok]) ++ strtok_all delim rest "".
Proof.
  induction d as [|c d IH]; intros rest tok Hall Hne; [congruence|].
  cbn [list_ascii_of_string] in Hall. apply List.Forall_cons_iff in Hall.
  destruct Hall as [Hc Hall].
  change (String c d +:+ rest) with (String c (d +:+ rest)).
  cbn [strtok_all]. rewrite Hc.
  destruct d as [|c' d].
  - destruct (String.eqb tok ""); reflexivity.
  - rewrite (IH rest "" Hall) by discriminate.
    destruct (String.eqb tok ""); reflexivity.
Qed.

Lemma is_delim_self (delim : string) :
  Forall (fun c => is_delim delim c = true) (list_ascii_of_string delim).
Proof.
  apply List.Forall_forall. intros c Hin. unfold is_delim.
  apply existsb_exists. exists c. split; [exact Hin | apply Ascii.eqb_refl].
Qed.

Lemma strtok_all_concat (delim : string) (tokens : list string) :
  delim <> "" ->
  Forall (token_of delim) tokens ->
  strtok_all delim (String.concat delim tokens) "" = tokens.
Proof.
  intros Hd. induction tokens as [|t tokens IH]; intros Hall;
    [reflexivity|].
  apply List.Forall_cons_iff in Hall. destruct Hall as [[Hne Ht] Hall].
  assert (Et : String.eqb t "" = false) by (apply String.eqb_neq; exact Hne).
  cbn [String.concat]. destruct tokens as [|t' tokens].
  - rewrite <- (append_nil_r t) at 1.
    rewrite (strtok_all_token delim t "" "" Ht).
    change ("" +:+ t) with t. cbn [strtok_all]. rewrite Et. reflexivity.
  - rewrite (strtok_all_token delim t _ "" Ht).
    change ("" +:+ t) with t.
    rewrite (strtok_all_delims delim delim _ _ (is_delim_self delim) Hd).
    rewrite Et. cbn [app]. f_equal. apply IH. exact Hall.
Qed.

Lemma mapM_join_strings (tokens : list string) :
  mapM join_item (map value_string tokens) = Some tokens.
Proof.
  induction tokens as [|t tokens IH]; [reflexivity|].
  cbn [map mapM]. cbn [join_item value_string]. rewrite IH. reflexivity.
Qed.

Lemma concat_length_strings (delim : string) (tokens : list string) :
  (String.length (String.concat delim tokens)
   <= list_sum (map (fun t => String.length t + String.length delim) tokens))%nat.
Proof.
  induction tokens as [|t tokens IH]; [cbn; lia|].
  change (list_sum (map (fun t => (String.length t + String.length delim)%nat)
                      (t :: tokens)))
    with (String.length t + String.length delim
          + list_sum (map (fun t => String.length t + String.length delim)
                        tokens))%nat.
  cbn [String.concat]. destruct tokens as [|t' tokens].
  - lia.
  - rewrite !string_length_app. lia.
Qed.

Lemma join_capacity_strings (delim : string) (tokens : list string) :
  join_capacity (map value_string tokens) delim
  = (1 + list_sum (map (fun t => String.length t + String.length delim)
                     tokens)
     + List.length tokens * 20)%nat.
Proof.
  unfold join_capacity. rewrite map_map, length_map. reflexivity.
Qed.

Lemma join_strings (delim : string) (tokens : list string) :
  builtin_join [VList (map value_string tokens); VString delim]
  = Some (VString (String.concat delim tokens)).
Proof.
  cbn [builtin_join]. rewrite mapM_join_strings. cbn [mbind option_bind].
  rewrite join_capacity_strings.
  pose proof (concat_length_strings delim tokens) as Hlen.
  match goal with
  | |- context [(?a <? ?b)%nat] => destruct (Nat.ltb_spec a b)
  end; [reflexivity | lia].
Qed.

(** X24.  Joining a list of strings with a delimiter always fits the
    buffer and gives the strings in order with the delimiter between
    consecutive ones (the empty string for the empty list, no delimiter for
    a single item).  Splitting that result at the same delimiter gives the
    list back when the delimiter is not empty and every item is a
    non-empty string with no character of the delimiter. *)
Theorem split_join_round_trip (delim : string) (tokens : list string) :
  builtin_join [VList (map VString tokens); VString delim]
  = Some (VString (String.concat delim tokens))
  /\ String.concat delim [] = ""
  /\ (forall t, String.concat delim [t] = t)
  /\ (forall t u rest,
        String.concat delim (t :: u :: rest)
        = t +:+ delim +:+ String.concat delim (u :: rest))
  /\ (delim <> "" ->
      Forall (fun t => t <> ""
                       /\ Forall (fun c => is_delim delim c = false)
                            (list_ascii_of_string t)) tokens ->
      builtin_split [VString (String.concat delim tokens); VString delim]
      = VList (map VString tokens)).
Proof.
  split; [apply join_strings|].
  split; [reflexivity|]. split; [reflexivity|]. split; [reflexivity|].
  intros Hd Hall. cbn [builtin_split]. f_equal.
  rewrite (strtok_all_concat delim tokens Hd Hall). reflexivity.
Qed.

Lemma split_join_round_trip_witness :
  builtin_join [VList (map VString ["a"; "bc"; "d"]); VString ", "]
  = Some (VString "a, bc, d")
  /\ builtin_split [VString "a, bc, d"; VString ", "]
     = VList (map VString ["a"; "bc"; "d"]).
Proof.
  destruct (split_join_round_trip ", " ["a"; "bc"; "d"])
    as (Hjoin & _ & _ & _ & Hsplit).
  split; [exact Hjoin|].
  apply Hsplit; [discriminate|].
  repeat constructor; discriminate.
Defined.

Lemma list_ascii_of_string_app (a b : string) :
  list_ascii_of_string (a +:+ b)
  = list_ascii_of_string a ++ list_ascii_of_string b.
Proof.
  induction a as [|x a IH]; [reflexivity|].
  change (x :: list_ascii_of_string (a +:+ b)
          = x :: (list_ascii_of_string a ++ list_ascii_of_string b)).
  f_equal. exact IH.
Qed.

(** The tokens that [split] returns are never empty and hold no
    delimiter. *)
Lemma strtok_all_tokens (delim : string) (s : string) :
  forall tok,
    Forall (fun c => is_delim delim c = false) (list_ascii_of_string tok) ->
    Forall (token_of delim) (strtok_all delim s tok).
Proof.
  induction s as [|c s IH]; intros tok Htok; cbn [strtok_all].
  - destruct (String.eqb_spec tok ""); constructor; [|constructor].
    split; assumption.
  - destruct (is_delim delim c) eqn:Hc.
    + destruct (String.eqb_spec tok "").
      * apply IH. constructor.
      * constructor; [split; assumption | apply IH; constructor].
    + apply IH.
      rewrite list_ascii_of_string_app. apply List.Forall_app. split; [exact Htok|].
      repeat constructor. exact Hc.
Qed.

(** X25.  Every item of the list that [split] returns is a non-empty
    string without any character of the delimiter: empty fields are
    dropped, so [split] of a string made of delimiters only is empty. *)
Theorem split_tokens (s delim : string) :
  exists tokens,
    builtin_split [VString s; VString delim] = VList (map VString tokens)
    /\ Forall (fun t => t <> ""
                        /\ Forall (fun c => is_delim delim c = false)
                             (list_ascii_of_string t)) tokens.
Proof.
  exists (strtok_all delim s ""). split; [reflexivity|].
  apply strtok_all_tokens. constructor.
Qed.

(** X26.  The buffer of [join] reserves the delimiter for string items
    only: joining integers with a delimiter of total length above twenty
    bytes an item writes past the buffer. *)
Theorem join_overflow (zs : list Z) (delim : string) :
  (1 + 20 * List.length zs <= (List.length zs - 1) * String.length delim)%nat ->
  builtin_join [VList (map VInt zs); VString delim] = None.
Proof.
  intros Hlen. cbn [builtin_join].
  assert (Hm : mapM join_item (map VInt zs) = Some (map pretty zs)).
  { clear Hlen. induction zs as [|z zs IH]; [reflexivity|].
    cbn [map mapM]. cbn [join_item value_to_string mbind option_bind].
    rewrite IH. reflexivity. }
  rewrite Hm. cbn [mbind option_bind].
  assert (Hcap : join_capacity (map VInt zs) delim
                 = (1 + List.length zs * 20)%nat).
  { unfold join_capacity. rewrite length_map.
    assert (E : list_sum (map (fun v : Value =>
                  match v with
                  | VString s => (String.length s + String.length delim)%nat
                  | _ => 0%nat
                  end) (map VInt zs)) = 0%nat).
    { clear. induction zs as [|z zs IH]; [reflexivity|]. exact IH. }
    rewrite E. lia. }
  rewrite Hcap.
  assert (Hres : forall l : list string,
             ((List.length l - 1) * String.length delim
              <= String.length (String.concat delim l))%nat).
  { clear. induction l as [|x l IH]; [cbn; lia|].
    cbn [String.concat List.length]. destruct l as [|y l].
    - cbn. lia.
    - rewrite !string_length_app. cbn [List.length] in *. lia. }
  specialize (Hres (map pretty zs)). rewrite length_map in Hres.
  match goal with
  | |- context [(?a <? ?b)%nat] => destruct (Nat.ltb_spec a b)
  end; [lia | reflexivity].
Qed.

Lemma join_overflow_witness :
  builtin_join
    [VList (map VInt [1; 2]);
     VString "----------------------------------------+"]
  = None.
Proof.
  apply (join_overflow [1; 2]). vm_compute. lia.
Defined.

(** *** [builtin_min_val], [builtin_max_val] and [builtin_abs_val] *)

(** X27.  On integers of magnitude at most two to the 53, [min] and [max]
    return the smaller and the larger argument as an integer, and [abs] of
    any integer but the least one is its absolute value. *)
Theorem min_max_abs_on_integers (a b : Z) :
  IntDiv.exact a -> IntDiv.exact b ->
  builtin_min_val [VInt a; VInt b] = Some (VInt (Z.min a b))
  /\ builtin_max_val [VInt a; VInt b] = Some (VInt (Z.max a b))
  /\ (forall v, v <> INT64_MIN ->
        builtin_abs_val [VInt v] = Some (VInt (Z.abs v))).
Proof.
  intros Ha Hb.
  pose proof (compare_integer a b Ha Hb) as Hab.
  pose proof (compare_integer b a Hb Ha) as Hba.
  unfold builtin_min_val, builtin_max_val, min_max.
  cbn [numeric_operand mbind option_bind is_float orb].
  unfold Double.ltb, SFltb. rewrite Hab, Hba.
  rewrite (Z.compare_antisym a b).
  split; [|split].
  - destruct (Z.compare_spec a b) as [E|L|G]; cbn [CompOpp];
      rewrite to_int64_of_int64 by assumption;
      cbn [mbind option_bind value_int]; do 2 f_equal; lia.
  - destruct (Z.compare_spec a b) as [E|L|G]; cbn [CompOpp];
      rewrite to_int64_of_int64 by assumption;
      cbn [mbind option_bind value_int]; do 2 f_equal; lia.
  - intros v Hv. cbn [builtin_abs_val].
    destruct (Z.ltb_spec v 0).
    + rewrite (proj2 (Z.eqb_neq v INT64_MIN) Hv). unfold value_int.
      do 2 f_equal. lia.
    + unfold value_int. do 2 f_equal. lia.
Qed.

Lemma min_max_abs_on_integers_witness :
  builtin_min_val [VInt (-3); VInt 9007199254740992] = Some (VInt (-3)).
Proof.
  apply (min_max_abs_on_integers (-3) 9007199254740992);
    vm_compute; discriminate.
Defined.

(** *** Printing and reading integers *)

Lemma digit_value_char (d : Z) :
  0 <= d <= 9 -> digit_value (pretty_N_char (Z.to_N d)) = Some d.
Proof.
  intros Hd.
  assert (H : d = 0 \/ d = 1 \/ d = 2 \/ d = 3 \/ d = 4 \/ d = 5 \/ d = 6
              \/ d = 7 \/ d = 8 \/ d = 9) by lia.
  repeat destruct H as [->|H]; try subst d; reflexivity.
Qed.

Lemma char_no_space_no_sign (d : Z) :
  0 <= d <= 9 ->
  isspace (pretty_N_char (Z.to_N d)) = false
  /\ Ascii.eqb (pretty_N_char (Z.to_N d)) "-" = false
  /\ Ascii.eqb (pretty_N_char (Z.to_N d)) "+" = false.
Proof.
  intros Hd.
  assert (H : d = 0 \/ d = 1 \/ d = 2 \/ d = 3 \/ d = 4 \/ d = 5 \/ d = 6
              \/ d = 7 \/ d = 8 \/ d = 9) by lia.
  repeat destruct H as [->|H]; try subst d; repeat split.
Qed.

Lemma digits_string_app (ds : list Z) (d : Z) (s : string) :
  digits_string (ds ++ [d]) +:+ s
  = digits_string ds +:+ String (pretty_N_char (Z.to_N d)) s.
Proof.
  induction ds as [|x ds IH]; [reflexivity|].
  change (String (pretty_N_char (Z.to_N x)) (digits_string (ds ++ [d]) +:+ s)
          = String (pretty_N_char (Z.to_N x))
              (digits_string ds +:+ String (pretty_N_char (Z.to_N d)) s)).
  f_equal. exact IH.
Qed.

Lemma read_digits_string (ds : list Z) :
  Forall (fun d => 0 <= d <= 9) ds ->
  forall acc, read_digits (digits_string ds) acc = (digits_number ds acc, "").
Proof.
  induction ds as [|d ds IH]; intros Hall acc; [reflexivity|].
  apply List.Forall_cons_iff in Hall. destruct Hall as [Hd Hall].
  change (digits_string (d :: ds))
    with (String (pretty_N_char (Z.to_N d)) (digits_string ds)).
  cbn [read_digits]. rewrite (digit_value_char d Hd). apply IH. exact Hall.
Qed.

(** The digits that [pretty] writes for a natural number. *)
Lemma pretty_N_go_digits (n : N) :
  exists ds : list Z,
    Forall (fun d => 0 <= d <= 9) ds
    /\ (forall s, pretty_N_go n s = digits_string ds +:+ s)
    /\ digits_number ds 0 = Z.of_N n
    /\ (forall k : nat, (n < 10 ^ N.of_nat k)%N -> (List.length ds <= k)%nat)
    /\ ((0 < n)%N -> ds <> []).
Proof.
  induction (N.lt_wf_0 n) as [n _ IH].
  destruct (N.eq_dec n 0%N) as [->|Hn].
  - exists []. repeat split; try reflexivity.
    + constructor.
    + intros k _. cbn. lia.
    + lia.
  - assert (Hpos : (0 < n)%N) by lia.
    destruct (IH (n / 10)%N (N.div_lt n 10 Hpos eq_refl))
      as (ds & Hall & Hgo & Hnum & Hlen & _).
    pose proof (N.mod_lt n 10 ltac:(discriminate)) as Hmod.
    apply N2Z.inj_lt in Hmod. change (Z.of_N 10) with 10 in Hmod.
    pose proof (N2Z.is_nonneg (n mod 10)) as Hmod0.
    exists (ds ++ [Z.of_N (n mod 10)]). repeat split.
    + apply List.Forall_app. split; [exact Hall|].
      apply List.Forall_cons; [cbv beta; lia | apply List.Forall_nil].
    + intros s. rewrite pretty_N_go_step by exact Hpos.
      rewrite Hgo, digits_string_app, N2Z.id. reflexivity.
    + unfold digits_number in *. rewrite fold_left_app. cbn [fold_left].
      rewrite Hnum. rewrite (N.div_mod n 10) at 3 by discriminate.
      rewrite N2Z.inj_add, N2Z.inj_mul. change (Z.of_N 10) with 10. lia.
    + intros [|k] Hk.
      * change (10 ^ N.of_nat 0)%N with 1%N in Hk. lia.
      * rewrite List.length_app. cbn [List.length].
        assert (List.length ds <= k)%nat; [|lia].
        apply Hlen. apply N.Div0.div_lt_upper_bound.
        replace (N.of_nat (S k)) with (N.succ (N.of_nat k)) in Hk by lia.
        rewrite N.pow_succ_r' in Hk. exact Hk.
    + intros _ E. destruct ds; discriminate E.
Qed.

Lemma pretty_positive_digits (p : positive) :
  exists (d : Z) (ds : list Z),
    Forall (fun d => 0 <= d <= 9) (d :: ds)
    /\ pretty (Z.pos p) = digits_string (d :: ds)
    /\ digits_number (d :: ds) 0 = Z.pos p
    /\ (forall k : nat, (N.pos p < 10 ^ N.of_nat k)%N ->
          (List.length (d :: ds) <= k)%nat).
Proof.
  destruct (pretty_N_go_digits (N.pos p)) as (ds & Hall & Hgo & Hnum & Hlen & Hne).
  destruct ds as [|d ds]; [exfalso; apply Hne; [reflexivity | reflexivity]|].
  exists d, ds. repeat split; try assumption.
  change (pretty (Z.pos p)) with (pretty_N_go (N.pos p) "").
  rewrite Hgo.
  generalize (digits_string (d :: ds)). intros s.
  induction s as [|c s IHs]; [reflexivity|].
  change (String c (s +:+ "") = String c s). f_equal. exact IHs.
Qed.

Lemma read_integer_pretty (z : Z) : read_integer (pretty z) = Some (z, "").
Proof.
  destruct z as [|p|p].
  - reflexivity.
  - destruct (pretty_positive_digits p) as (d & ds & Hall & Hp & Hnum & _).
    rewrite Hp. pose proof (read_digits_string _ Hall 0) as Hr.
    apply List.Forall_cons_iff in Hall. destruct Hall as [Hd _].
    destruct (char_no_space_no_sign d Hd) as (Hs & Hm & Hpl).
    change (digits_string (d :: ds))
      with (String (pretty_N_char (Z.to_N d)) (digits_string ds)) in *.
    unfold read_integer. cbn [skip_while]. rewrite Hs.
    cbn [skip_sign]. rewrite Hm, Hpl.
    rewrite (digit_value_char d Hd), Hr, Hnum. reflexivity.
  - destruct (pretty_positive_digits p) as (d & ds & Hall & Hp & Hnum & _).
    change (pretty (Z.neg p)) with (String "-" (pretty (Z.pos p))).
    rewrite Hp. pose proof (read_digits_string _ Hall 0) as Hr.
    apply List.Forall_cons_iff in Hall. destruct Hall as [Hd _].
    change (digits_string (d :: ds))
      with (String (pretty_N_char (Z.to_N d)) (digits_string ds)) in *.
    unfold read_integer.
    match goal with
    | |- context [skip_sign (skip_while isspace (String "-" ?rest))] =>
        change (skip_sign (skip_while isspace (String "-" rest)))
          with (true, rest)
    end.
    cbv beta iota. rewrite (digit_value_char d Hd), Hr, Hnum. reflexivity.
Qed.

Lemma digits_string_length (ds : list Z) :
  String.length (digits_string ds) = List.length ds.
Proof.
  induction ds as [|d ds IH]; [reflexivity|].
  cbn [digits_string fold_right String.length List.length]. f_equal. exact IH.
Qed.

Lemma pretty_length (z : Z) :
  in_int64 z = true -> (String.length (pretty z) <= 20)%nat.
Proof.
  unfold in_int64, INT64_MIN, INT64_MAX.
  rewrite andb_true_iff, !Z.leb_le. intros [Hlo Hhi].
  destruct z as [|p|p].
  - cbn. lia.
  - destruct (pretty_positive_digits p) as (d & ds & _ & Hp & _ & Hlen).
    rewrite Hp, digits_string_length.
    specialize (Hlen 19%nat). 
    assert (N.pos p < 10 ^ N.of_nat 19)%N; [|lia].
    change (10 ^ N.of_nat 19)%N with 10000000000000000000%N. lia.
  - destruct (pretty_positive_digits p) as (d & ds & _ & Hp & _ & Hlen).
    change (pretty (Z.neg p)) with (String "-" (pretty (Z.pos p))).
    rewrite Hp. cbn [String.length]. rewrite digits_string_length.
    specialize (Hlen 19%nat).
    assert (N.pos p < 10 ^ N.of_nat 19)%N; [|lia].
    change (10 ^ N.of_nat 19)%N with 10000000000000000000%N. lia.
Qed.

(** X28.  [number(text(n))] is [n] for every integer: the text that
    [text] prints is read back by [atoll] to the same value. *)
Theorem number_of_text (z : Z) :
  in_int64 z = true ->
  exists t,
    builtin_text [VInt z] = Some (VString t)
    /\ builtin_number [VString t] = Some (VInt z).
Proof.
  intros Hz. exists (pretty z). split; [reflexivity|].
  cbn [builtin_number]. unfold atoll. rewrite read_integer_pretty, Hz.
  reflexivity.
Qed.

Lemma number_of_text_witness :
  exists t,
    builtin_text [VInt (-9223372036854775808)] = Some (VString t)
    /\ builtin_number [VString t] = Some (VInt (-9223372036854775808)).
Proof.
  apply (number_of_text (-9223372036854775808)). reflexivity.
Defined.

(** *** JSON *)

Lemma pretty_head (z : Z) :
  exists c rest,
    pretty z = String c rest
    /\ (c = "-"%char \/ exists d, 0 <= d <= 9 /\ c = pretty_N_char (Z.to_N d)).
Proof.
  destruct z as [|p|p].
  - exists "0"%char, "". split; [reflexivity|]. right. exists 0.
    split; [lia | reflexivity].
  - destruct (pretty_positive_digits p) as (d & ds & Hall & Hp & _).
    apply List.Forall_cons_iff in Hall. destruct Hall as [Hd _].
    exists (pretty_N_char (Z.to_N d)), (digits_string ds).
    split; [exact Hp|]. right. exists d. split; [exact Hd | reflexivity].
  - exists "-"%char, (pretty (Z.pos p)). split; [reflexivity|]. left.
    reflexivity.
Qed.

(** The text of an integer is not blank at its start and is none of the
    three words of JSON. *)
Lemma pretty_not_a_word (z : Z) :
  skip_while json_blank (pretty z) = pretty z
  /\ String.eqb (pretty z) "null" = false
  /\ String.eqb (pretty z) "true" = false
  /\ String.eqb (pretty z) "false" = false.
Proof.
  destruct (pretty_head z) as (c & rest & -> & Hc).
  assert (H : (c = "-" \/ c = "0" \/ c = "1" \/ c = "2" \/ c = "3"
               \/ c = "4" \/ c = "5" \/ c = "6" \/ c = "7" \/ c = "8"
               \/ c = "9")%char).
  { destruct Hc as [->|(d & Hd & ->)]; [left; reflexivity|]. right.
    assert (H : d = 0 \/ d = 1 \/ d = 2 \/ d = 3 \/ d = 4 \/ d = 5 \/ d = 6
                \/ d = 7 \/ d = 8 \/ d = 9) by lia.
    repeat destruct H as [->|H]; try subst d; cbn; tauto. }
  repeat destruct H as [->|H]; try subst c; repeat split.
Qed.

Lemma snprintf_fits (size : nat) (s : string) :
  (String.length s < size)%nat -> snprintf size s = s.
Proof. intros H. unfold snprintf. apply substring_0_all. lia. Qed.

Lemma before_char_found (c : ascii) (s rest : string) :
  ~ In c (list_ascii_of_string s) ->
  before_char c (s +:+ String c rest) = Some s.
Proof.
  induction s as [|x s IH]; intros Hnot.
  - change (before_char c (String c rest) = Some "").
    cbn [before_char]. rewrite Ascii.eqb_refl. reflexivity.
  - change (before_char c (String x (s +:+ String c rest))
            = Some (String x s)).
    cbn [before_char]. cbn [list_ascii_of_string] in Hnot.
    destruct (Ascii.eqb_spec x c) as [->|Hne].
    + exfalso. apply Hnot. left. reflexivity.
    + rewrite IH; [reflexivity|]. intros Hin. apply Hnot. right. exact Hin.
Qed.

Lemma before_char_missing (c : ascii) (s : string) :
  ~ In c (list_ascii_of_string s) -> before_char c s = None.
Proof.
  induction s as [|x s IH]; intros Hnot; [reflexivity|].
  cbn [before_char]. cbn [list_ascii_of_string] in Hnot.
  destruct (Ascii.eqb_spec x c) as [->|Hne].
  - exfalso. apply Hnot. left. reflexivity.
  - rewrite IH; [reflexivity|]. intros Hin. apply Hnot. right. exact Hin.
Qed.

(** What [decode_json] makes of a text that starts with a double quote. *)
Lemma decode_quoted (rest : string) :
  builtin_decode_json [VString (String (ascii_of_nat 34) rest)]
  = match before_char (ascii_of_nat 34) rest with
    | Some str => Some (VString str)
    | None => Some VNull
    end.
Proof. reflexivity. Qed.

(** X29.  [decode_json(encode_json(v))] is [v] for void, the booleans,
    every integer and every string of at most 4093 characters that holds no
    double quote. *)
Theorem json_round_trip :
  json_round_trips VNull
  /\ (forall b, json_round_trips (VBool b))
  /\ (forall z, in_int64 z = true -> json_round_trips (VInt z))
  /\ (forall s,
        (String.length s <= 4093)%nat ->
        ~ In (ascii_of_nat 34) (list_ascii_of_string s) ->
        json_round_trips (VString s)).
Proof.
  unfold json_round_trips. split; [|split; [|split]].
  - exists "null". split; reflexivity.
  - intros [|]; [exists "true" | exists "false"]; split; reflexivity.
  - intros z Hz. exists (pretty z).
    pose proof (pretty_length z Hz) as Hlen. split.
    + cbn [builtin_encode_json json_encode_value mbind option_bind].
      rewrite snprintf_fits by (cbn [String.length]; lia). reflexivity.
    + destruct (pretty_not_a_word z) as (Hb & Hn & Ht & Hf).
      cbn [builtin_decode_json]. rewrite Hb, Hn, Ht, Hf.
      unfold strtoll. rewrite read_integer_pretty.
      cbn [mbind option_bind at_end].
      unfold in_int64 in Hz. apply andb_prop in Hz as [Hlo Hhi].
      apply Z.leb_le in Hlo, Hhi. unfold value_int. do 2 f_equal. lia.
  - intros s Hlen Hq. exists (dquote +:+ s +:+ dquote). split.
    + cbn [builtin_encode_json json_encode_value mbind option_bind].
      rewrite snprintf_fits; [reflexivity|].
      change (dquote +:+ s +:+ dquote)
        with (String (ascii_of_nat 34) (s +:+ dquote)).
      cbn [String.length]. rewrite string_length_app.
      cbn [dquote String.length]. lia.
    + change (dquote +:+ s +:+ dquote)
        with (String (ascii_of_nat 34) (s +:+ String (ascii_of_nat 34) "")).
      rewrite decode_quoted, (before_char_found _ s "" Hq). reflexivity.
Qed.

Lemma json_round_trip_witness :
  json_round_trips (VInt (-42)) /\ json_round_trips (VString "a b").
Proof.
  destruct json_round_trip as (_ & _ & Hint & Hstr). split.
  - apply Hint. reflexivity.
  - apply Hstr; [cbn; lia|].
    cbn. intros [H|[H|[H|[]]]]; discriminate H.
Defined.


(** Encoding only appends to the buffer. *)
Lemma json_encode_items_appends (size : nat) (l : list Value) :
  Forall (appends size) l ->
  forall first buf out,
    (fix go (first : bool) (l : list Value) (buf : string) {struct l}
       : option string :=
       match l with
       | [] => Some (strncat buf "]" (size - String.length buf - 1))
       | x :: l' =>
           let buf :=
             if first then buf
             else strncat buf "," (size - String.length buf - 1) in
           do buf <- json_encode_value x buf size;
           go false l' buf
       end) first l buf = Some out ->
    exists r, out = buf +:+ r.
Proof.
  intros Hl. induction Hl as [|x l Hx _ IHl]; intros first buf out Hout.
  - injection Hout as <-. unfold strncat. eexists. reflexivity.
  - cbv zeta in Hout.
    destruct (json_encode_value x _ size) as [buf2|] eqn:Hx2;
      [|discriminate Hout].
    cbn [mbind option_bind] in Hout.
    destruct (IHl _ _ _ Hout) as [r2 ->].
    destruct (Hx _ _ Hx2) as [r1 ->].
    destruct first.
    + exists (r1 +:+ r2). apply append_assoc.
    + unfold strncat. rewrite !append_assoc. eexists. reflexivity.
Qed.

Lemma json_encode_value_appends (size : nat) (v : Value) : appends size v.
Proof.
  induction v as [items IH | v Hv] using Value_list_ind; intros buf out.
  - cbn [json_encode_value]. intros Hout.
    destruct (json_encode_items_appends size items IH _ _ _ Hout) as [r ->].
    unfold strncat. rewrite append_assoc. eexists. reflexivity.
  - destruct v; cbn [json_encode_value]; intros Hout;
      try discriminate Hout; try (injection Hout as <-; eexists; reflexivity).
    exfalso. exact (Hv items eq_refl).
Qed.

Lemma json_encode_list_starts (items : list Value) (out : string) :
  json_encode_value (VList items) "" 4096 = Some out ->
  exists r, out = String "[" r.
Proof.
  cbn [json_encode_value]. intros Hout.
  assert (Hall : Forall (appends 4096) items)
    by (apply List.Forall_forall; intros v _;
        apply json_encode_value_appends).
  destruct (json_encode_items_appends 4096 items Hall _ _ _ Hout) as [r ->].
  exists r. reflexivity.
Qed.

(** X30.  The decoder reads no list and no cut string: the encoding of
    any list decodes to void, and so does the encoding of a string of more
    than 4093 characters without a double quote, whose closing quote the
    buffer of 4096 bytes has no room for. *)
Theorem json_decode_gives_void :
  (forall items text,
     builtin_encode_json [VList items] = Some (VString text) ->
     builtin_decode_json [VString text] = Some VNull)
  /\ (forall s,
        (4093 < String.length s)%nat ->
        ~ In (ascii_of_nat 34) (list_ascii_of_string s) ->
        exists text,
          builtin_encode_json [VString s] = Some (VString text)
          /\ builtin_decode_json [VString text] = Some VNull).
Proof.
  split.
  - intros items text Henc. cbn [builtin_encode_json] in Henc.
    destruct (json_encode_value (VList items) "" 4096) as [out|] eqn:Hout;
      [|discriminate Henc].
    cbn [mbind option_bind] in Henc. injection Henc as <-.
    destruct (json_encode_list_starts items out Hout) as [r ->].
    reflexivity.
  - intros s Hlen Hq.
    exists (String (ascii_of_nat 34) (String.substring 0 4094 s)). split.
    + cbn [builtin_encode_json json_encode_value mbind option_bind].
      unfold value_string, snprintf.
      match goal with
      | |- context ["" +:+ ?x] => change ("" +:+ x) with x
      end.
      do 2 f_equal.
      change (dquote +:+ s +:+ dquote)
        with (String (ascii_of_nat 34) (s +:+ dquote)).
      change (4096 - String.length "" - 1)%nat with 4095%nat.
      change 4095%nat with (S 4094).
      cbn [String.substring]. f_equal.
      apply substring_0_app_l. lia.
    + rewrite decode_quoted, before_char_missing; [reflexivity|].
      intros Hin. apply Hq. revert Hin. clear.
      generalize 4094%nat. induction s as [|x s IH]; intros [|n] Hin;
        try (destruct Hin; fail).
      cbn [String.substring list_ascii_of_string] in Hin |- *.
      destruct Hin as [->|Hin]; [left; reflexivity | right; eauto].
Qed.

Lemma json_decode_gives_void_witness :
  builtin_encode_json [VList [VInt 1; VInt 2]] = Some (VString "[1,2]")
  /\ builtin_decode_json [VString "[1,2]"] = Some VNull.
Proof.
  split; [reflexivity|].
  apply (proj1 json_decode_gives_void [VInt 1; VInt 2]). reflexivity.
Defined.
